(** * The mocking engine of graphql-tools (mock.ts)

    A shallow embedding of [addMockFunctionsToSchema], [mockType],
    [mergeMocks], [copyOwnProps], [assignResolveType] and the [MockList]
    class, together with the part of the JavaScript object model they
    touch, and the properties of the engine proved over that embedding.
    The passes of the schema generator over a built schema
    ([addResolveFunctionsToSchema], [addCatchUndefinedToSchema],
    [addErrorLoggingToSchema]) and the decorators they install are
    embedded over the same schema model, with their properties.

    Modelling conventions.
    - JavaScript objects live in a heap and are passed by reference
      ([VRef]); an object has an ordered table of own properties, each with
      its value and its [enumerable] attribute, and a prototype link.
      Accessor properties, the [writable]/[configurable] attributes and
      non-extensible objects are not represented: every property is a
      writable data property.
    - Arrays are immutable lists of values ([VArr]); no code path of the
      module updates an array after it has been handed out.
    - Numbers are exact rationals; [Math.random] reads the next element of
      a stream of draws held by the world.
    - Functions supplied by the caller (registry factories, root fields,
      pre-existing resolvers, element generators) are identified by a
      [fid] and interpreted by the [call] operation of the host, which may
      read and update the world, throw, or return any value.
    - A computation either returns, throws, or is [Stuck]; the last marks
      executions that leave the model (a dangling reference, a cyclic
      prototype chain, an exhausted stream of draws, or a built-in applied
      to a kind of value whose properties are not represented). *)

From Stdlib Require Import ZArith QArith Qround String Ascii List Lia.
From stdpp Require Import base option list strings.
Import ListNotations.
Open Scope string_scope.
Set Warnings "-register-all".

(** ** GraphQL type expressions *)

(** A field type: a named type of the schema under [GraphQLList] and
    [GraphQLNonNull] wrappers. *)
Inductive gtype :=
| TNamed (name : string)
| TList (ofType : gtype)
| TNonNull (ofType : gtype).

(** [getNullableType] of graphql-js: strip one non-null wrapper. *)
Definition getNullableType (t : gtype) : gtype :=
  match t with TNonNull x => x | _ => t end.

(** [getNamedType] of graphql-js: strip every wrapper. *)
Fixpoint getNamedType (t : gtype) : string :=
  match t with
  | TNamed n => n
  | TList x | TNonNull x => getNamedType x
  end.

(** The [name] property of a type object; wrappers have none. *)
Definition type_name (t : gtype) : option string :=
  match t with TNamed n => Some n | _ => None end.

(** ** Values, objects and the world *)

(** Heap locations and the identifiers of host functions. *)
Abbreviation loc := nat.
Abbreviation fid := nat.

Inductive exn (V : Type) :=
| JsError (msg : string)
| JsTypeError
| JsRangeError
| JsThrown (v : V).
Arguments JsError {V} msg.
Arguments JsTypeError {V}.
Arguments JsRangeError {V}.
Arguments JsThrown {V} v.

Inductive promise_state (V : Type) :=
| Fulfilled (v : V)
| Rejected (e : exn V)
| Pending.
Arguments Fulfilled {V} v.
Arguments Rejected {V} e.
Arguments Pending {V}.

Inductive value :=
| VUndefined
| VNull
| VBool (b : bool)
| VNum (q : Q)
| VStr (s : string)
| VArr (elems : list value)
| VRef (l : loc)
| VType (name : string)
| VPromise (p : promise_state value).

Record prop := { p_value : value; p_enumerable : bool }.

(** The [len] field of a MockList, typed [number | number[]]. *)
Inductive mlen :=
| LenNumber (n : Q)
| LenArray (l : list Q).

Record MockListData := { ml_len : mlen; ml_wrappedFunction : value }.

Inductive okind :=
| KObject
| KFunction (f : fid)
| KMockList (ml : MockListData).

Record object := {
  o_props : list (string * prop);
  o_proto : option loc;
  o_kind : okind
}.

Record world := { heap : list object; draws : list Q }.

(** ** Computations *)

Inductive outcome (A : Type) :=
| Ok (a : A)
| Throw (e : exn value)
| Stuck.
Arguments Ok {A} a.
Arguments Throw {A} e.
Arguments Stuck {A}.

Definition ST (S A : Type) : Type := S -> outcome A * S.
Definition M : Type -> Type := ST world.

Definition ret {S A : Type} (a : A) : ST S A := fun s => (Ok a, s).
Definition throw {S A : Type} (e : exn value) : ST S A := fun s => (Throw e, s).
Definition stuck {S A : Type} : ST S A := fun s => (Stuck, s).
Definition bind {S A B : Type} (m : ST S A) (k : A -> ST S B) : ST S B :=
  fun s =>
    match m s with
    | (Ok a, s') => k a s'
    | (Throw e, s') => (Throw e, s')
    | (Stuck, s') => (Stuck, s')
    end.

Notation "x <- m ;; k" := (bind m (fun x => k))
  (at level 100, m at next level, right associativity).
Notation "m ;;; k" := (bind m (fun _ => k))
  (at level 100, right associativity).

Section Loops.
Context {S A B : Type}.
Variable f : A -> ST S B.
Variable g : A -> ST S unit.
Variable body : ST S A.

(** Run [body] [n] times in sequence and collect the results: the loop
    [for (let i = 0; i < n; i++) arr[i] = body]. *)
Fixpoint repeatM (n : nat) : ST S (list A) :=
  match n with
  | O => ret []
  | Datatypes.S n' => x <- body ;; xs <- repeatM n' ;; ret (x :: xs)
  end.

(** [l.map(f)], left to right. *)
Fixpoint mapM (l : list A) : ST S (list B) :=
  match l with
  | [] => ret []
  | a :: l' => b <- f a ;; bs <- mapM l' ;; ret (b :: bs)
  end.

(** [l.forEach(g)]. *)
Fixpoint forEachM (l : list A) : ST S unit :=
  match l with
  | [] => ret tt
  | a :: l' => g a ;;; forEachM l'
  end.
End Loops.
Arguments repeatM {S A} body n.
Arguments mapM {S A B} f l.
Arguments forEachM {S A} g l.

(** ** Property tables *)

Fixpoint assoc {A : Type} (k : string) (l : list (string * A)) : option A :=
  match l with
  | [] => None
  | (k', a) :: l' => if String.eqb k' k then Some a else assoc k l'
  end.

(** Define or redefine the entry of [k], keeping the position of an
    existing entry and appending a new one. *)
Fixpoint assoc_set {A : Type} (k : string) (a : A) (l : list (string * A))
  : list (string * A) :=
  match l with
  | [] => [(k, a)]
  | (k', a') :: l' =>
      if String.eqb k' k then (k', a) :: l' else (k', a') :: assoc_set k a l'
  end.

(** Ordinary assignment [o[k] = v] on the own property table: an
    existing property keeps its attributes, a new one is enumerable. *)
Definition put_value (k : string) (v : value) (ps : list (string * prop))
  : list (string * prop) :=
  match assoc k ps with
  | Some p => assoc_set k {| p_value := v; p_enumerable := p_enumerable p |} ps
  | None => assoc_set k {| p_value := v; p_enumerable := true |} ps
  end.

(** The own enumerable properties, in order: what [Object.keys] and
    [Object.assign] see. *)
Definition enumerable_props (ps : list (string * prop)) : list (string * value) :=
  omap (fun kp => if p_enumerable (snd kp) then Some (fst kp, p_value (snd kp)) else None) ps.

(** The value of the own enumerable property [k], if there is one. *)
Definition enumerable_value (ps : list (string * prop)) (k : string) : option value :=
  match assoc k ps with
  | Some p => if p_enumerable p then Some (p_value p) else None
  | None => None
  end.

(** ** Primitive predicates *)

Definition truthy (v : value) : bool :=
  match v with
  | VUndefined | VNull => false
  | VBool b => b
  | VNum q => negb (Qeq_bool q 0)
  | VStr s => negb (String.eqb s EmptyString)
  | VArr _ | VRef _ | VType _ | VPromise _ => true
  end.

Definition is_undefined (v : value) : bool :=
  match v with VUndefined => true | _ => false end.

Definition isArray (v : value) : bool :=
  match v with VArr _ => true | _ => false end.

(** [thing === Object(thing) && !Array.isArray(thing)]. *)
Definition isObject (thing : value) : bool :=
  match thing with
  | VRef _ | VType _ | VPromise _ => true
  | _ => false
  end.

(** [typeof v === 'function'], read off the heap. *)
Definition is_function (h : list object) (v : value) : bool :=
  match v with
  | VRef l =>
      match h !! l with
      | Some {| o_kind := KFunction _ |} => true
      | _ => false
      end
  | _ => false
  end.

(** [v instanceof MockList], read off the heap. *)
Definition as_MockList (h : list object) (v : value) : option MockListData :=
  match v with
  | VRef l =>
      match h !! l with
      | Some {| o_kind := KMockList ml |} => Some ml
      | _ => None
      end
  | _ => None
  end.

(** ** Heap operations *)

Definition ObjectPrototype : loc := 0.
Definition MockListPrototype : loc := 1.

Definition get_world : M world := fun w => (Ok w, w).

Definition alloc (o : object) : M value :=
  fun w => (Ok (VRef (length (heap w))),
            {| heap := heap w ++ [o]; draws := draws w |}).

(** The object literal [{ k1: v1, ... }]. *)
Definition new_object (ps : list (string * value)) : M value :=
  alloc {| o_props := map (fun kv => (fst kv, {| p_value := snd kv; p_enumerable := true |})) ps;
           o_proto := Some ObjectPrototype;
           o_kind := KObject |}.

Definition update_props (l : loc) (f : list (string * prop) -> list (string * prop))
  : M unit :=
  fun w =>
    match heap w !! l with
    | Some o =>
        (Ok tt, {| heap := <[l := {| o_props := f (o_props o);
                                      o_proto := o_proto o;
                                      o_kind := o_kind o |}]> (heap w);
                   draws := draws w |})
    | None => (Stuck, w)
    end.

(** Property lookup along the prototype chain. The outer [option] is
    [None] when the walk leaves the heap or does not end within [fuel]
    steps. *)
Fixpoint find_property (h : list object) (fuel : nat) (l : loc) (k : string)
  : option (option prop) :=
  match fuel with
  | O => None
  | S fuel' =>
      match h !! l with
      | None => None
      | Some o =>
          match assoc k (o_props o) with
          | Some p => Some (Some p)
          | None =>
              match o_proto o with
              | None => Some None
              | Some l' => find_property h fuel' l' k
              end
          end
      end
  end.

(** The property read [v[k]]. *)
Definition Get (v : value) (k : string) : M value :=
  fun w =>
    match v with
    | VUndefined | VNull => (Throw JsTypeError, w)
    | VRef l =>
        match find_property (heap w) (S (length (heap w))) l k with
        | Some (Some p) => (Ok (p_value p), w)
        | Some None => (Ok VUndefined, w)
        | None => (Stuck, w)
        end
    | _ => (Stuck, w)
    end.

(** The assignment [v[k] = x]. *)
Definition Put (v : value) (k : string) (x : value) : M unit :=
  match v with
  | VUndefined | VNull => throw JsTypeError
  | VRef l => update_props l (put_value k x)
  | _ => stuck
  end.

(** [Object.getOwnPropertyNames(v)] with the descriptors. *)
Definition getOwnProperties (v : value) : M (list (string * prop)) :=
  fun w =>
    match v with
    | VUndefined | VNull => (Throw JsTypeError, w)
    | VRef l =>
        match heap w !! l with
        | Some o => (Ok (o_props o), w)
        | None => (Stuck, w)
        end
    | _ => (Stuck, w)
    end.

(** [Object.getOwnPropertyDescriptor(v, k)]. *)
Definition getOwnPropertyDescriptor (v : value) (k : string) : M (option prop) :=
  ps <- getOwnProperties v ;; ret (assoc k ps).

(** [Object.defineProperty(v, k, desc)]. *)
Definition defineProperty (v : value) (k : string) (desc : prop) : M unit :=
  match v with
  | VRef l => update_props l (assoc_set k desc)
  | _ => throw JsTypeError
  end.

(** [Object.getPrototypeOf(v)]. *)
Definition getPrototypeOf (v : value) : M value :=
  fun w =>
    match v with
    | VUndefined | VNull => (Throw JsTypeError, w)
    | VRef l =>
        match heap w !! l with
        | Some o => (Ok (match o_proto o with Some p => VRef p | None => VNull end), w)
        | None => (Stuck, w)
        end
    | _ => (Stuck, w)
    end.

(** The own property names of a source of [Object.assign]; [undefined]
    and [null] sources are skipped, numbers, booleans, the empty string
    and promises have no own enumerable property. *)
Definition assign_source_names (v : value) : M (list string) :=
  fun w =>
    match v with
    | VUndefined | VNull | VBool _ | VNum _ | VPromise _ => (Ok [], w)
    | VStr s => if String.eqb s EmptyString then (Ok [], w) else (Stuck, w)
    | VRef l =>
        match heap w !! l with
        | Some o => (Ok (map fst (o_props o)), w)
        | None => (Stuck, w)
        end
    | VArr _ | VType _ => (Stuck, w)
    end.

(** One step of [Object.assign]: copy property [k] of the source when it
    is (still) an own enumerable property. *)
Definition assign_property (a b : value) (k : string) : M unit :=
  desc <- getOwnPropertyDescriptor b k ;;
  match desc with
  | Some p => if p_enumerable p then Put a k (p_value p) else ret tt
  | None => ret tt
  end.

(** [Object.assign(a, b)]: copy the own enumerable properties of [b]
    onto [a] by ordinary assignment and return [a]. *)
Definition Object_assign (a b : value) : M value :=
  match a with
  | VUndefined | VNull => throw JsTypeError
  | VRef _ =>
      names <- assign_source_names b ;;
      forEachM (assign_property a b) names ;;;
      ret a
  | _ => stuck
  end.

(** [Object.keys(v)]: the names of the own enumerable properties. *)
Definition Object_keys (v : value) : M (list string) :=
  fun w =>
    match v with
    | VUndefined | VNull => (Throw JsTypeError, w)
    | VBool _ | VNum _ | VPromise _ => (Ok [], w)
    | VStr s => if String.eqb s EmptyString then (Ok [], w) else (Stuck, w)
    | VRef l =>
        match heap w !! l with
        | Some o => (Ok (map fst (enumerable_props (o_props o))), w)
        | None => (Stuck, w)
        end
    | VArr _ | VType _ => (Stuck, w)
    end.

(** [Math.random()]. *)
Definition Math_random : M Q :=
  fun w =>
    match draws w with
    | r :: rs => (Ok r, {| heap := heap w; draws := rs |})
    | [] => (Stuck, w)
    end.

(** [new Array(n)] for a number [n]: the length of the array, or a
    RangeError when [n] is not an integer in [0, 2^32 - 1]. *)
Definition new_Array (n : Q) : M nat :=
  if Qeq_bool (inject_Z (Qfloor n)) n
     && (0 <=? Qfloor n)%Z && (Qfloor n <=? 4294967295)%Z
  then ret (Z.to_nat (Qfloor n))
  else throw JsRangeError.

(** ** The host: caller-supplied functions and the uuid generator *)

Class Host := {
  call : fid -> value -> list value -> M value;
  uuid_v4 : M value
}.

(** ** Schema model *)

(** What [instanceof] tells about a named type, with the static data the
    engine reads from it: [getTypes()] of a union, the schema's
    [getPossibleTypes] of an interface, the underlying values of
    [getValues()] of an enum. *)
Inductive tkind :=
| KScalar
| KObjectType
| KInterface (possibleTypes : list string)
| KUnion (types : list string)
| KEnum (values : list value).

(** The part of [GraphQLResolveInfo] the engine reads: the names for
    which [info.schema.getType] finds a type. *)
Record GraphQLResolveInfo := { info_schema_types : list string }.

Definition schema_getType (info : GraphQLResolveInfo) (name : string) : value :=
  if existsb (String.eqb name) (info_schema_types info) then VType name else VUndefined.

Definition resolver : Type := value -> value -> value -> value -> M value.

(** An abstract-type resolver: its declared parameter count (the
    function's [length]) and its behaviour. *)
Record ResolveTypeFn := {
  rt_length : nat;
  rt_apply : value -> value -> GraphQLResolveInfo -> M value
}.

Record field := { f_type : gtype; f_resolve : option resolver }.

Record typedef := {
  td_kind : tkind;
  td_fields : list (string * field);
  td_resolveType : option ResolveTypeFn
}.

Record schema := {
  typeMap : list (string * typedef);
  queryType : option string;
  mutationType : option string
}.

Definition kinds_of (s : schema) : list (string * tkind) :=
  map (fun nt => (fst nt, td_kind (snd nt))) (typeMap s).

Definition lookup_field (s : schema) (typeName fieldName : string) : option field :=
  match assoc typeName (typeMap s) with
  | Some td => assoc fieldName (td_fields td)
  | None => None
  end.

Definition set_field_resolve (s : schema) (typeName fieldName : string) (r : resolver)
  : schema :=
  match assoc typeName (typeMap s) with
  | Some td =>
      match assoc fieldName (td_fields td) with
      | Some fd =>
          {| typeMap :=
               assoc_set typeName
                 {| td_kind := td_kind td;
                    td_fields := assoc_set fieldName
                                   {| f_type := f_type fd; f_resolve := Some r |}
                                   (td_fields td);
                    td_resolveType := td_resolveType td |}
                 (typeMap s);
             queryType := queryType s;
             mutationType := mutationType s |}
      | None => s
      end
  | None => s
  end.

Definition set_resolveType (s : schema) (name : string) (rt : ResolveTypeFn) : schema :=
  match assoc name (typeMap s) with
  | Some td =>
      {| typeMap :=
           assoc_set name
             {| td_kind := td_kind td;
                td_fields := td_fields td;
                td_resolveType := Some rt |}
             (typeMap s);
         queryType := queryType s;
         mutationType := mutationType s |}
  | None => s
  end.

Definition is_abstract (k : tkind) : bool :=
  match k with KInterface _ | KUnion _ => true | _ => false end.

(** Setup computations run over the schema being mocked and the world. *)
Definition Setup : Type -> Type := ST (schema * world).

Definition liftW {A : Type} (m : M A) : Setup A :=
  fun sw => let '(o, w') := m (snd sw) in (o, (fst sw, w')).

Definition get_schema : Setup schema := fun sw => (Ok (fst sw), sw).

Definition modify_schema (f : schema -> schema) : Setup unit :=
  fun sw => (Ok tt, (f (fst sw), snd sw)).

(** [forEachField] of schemaGenerator: visit every field of every object
    type whose name does not start with two underscores. *)
Definition fields_to_visit (s : schema) : list (string * string) :=
  flat_map
    (fun nt =>
       if negb (String.prefix "__" (fst nt))
          && match td_kind (snd nt) with KObjectType => true | _ => false end
       then map (fun ff => (fst nt, fst ff)) (td_fields (snd nt))
       else [])
    (typeMap s).

Definition forEachField (fn : field -> string -> string -> Setup unit) : Setup unit :=
  s0 <- get_schema ;;
  forEachM
    (fun tf =>
       s <- get_schema ;;
       match lookup_field s (fst tf) (snd tf) with
       | Some fd => fn fd (fst tf) (snd tf)
       | None => stuck
       end)
    (fields_to_visit s0).

(** Coercion of a value used as a property key: a type object prints as
    its name. *)
Definition ToPropertyKey (v : value) : M string :=
  match v with
  | VStr s => ret s
  | VType n => ret n
  | VUndefined => ret "undefined"
  | VNull => ret "null"
  | VBool true => ret "true"
  | VBool false => ret "false"
  | _ => stuck
  end.

(** The completion value of a promise once it has settled; a value that
    is not a promise completes as itself. User-defined thenables are not
    represented. *)
Fixpoint settle (v : value) : promise_state value :=
  match v with
  | VPromise p =>
      match p with
      | Fulfilled v' => settle v'
      | Rejected e => Rejected e
      | Pending => Pending
      end
  | _ => Fulfilled v
  end.

(** [Promise.all([a, b])]: fulfilled with both values, rejected as soon
    as one of the two is (the first in array order when both are), and
    pending otherwise. *)
Inductive all2 :=
| BothFulfilled (a b : value)
| OneRejected (e : exn value)
| StillPending.

Definition Promise_all2 (a b : value) : all2 :=
  match settle a, settle b with
  | Fulfilled x, Fulfilled y => BothFulfilled x y
  | Rejected e, _ | _, Rejected e => OneRejected e
  | _, _ => StillPending
  end.

(** ** The engine *)

Section Engine.
Context `{Host}.

(** The call [f.call(this, ...args)]. *)
Definition call_value (f this : value) (args : list value) : M value :=
  fun w =>
    match f with
    | VRef l =>
        match heap w !! l with
        | Some {| o_kind := KFunction fn |} => call fn this args w
        | Some _ => (Throw JsTypeError, w)
        | None => (Stuck, w)
        end
    | _ => (Throw JsTypeError, w)
    end.

(** *** class MockList *)

Definition len_value (len : mlen) : value :=
  match len with
  | LenNumber n => VNum n
  | LenArray l => VArr (map VNum l)
  end.

(** [new MockList(len, wrappedFunction)]. The instance keeps [len] as
    given; [wrappedFunction] is [VUndefined] when the argument is
    omitted. *)
Definition MockList_new (len : mlen) (wrappedFunction : value) : M value :=
  w <- get_world ;;
  if negb (is_undefined wrappedFunction)
  then
    if negb (is_function (heap w) wrappedFunction)
    then throw (JsError "Second argument to MockList must be a function or undefined")
    else alloc {| o_props :=
                    [("len", {| p_value := len_value len; p_enumerable := true |});
                     ("wrappedFunction",
                      {| p_value := wrappedFunction; p_enumerable := true |})];
                  o_proto := Some MockListPrototype;
                  o_kind := KMockList {| ml_len := len;
                                         ml_wrappedFunction := wrappedFunction |} |}
  else alloc {| o_props := [("len", {| p_value := len_value len; p_enumerable := true |})];
                o_proto := Some MockListPrototype;
                o_kind := KMockList {| ml_len := len;
                                       ml_wrappedFunction := VUndefined |} |}.

(** [randint(low, high)]. *)
Definition randint (low high : Q) : M Q :=
  r <- Math_random ;;
  ret (inject_Z (Qfloor (r * ((high - low) + 1) + low))).

(** The first statement of [mock]: allocate [arr] and return its
    length. A missing bound of the pair reads as [undefined], the
    arithmetic of [randint] then yields NaN and [new Array] throws. *)
Definition mock_length (len : mlen) : M nat :=
  match len with
  | LenArray (low :: high :: _) => n <- randint low high ;; new_Array n
  | LenArray _ => Math_random ;;; throw JsRangeError
  | LenNumber n => new_Array n
  end.

(** [mock] when [fieldType] is [undefined]: reading [fieldType.ofType]
    throws. *)
Definition MockList_mock_undefined (self : value) (ml : MockListData) : resolver :=
  fun root args context info =>
    n <- mock_length (ml_len ml) ;;
    arr <- repeatM
      (w <- get_world ;;
       if is_function (heap w) (ml_wrappedFunction ml)
       then
         res <- call_value (ml_wrappedFunction ml) self [root; args; context; info] ;;
         w' <- get_world ;;
         match as_MockList (heap w') res with
         | Some _ => throw JsTypeError
         | None => ret res
         end
       else throw JsTypeError)
      n ;;
    ret (VArr arr).

Section MockListMock.
(** [mockTypeFunc] applied to a type, and to [undefined]. *)
Variable mockTypeFunc : gtype -> resolver.
Variable mockTypeFunc_undefined : resolver.

(** [mock(root, args, context, info, fieldType, mockTypeFunc)] on the
    instance [self] with fields [ml]. *)
Fixpoint MockList_mock (fieldType : gtype) (self : value) (ml : MockListData)
    (root args context info : value) {struct fieldType} : M value :=
  n <- mock_length (ml_len ml) ;;
  arr <- repeatM
    (w <- get_world ;;
     if is_function (heap w) (ml_wrappedFunction ml)
     then
       res <- call_value (ml_wrappedFunction ml) self [root; args; context; info] ;;
       w' <- get_world ;;
       match as_MockList (heap w') res with
       | Some ml' =>
           match fieldType with
           | TList e | TNonNull e =>
               MockList_mock (getNullableType e) res ml' root args context info
           | TNamed _ =>
               MockList_mock_undefined res ml' root args context info
           end
       | None => ret res
       end
     else
       match fieldType with
       | TList e | TNonNull e => mockTypeFunc e root args context info
       | TNamed _ => mockTypeFunc_undefined root args context info
       end)
    n ;;
  ret (VArr arr).
End MockListMock.

(** *** Helpers of addMockFunctionsToSchema *)

Definition mergeObjects (a b : value) : M value := Object_assign a b.

Definition copyOwnPropsIfNotPresent (target source : value) : M unit :=
  names <- getOwnProperties source ;;
  forEachM
    (fun np =>
       present <- getOwnPropertyDescriptor target (fst np) ;;
       match present with
       | Some _ => ret tt
       | None =>
           desc <- getOwnPropertyDescriptor source (fst np) ;;
           match desc with
           | Some d => defineProperty target (fst np) d
           | None => throw JsTypeError
           end
       end)
    names.

(** The loop [while (chain) { ...; chain = Object.getPrototypeOf(chain) }]. *)
Fixpoint copy_chain (fuel : nat) (target chain : value) : M unit :=
  if truthy chain
  then
    match fuel with
    | O => stuck
    | S fuel' =>
        copyOwnPropsIfNotPresent target chain ;;;
        next <- getPrototypeOf chain ;;
        copy_chain fuel' target next
    end
  else ret tt.

Definition copyOwnProps (target : value) (sources : list value) : M value :=
  forEachM
    (fun source =>
       w <- get_world ;;
       copy_chain (S (length (heap w))) target source)
    sources ;;;
  ret target.

Definition index_of_draw (r : Q) (n : nat) : option nat :=
  let i := Qfloor (r * inject_Z (Z.of_nat n)) in
  if (i <? 0)%Z then None else Some (Z.to_nat i).

(** [getRandomElement(ary)]; [None] is [undefined]. *)
Definition getRandomElement {A : Type} (ary : list A) : M (option A) :=
  r <- Math_random ;;
  ret (match index_of_draw r (length ary) with
       | Some i => ary !! i
       | None => None
       end).

Fixpoint mergeMocks (genericMockFunction : M value) (customMock : value)
    {struct customMock} : M value :=
  match customMock with
  | VArr els =>
      xs <- mapM (mergeMocks genericMockFunction) els ;; ret (VArr xs)
  | _ =>
      if isObject customMock
      then g <- genericMockFunction ;; mergeObjects g customMock
      else ret customMock
  end.

Definition dquote : string := String "034"%char EmptyString.

Definition no_mock_message (name : option string) : string :=
  "No mock defined for type " ++ dquote
    ++ match name with Some n => n | None => "undefined" end ++ dquote.

Definition not_a_function_message (mockTypeName : string) : string :=
  "mockFunctionMap[" ++ mockTypeName ++ "] must be a function".

Definition defaultMockMap : list (string * resolver) :=
  [("Int", fun _ _ _ _ =>
      r <- Math_random ;;
      ret (VNum (inject_Z (Qfloor (r * 200 + (1 # 2))) - 100)));
   ("Float", fun _ _ _ _ => r <- Math_random ;; ret (VNum (r * 200 - 100)));
   ("String", fun _ _ _ _ => ret (VStr "Hello World"));
   ("Boolean", fun _ _ _ _ => r <- Math_random ;; ret (VBool (negb (Qle_bool r (1 # 2)))));
   ("ID", fun _ _ _ _ => uuid_v4)].

(** The property key [fieldName] denotes; an omitted [fieldName] is
    [undefined] and reads the property of that name. *)
Definition field_key (fieldName : option string) : string :=
  match fieldName with Some f => f | None => "undefined" end.

(** *** The closure of one call of addMockFunctionsToSchema *)

Section Closure.
(** The schema as the closures see it, the registry turned into a
    map, and the preserve flag. *)
Variable kinds : list (string * tkind).
Variable mockFunctionMap : list (string * value).
Variable preserveResolvers : bool.

(** An unknown name behaves as a type that is no instance of the
    object, union, interface or enum classes. *)
Definition kind_of (t : gtype) : tkind :=
  match t with
  | TNamed n => match assoc n kinds with Some k => k | None => KScalar end
  | _ => KScalar
  end.

(** [mockFunctionMap.get(name)]; [name] is [None] for [undefined]. *)
Definition registry_entry (name : option string) : option value :=
  match name with
  | Some n => assoc n mockFunctionMap
  | None => None
  end.

(** [defaultMockMap.get(name)]. *)
Definition registry_entry_default (name : option string) : option resolver :=
  match name with
  | Some n => assoc n defaultMockMap
  | None => None
  end.

(** The type object drawn by [getRandomElement], as a value. *)
Definition type_object (randomType : option string) : value :=
  match randomType with Some n => VType n | None => VUndefined end.

(** The value the field already has: [root[fieldName]] itself, or what
    it returns when it is a function, a MockList being expanded by
    [result.mock(root, args, context, info, fieldType, mockType)]. *)
Definition existing_value (result_mock : value -> MockListData -> resolver)
    (rootField : value) : resolver :=
  fun root args context info =>
    w <- get_world ;;
    if is_function (heap w) rootField
    then
      result <- call_value rootField root [root; args; context; info] ;;
      w' <- get_world ;;
      match as_MockList (heap w') result with
      | Some ml => result_mock result ml root args context info
      | None => ret result
      end
    else ret rootField.

(** The function returned by [mockType(type, typeName, fieldName)],
    with its three kinds of inner calls left open:
    [mockType(fieldType.ofType)], [mockType(randomType)] and
    [result.mock(root, args, context, info, fieldType, mockType)].
    [type] is [None] when [mockType] is applied to [undefined]. *)
Definition mockType_body
    (mockType_ofType : gtype -> resolver)
    (mockType_randomType : option string -> resolver)
    (result_mock : value -> MockListData -> resolver)
    (type : option gtype) (typeName fieldName : option string) : resolver :=
  fun root args context info =>
    let fieldType := option_map getNullableType type in
    let namedFieldType := option_map getNamedType fieldType in
    let existing (rootField : value) : M value :=
      result <- existing_value result_mock rootField root args context info ;;
      match namedFieldType with
      | None => throw JsTypeError
      | Some name =>
          match registry_entry (Some name) with
          | Some mockFunction =>
              mergeMocks
                (call_value mockFunction VNull [root; args; context; info])
                result
          | None => ret result
          end
      end in
    let generate : M value :=
      match fieldType with
      | None => throw JsTypeError
      | Some (TList ofType) =>
          a <- mockType_ofType ofType root args context info ;;
          b <- mockType_ofType ofType root args context info ;;
          ret (VArr [a; b])
      | Some fieldType =>
          match registry_entry (type_name fieldType) with
          | Some mockFunction =>
              call_value mockFunction VUndefined [root; args; context; info]
          | None =>
              match kind_of fieldType with
              | KObjectType => new_object []
              | KUnion types =>
                  randomType <- getRandomElement types ;;
                  stamped <- new_object [("typename", type_object randomType)] ;;
                  mocked <- mockType_randomType randomType root args context info ;;
                  Object_assign stamped mocked
              | KInterface possibleTypes =>
                  randomType <- getRandomElement possibleTypes ;;
                  stamped <- new_object [("typename", type_object randomType)] ;;
                  mocked <- mockType_randomType randomType root args context info ;;
                  Object_assign stamped mocked
              | KEnum values =>
                  picked <- getRandomElement values ;;
                  match picked with
                  | Some v => ret v
                  | None => throw JsTypeError
                  end
              | KScalar =>
                  match registry_entry_default (type_name fieldType) with
                  | Some generator => generator root args context info
                  | None => throw (JsError (no_mock_message (type_name fieldType)))
                  end
              end
          end
      end in
    if truthy root
    then
      rootField <- Get root (field_key fieldName) ;;
      if negb (is_undefined rootField) then existing rootField else generate
    else generate.

(** Stands for an inner call that the context makes impossible. *)
Definition stuck_resolver : resolver := fun _ _ _ _ => stuck.

(** [mockType(undefined)]: what [mockTypeFunc(fieldType.ofType)]
    denotes when [fieldType] is a named type. *)
Definition mockType_undefined : resolver :=
  mockType_body (fun _ => stuck_resolver) (fun _ => stuck_resolver)
    MockList_mock_undefined None None None.

(** [mockType(randomType)] for a member of a union or a possible type
    of an interface. graphql-js admits object types only there, so no
    further member is drawn below this call. *)
Definition mockType_randomType (randomType : option string) : resolver :=
  match randomType with
  | Some n =>
      mockType_body (fun _ => stuck_resolver) (fun _ => stuck_resolver)
        (MockList_mock (fun _ => stuck_resolver) mockType_undefined (TNamed n))
        (Some (TNamed n)) None None
  | None => mockType_undefined
  end.

(** [mockType(type, typeName, fieldName)]: the body with its inner
    calls tied back to [mockType] itself; they are made on the element
    type of a list and on the types below it. *)
Fixpoint mockType (type : gtype) (typeName fieldName : option string)
    {struct type} : resolver :=
  mockType_body
    (fun ofType => mockType ofType None None)
    mockType_randomType
    (MockList_mock (fun ofType => mockType ofType None None) mockType_undefined
       (getNullableType type))
    (Some type) typeName fieldName.

(** *** Abstract-type resolvers *)

Definition getResolveType (s : schema) (namedFieldType : string)
  : option ResolveTypeFn :=
  match assoc namedFieldType (typeMap s) with
  | Some td => if is_abstract (td_kind td) then td_resolveType td else None
  | None => None
  end.

(** The fallback installed by [assignResolveType]:
    [(data, context, info) => info.schema.getType(data.typename)]. *)
Definition fallbackResolveType : ResolveTypeFn :=
  {| rt_length := 3;
     rt_apply := fun data context info =>
       typename <- Get data "typename" ;;
       key <- ToPropertyKey typename ;;
       ret (schema_getType info key) |}.

Definition assignResolveType (type : gtype) (s : schema) : schema :=
  let fieldType := getNullableType type in
  let namedFieldType := getNamedType fieldType in
  let oldResolveType := getResolveType s namedFieldType in
  if preserveResolvers
     && match oldResolveType with
        | Some old => negb (Nat.eqb (rt_length old) 0)
        | None => false
        end
  then s
  else
    match assoc namedFieldType (typeMap s) with
    | Some td =>
        if is_abstract (td_kind td)
        then set_resolveType s namedFieldType fallbackResolveType
        else s
    | None => s
    end.

(** *** Resolvers installed on fields *)

(** The resolver of a root field whose root mock defines it. *)
Definition rootFieldResolver (rootMock : value) (fd : field)
    (typeName fieldName : string) : resolver :=
  fun root args context info =>
    updatedRoot <- (if truthy root then ret root else new_object []) ;;
    mocks <- call_value rootMock VUndefined [root; args; context; info] ;;
    entry <- Get mocks fieldName ;;
    Put updatedRoot fieldName entry ;;;
    mockType (f_type fd) (Some typeName) (Some fieldName)
      updatedRoot args context info.

(** The continuation passed to [then] in preserve mode. *)
Definition mergeResolved (mockedValue resolvedValue : value) : M value :=
  if isObject mockedValue && isObject resolvedValue
  then
    target <- new_object [] ;;
    copyOwnProps target [resolvedValue; mockedValue]
  else
    ret (if negb (is_undefined resolvedValue) then resolvedValue else mockedValue).

(** The resolver installed in preserve mode on a field that has one
    already. The promise it returns is given by its eventual state. *)
Definition preservingResolver (mockResolver oldResolver : resolver) : resolver :=
  fun rootObject args context info =>
    mocked <- mockResolver rootObject args context info ;;
    resolved <- oldResolver rootObject args context info ;;
    match Promise_all2 mocked resolved with
    | BothFulfilled mockedValue resolvedValue =>
        fun w =>
          match mergeResolved mockedValue resolvedValue w with
          | (Ok v, w') => (Ok (VPromise (settle v)), w')
          | (Throw e, w') => (Ok (VPromise (Rejected e)), w')
          | (Stuck, w') => (Stuck, w')
          end
    | OneRejected e => ret (VPromise (Rejected e))
    | StillPending => ret (VPromise Pending)
    end.

Definition is_root_type (s : schema) (typeName : string) : bool :=
  match queryType s with Some q => String.eqb typeName q | None => false end
  || match mutationType s with Some m => String.eqb typeName m | None => false end.

(** The probe [rootMock(undefined, {}, {}, {})[fieldName]] made at setup. *)
Definition probe_root_mock (rootMock : value) (fieldName : string) : M value :=
  a <- new_object [] ;;
  c <- new_object [] ;;
  i <- new_object [] ;;
  mocks <- call_value rootMock VUndefined [VUndefined; a; c; i] ;;
  Get mocks fieldName.

(** The callback addMockFunctionsToSchema passes to [forEachField]. *)
Definition mockField (fd : field) (typeName fieldName : string) : Setup unit :=
  modify_schema (assignResolveType (f_type fd)) ;;;
  s <- get_schema ;;
  rootResolver <-
    (if is_root_type s typeName
     then
       match assoc typeName mockFunctionMap with
       | Some rootMock =>
           entry <- liftW (probe_root_mock rootMock fieldName) ;;
           if truthy entry
           then ret (Some (rootFieldResolver rootMock fd typeName fieldName))
           else ret None
       | None => ret None
       end
     else ret None) ;;
  let mockResolver :=
    match rootResolver with
    | Some r => r
    | None => mockType (f_type fd) (Some typeName) (Some fieldName)
    end in
  match preserveResolvers, f_resolve fd with
  | true, Some oldResolver =>
      modify_schema (fun s => set_field_resolve s typeName fieldName
                                (preservingResolver mockResolver oldResolver))
  | _, _ =>
      modify_schema (fun s => set_field_resolve s typeName fieldName mockResolver)
  end.
End Closure.

(** *** addMockFunctionsToSchema *)

(** [Object.keys(mocks).forEach(typeName => mockFunctionMap.set(typeName, mocks[typeName]))]. *)
Definition build_mockFunctionMap (mocks : value) : M (list (string * value)) :=
  typeNames <- Object_keys mocks ;;
  mapM (fun typeName => v <- Get mocks typeName ;; ret (typeName, v)) typeNames.

(** The body of [mockFunctionMap.forEach] that validates the registry. *)
Definition check_mockFunction (entry : string * value) : M unit :=
  w <- get_world ;;
  if negb (is_function (heap w) (snd entry))
  then throw (JsError (not_a_function_message (fst entry)))
  else ret tt.

(** [addMockFunctionsToSchema({ schema, mocks, preserveResolvers })].
    [schema] is [None] when the option is absent; [mocks] is
    [VUndefined] when omitted and then defaults to [{}]. The result
    carries the final state of the schema object. *)
Definition addMockFunctionsToSchema
    (schema_opt : option schema) (mocks : value) (preserveResolvers : bool)
  : world -> outcome unit * option schema * world :=
  fun w =>
    match schema_opt with
    | None => (Throw (JsError "Must provide schema to mock"), None, w)
    | Some s =>
        let setup : Setup unit :=
          mocks <- liftW (if is_undefined mocks then new_object [] else ret mocks) ;;
          if negb (isObject mocks)
          then throw (JsError "mocks must be of type Object")
          else
            mockFunctionMap <- liftW (build_mockFunctionMap mocks) ;;
            liftW (forEachM check_mockFunction mockFunctionMap) ;;;
            forEachField (mockField (kinds_of s) mockFunctionMap preserveResolvers) in
        let '(o, (s', w')) := setup (s, w) in
        (o, Some s', w')
    end.
End Engine.

(** ** Vocabulary of the statements *)

(** The names for which [defaultMockMap] has a generator. *)
Definition default_scalar_names : list string :=
  ["Int"; "Float"; "String"; "Boolean"; "ID"].

(** The field has no existing value on [root]: [root] is falsy or
    [root[fieldName]] is [undefined]. *)
Definition no_existing_value (root : value) (fieldName : option string) (w : world)
  : Prop :=
  truthy root = false \/ Get root (field_key fieldName) w = (Ok VUndefined, w).

(** The world after the assignment [o[k] = v] on the object at [l]. *)
Definition world_after_put (w : world) (l : loc) (o : object) (k : string) (v : value)
  : world :=
  {| heap := <[l := {| o_props := put_value k v (o_props o);
                       o_proto := o_proto o;
                       o_kind := o_kind o |}]> (heap w);
     draws := draws w |}.

(** The object [o] with its own property table replaced by [ps]. *)
Definition with_props (o : object) (ps : list (string * prop)) : object :=
  {| o_props := ps; o_proto := o_proto o; o_kind := o_kind o |}.

(** The effect on the target's property table of copying property [k] of
    a source whose table is [src]. *)
Definition assign_step (src ps : list (string * prop)) (k : string)
  : list (string * prop) :=
  match enumerable_value src k with
  | Some v => put_value k v ps
  | None => ps
  end.

(** The effect on the target's property table [tp] of one step of
    [copyOwnPropsIfNotPresent] for the name [k] of a source whose table
    is [src]. *)
Definition copy_step (src tp : list (string * prop)) (k : string)
  : list (string * prop) :=
  match assoc k tp with
  | Some _ => tp
  | None =>
      match assoc k src with
      | Some d => assoc_set k d tp
      | None => tp
      end
  end.

(** The objects of the prototype chain that starts at [l], when the
    chain ends within [fuel] links inside the heap. *)
Fixpoint proto_chain (h : list object) (fuel : nat) (l : loc) : option (list object) :=
  match fuel with
  | O => None
  | S fuel' =>
      match h !! l with
      | None => None
      | Some o =>
          match o_proto o with
          | None => Some [o]
          | Some l' => option_map (cons o) (proto_chain h fuel' l')
          end
      end
  end.

(** The first property named [k] along a chain. *)
Fixpoint chain_lookup (chain : list object) (k : string) : option prop :=
  match chain with
  | [] => None
  | o :: chain' =>
      match assoc k (o_props o) with
      | Some p => Some p
      | None => chain_lookup chain' k
      end
  end.

(** [chain] lists the objects met from [l] along the prototype links of
    the heap [h], down to an object without prototype. *)
Inductive is_chain (h : list object) : loc -> list object -> Prop :=
| chain_end (l : loc) (o : object) :
    h !! l = Some o -> o_proto o = None -> is_chain h l [o]
| chain_link (l l' : loc) (o : object) (chain : list object) :
    h !! l = Some o -> o_proto o = Some l' -> is_chain h l' chain ->
    is_chain h l (o :: chain).



(** The declared type of a field of the schema. *)
Definition field_type (s : schema) (typeName fieldName : string) : option gtype :=
  option_map f_type (lookup_field s typeName fieldName).

Section Installed.
Context `{Host}.
Variable kinds : list (string * tkind).
Variable mockFunctionMap : list (string * value).

(** What [mockField] installs when the field is not served by a root mock. *)
Definition installed_resolver (p : bool) (fd : field) (typeName fieldName : string)
  : resolver :=
  match p, f_resolve fd with
  | true, Some oldResolver =>
      preservingResolver
        (mockType kinds mockFunctionMap (f_type fd) (Some typeName) (Some fieldName))
        oldResolver
  | _, _ => mockType kinds mockFunctionMap (f_type fd) (Some typeName) (Some fieldName)
  end.

(** The body of the loop of [forEachField] instantiated with [mockField]. *)
Definition visit (p : bool) (tf : string * string) : Setup unit :=
  s <- get_schema ;;
  match lookup_field s (fst tf) (snd tf) with
  | Some fd => mockField kinds mockFunctionMap p fd (fst tf) (snd tf)
  | None => stuck
  end.

End Installed.

(** ** Scenarios

    A host, a heap and a schema in the style of the test suite of the
    module, on which the statements below are exercised. *)

Definition scenario_call (f : fid) (this : value) (args : list value) : M value :=
  match f with
  | 0 => ret (VStr "[object Object]")
  | 1 => new_object [("returnInt", VNum 3); ("returnString", VStr "woot!?")]
  | 2 => new_object [("returnStringArgument", VRef 5); ("returnZero", VNum 0)]
  | 3 => match args with
         | [_; a; _; _] => Get a "s"
         | _ => ret VUndefined
         end
  | 4 => alloc {| o_props := [("returnInt", {| p_value := VNum 12; p_enumerable := false |})];
                  o_proto := Some ObjectPrototype;
                  o_kind := KObject |}
  | 5 => MockList_new (LenArray [10; 20]%Q) VUndefined
  | 6 => ret (VNum 33)
  | 7 => MockList_new (LenNumber 3) VUndefined
  | 8 => MockList_new (LenNumber 2) (VRef 13)
  | 9 => MockList_new (LenNumber 2) (VRef 14)
  | _ => ret VUndefined
  end.

Definition scenario_host : Host :=
  {| call := scenario_call;
     uuid_v4 := ret (VStr "110ec58a-a0f2-4ac4-8393-c866d813b8d1") |}.

Definition function_object (f : fid) : object :=
  {| o_props := []; o_proto := Some ObjectPrototype; o_kind := KFunction f |}.

Definition plain_object (ps : list (string * value)) : object :=
  {| o_props := map (fun kv => (fst kv, {| p_value := snd kv; p_enumerable := true |})) ps;
     o_proto := Some ObjectPrototype;
     o_kind := KObject |}.

(** Locations: 0 and 1 are [Object.prototype] and [MockList.prototype],
    2 to 7 the functions 0 to 5 of the host, 8 a root value whose field
    [bird] is the object at 9, 10 an arguments object, 11 an empty root
    object and 12 a registry with an entry that is not a function. *)
Definition scenario_heap : list object :=
  [ {| o_props := [("toString", {| p_value := VRef 2; p_enumerable := false |})];
       o_proto := None; o_kind := KObject |};
    {| o_props := []; o_proto := Some ObjectPrototype; o_kind := KObject |};
    function_object 0;
    function_object 1;
    function_object 2;
    function_object 3;
    function_object 4;
    function_object 5;
    plain_object [("bird", VRef 9); ("count", VNum 54321); ("flock", VArr [VRef 9; VNum 7])];
    plain_object [("returnInt", VNum 54321)];
    plain_object [("s", VStr "adieu")];
    plain_object [];
    plain_object [("Bird", VRef 3); ("Int", VNum 5)] ].

Definition scenario_world : world :=
  {| heap := scenario_heap; draws := [1 # 2; 1 # 4; 3 # 4] |}.

(** The same heap followed by the functions 6 to 9 of the host at 13 to
    16 and, at 17, a root whose fields return MockLists. *)
Definition scenario_world_lists : world :=
  {| heap := scenario_heap
             ++ [function_object 6; function_object 7;
                 function_object 8; function_object 9;
                 plain_object [("returnList", VRef 15); ("returnMatrix", VRef 16)]];
     draws := [] |}.

Definition scenario_registry : list (string * value) :=
  [("Bird", VRef 3); ("RootQuery", VRef 4)].

Definition plain_field (t : gtype) : field := {| f_type := t; f_resolve := None |}.

Definition scenario_schema : schema :=
  {| typeMap :=
       [("RootQuery",
         {| td_kind := KObjectType;
            td_fields :=
              [("returnBirdsAndBees", plain_field (TList (TNamed "BirdsAndBees")));
               ("returnZero", plain_field (TNamed "Int"));
               ("returnStringArgument", plain_field (TNamed "String"));
               ("bird", plain_field (TNamed "Bird"))];
            td_resolveType := None |});
        ("Bird",
         {| td_kind := KObjectType;
            td_fields := [("returnInt", plain_field (TNamed "Int"));
                          ("returnString", plain_field (TNamed "String"))];
            td_resolveType := None |});
        ("Bee",
         {| td_kind := KObjectType;
            td_fields := [("returnInt", plain_field (TNamed "Int"))];
            td_resolveType := None |});
        ("BirdsAndBees",
         {| td_kind := KUnion ["Bird"; "Bee"];
            td_fields := [];
            td_resolveType := None |});
        ("Flying",
         {| td_kind := KInterface ["Bird"];
            td_fields := [];
            td_resolveType := None |});
        ("MissingMockType",
         {| td_kind := KScalar; td_fields := []; td_resolveType := None |})];
     queryType := Some "RootQuery";
     mutationType := None |}.

Definition scenario_kinds : list (string * tkind) := kinds_of scenario_schema.

(** The schema after [addMockFunctionsToSchema({ schema })] without
    registry. *)
Definition scenario_mocked_schema : schema :=
  match addMockFunctionsToSchema (H := scenario_host)
          (Some scenario_schema) VUndefined false scenario_world with
  | (_, Some s', _) => s'
  | _ => scenario_schema
  end.

Definition scenario_MockList (len : mlen) : MockListData :=
  {| ml_len := len; ml_wrappedFunction := VUndefined |}.

Definition scenario_mock_resolver : resolver :=
  fun _ _ _ _ => call (Host := scenario_host) 1 VUndefined [].

Definition scenario_real_resolver : resolver :=
  fun _ _ _ _ => call (Host := scenario_host) 4 VUndefined [].

Definition scenario_null_resolver : resolver := fun _ _ _ _ => ret VNull.

(** ** Vocabulary of the further statements *)

(** A value without object at any depth: a primitive, or an array of
    such values. *)
Fixpoint plain_data (v : value) : bool :=
  match v with
  | VArr els => forallb plain_data els
  | VRef _ | VType _ | VPromise _ => false
  | _ => true
  end.


(** The field with its resolver replaced by [r]. *)
Definition with_resolver (r : resolver) (fd : field) : field :=
  {| f_type := f_type fd; f_resolve := Some r |}.

(** The type map and the field tables are JavaScript objects: a name
    occurs once among the types, and once among the fields of a type. *)
Definition well_keyed (s : schema) : Prop :=
  List.NoDup (map fst (typeMap s))
  /\ Forall (fun nt => List.NoDup (map fst (td_fields (snd nt)))) (typeMap s).


(** What a pass does to the schema when each step changes at most the
    resolver of the field it visits. *)
Definition step_changes_own_resolver (step : string * string -> Setup unit) : Prop :=
  forall tf s w o s' w',
    step tf (s, w) = (o, (s', w')) ->
    kinds_of s' = kinds_of s
    /\ queryType s' = queryType s
    /\ mutationType s' = mutationType s
    /\ (forall typeName fieldName,
          (typeName, fieldName) <> tf ->
          lookup_field s' typeName fieldName = lookup_field s typeName fieldName)
    /\ ((exists r, o = Ok tt
                   /\ lookup_field s' (fst tf) (snd tf)
                      = option_map (with_resolver r) (lookup_field s (fst tf) (snd tf)))
        \/ (o <> Ok tt
            /\ lookup_field s' (fst tf) (snd tf) = lookup_field s (fst tf) (snd tf))).


(** ** The schema generator

    The passes of schemaGenerator over a built schema and the decorators
    they install. The tables of the schema are the association lists of
    the schema model; what a [resolve] slot holds is a function or
    [undefined], as in the field record. *)

(** [try { m } catch (e) { h e }]. *)
Definition try_catch {S A : Type} (m : ST S A) (h : exn value -> ST S A) : ST S A :=
  fun s =>
    match m s with
    | (Throw e, s') => h e s'
    | r => r
    end.

(** The call [fn(...args)] of what a [resolve] slot holds: a TypeError
    when it is [undefined]. *)
Definition call_resolve (fn : option resolver) : resolver :=
  fun root args context info =>
    match fn with
    | Some f => f root args context info
    | None => throw JsTypeError
    end.

Definition newline : string := String "010"%char EmptyString.

(** [`${typeName}.${fieldName}`]. *)
Definition errorHint (typeName fieldName : string) : string :=
  typeName ++ "." ++ fieldName.

(** *** decorateToCatchUndefined *)

Definition returned_undefined_message (hint : string) : string :=
  "Resolve function for " ++ dquote ++ hint ++ dquote ++ " returned undefined".

Definition decorateToCatchUndefined (fn : option resolver) (hint : string) : resolver :=
  fun root args context info =>
    result <- call_resolve fn root args context info ;;
    if is_undefined result
    then throw (JsError (returned_undefined_message hint))
    else ret result.

(** *** decorateWithLogger *)

(** A logger as the generator reads it: what its [log] property holds,
    a function of the error or something that is not a function. *)
Record Logger := { log : option (exn value -> M value) }.

(** [logger.log(e)]; [None] is a falsy logger. *)
Definition call_log (logger : option Logger) (e : exn value) : M value :=
  match logger with
  | Some {| log := Some f |} => f e
  | _ => throw JsTypeError
  end.

Definition resolver_error_message (hint message : string) : string :=
  "Error in resolver " ++ hint ++ newline ++ message.

(** [e.message = `Error in resolver ${hint}\n${e.message}`] in strict
    code, returning [e]. An [Error] carries its message; the message of
    a built-in TypeError or RangeError is not represented. A thrown
    object is read and written on the heap; on [undefined] and [null]
    the read throws, on another primitive the assignment does. *)
Definition prefix_message (hint : string) (e : exn value) : M (exn value) :=
  match e with
  | JsError message => ret (JsError (resolver_error_message hint message))
  | JsTypeError => ret JsTypeError
  | JsRangeError => ret JsRangeError
  | JsThrown v =>
      match v with
      | VBool _ | VNum _ | VStr _ => throw JsTypeError
      | _ =>
          old <- Get v "message" ;;
          message <- ToPropertyKey old ;;
          Put v "message" (VStr (resolver_error_message hint message)) ;;;
          ret (JsThrown v)
      end
  end.

Definition decorateWithLogger (fn : option resolver) (logger : option Logger)
    (hint : string) : resolver :=
  fun root args context info =>
    try_catch (call_resolve fn root args context info)
      (fun e =>
         e' <- (if negb (String.eqb hint EmptyString)
                then prefix_message hint e
                else ret e) ;;
         call_log logger e' ;;;
         throw e').

(** *** addCatchUndefinedToSchema and addErrorLoggingToSchema *)

Definition addCatchUndefinedToSchema : Setup unit :=
  forEachField (fun fd typeName fieldName =>
    modify_schema (fun s =>
      set_field_resolve s typeName fieldName
        (decorateToCatchUndefined (f_resolve fd) (errorHint typeName fieldName)))).

Definition addErrorLoggingToSchema (logger : option Logger) : Setup unit :=
  match logger with
  | None => throw (JsError "Must provide a logger")
  | Some {| log := None |} => throw (JsError "Logger.log must be a function")
  | Some {| log := Some _ |} =>
      forEachField (fun fd typeName fieldName =>
        modify_schema (fun s =>
          set_field_resolve s typeName fieldName
            (decorateWithLogger (f_resolve fd) logger (errorHint typeName fieldName))))
  end.

(** *** addResolveFunctionsToSchema *)

(** [field.resolve = r] for a value that is a function or [undefined]. *)
Definition assign_field_resolve (s : schema) (typeName fieldName : string)
    (r : option resolver) : schema :=
  match assoc typeName (typeMap s) with
  | Some td =>
      match assoc fieldName (td_fields td) with
      | Some fd =>
          {| typeMap :=
               assoc_set typeName
                 {| td_kind := td_kind td;
                    td_fields := assoc_set fieldName
                                   {| f_type := f_type fd; f_resolve := r |}
                                   (td_fields td);
                    td_resolveType := td_resolveType td |}
                 (typeMap s);
             queryType := queryType s;
             mutationType := mutationType s |}
      | None => s
      end
  | None => s
  end.

(** The types of graphql-js with a [getFields] method. *)
Definition has_getFields (k : tkind) : bool :=
  match k with KObjectType | KInterface _ => true | _ => false end.

Definition unknown_type_message (typeName : string) : string :=
  dquote ++ typeName ++ dquote ++ " defined in resolvers, but not in schema".

Definition unknown_field_message (typeName fieldName : string) : string :=
  typeName ++ "." ++ fieldName ++ " defined in resolvers, but not in schema".

Section SchemaGenerator.
(** The location of [SchemaError.prototype]. *)
Variable SchemaErrorPrototype : loc.

(** [new SchemaError(message)]: an object under [SchemaError.prototype]
    with the own property [message]; the stack trace is not
    represented. *)
Definition SchemaError (message : string) : M value :=
  alloc {| o_props := [("message", {| p_value := VStr message; p_enumerable := true |})];
           o_proto := Some SchemaErrorPrototype;
           o_kind := KObject |}.

Definition throw_SchemaError {A : Type} (message : string) : Setup A :=
  e <- liftW (SchemaError message) ;;
  throw (JsThrown e).

(** The body of the inner loop of [addResolveFunctionsToSchema]. *)
Definition addResolveFunction (typeName : string) (entry : string * option resolver)
  : Setup unit :=
  s <- get_schema ;;
  match assoc typeName (typeMap s) with
  | Some type =>
      if has_getFields (td_kind type)
      then
        match assoc (fst entry) (td_fields type) with
        | None => throw_SchemaError (unknown_field_message typeName (fst entry))
        | Some _ =>
            modify_schema (fun s => assign_field_resolve s typeName (fst entry) (snd entry))
        end
      else throw JsTypeError
  | None => stuck
  end.

(** [addResolveFunctionsToSchema(schema, resolveFunctions)], with
    [resolveFunctions] as the table of its own enumerable properties,
    each of them the table of the functions for the fields of a type. *)
Definition addResolveFunctionsToSchema
    (resolveFunctions : list (string * list (string * option resolver))) : Setup unit :=
  forEachM
    (fun entry =>
       s <- get_schema ;;
       match assoc (fst entry) (typeMap s) with
       | None => throw_SchemaError (unknown_type_message (fst entry))
       | Some _ => forEachM (addResolveFunction (fst entry)) (snd entry)
       end)
    resolveFunctions.
End SchemaGenerator.

(** ** Further scenarios *)

(** The kinds of the scenario schema with an enum type. *)
Definition scenario_kinds_enum : list (string * tkind) :=
  ("Color", KEnum [VStr "RED"; VStr "GREEN"; VStr "BLUE"]) :: scenario_kinds.

(** Resolvers that throw, and that return a rejected or a pending
    promise. *)
Definition scenario_throwing_resolver : resolver :=
  fun _ _ _ _ => throw (JsError "boom").

Definition scenario_rejecting_resolver : resolver :=
  fun _ _ _ _ => ret (VPromise (Rejected (JsError "rejected"))).

Definition scenario_pending_resolver : resolver :=
  fun _ _ _ _ => ret (VPromise Pending).

Definition scenario_undefined_resolver : resolver := fun _ _ _ _ => ret VUndefined.

(** A resolver that throws a string, and one that throws the object at
    location 13 of [scenario_world_errors]. *)
Definition scenario_string_thrower : resolver :=
  fun _ _ _ _ => throw (JsThrown (VStr "oops")).

Definition scenario_object_thrower : resolver :=
  fun _ _ _ _ => throw (JsThrown (VRef 13)).

(** The scenario heap followed, at 13, by an error object with the own
    message [bad bird]. *)
Definition scenario_world_errors : world :=
  {| heap := scenario_heap ++ [plain_object [("message", VStr "bad bird")]];
     draws := [] |}.

(** The scenario heap followed, at 13, by a registry with a mock for
    [Bird] only. *)
Definition scenario_world_type_mocks : world :=
  {| heap := scenario_heap ++ [plain_object [("Bird", VRef 3)]];
     draws := [] |}.

(** A logger that records nothing and returns [undefined]. *)
Definition scenario_log : exn value -> M value := fun _ => ret VUndefined.

Definition scenario_logger : option Logger := Some {| log := Some scenario_log |}.

(** The scenario schema with a resolver on [Bird.returnInt]. *)
Definition scenario_resolved_schema : schema :=
  set_field_resolve scenario_schema "Bird" "returnInt" scenario_null_resolver.

(** A table of resolve functions for two fields of the scenario schema. *)
Definition scenario_resolveFunctions : list (string * list (string * option resolver)) :=
  [("RootQuery", [("bird", Some scenario_null_resolver)]);
   ("Bird", [("returnInt", Some scenario_undefined_resolver);
             ("returnString", None)]);
   ("BirdsAndBees", [])].

(** The location of [SchemaError.prototype] in the scenarios: an object
    under [Object.prototype]. *)
Definition scenario_SchemaErrorPrototype : loc := 11.
(** * Properties *)

(** ** Property tables *)

Lemma assoc_set_eq {A : Type} (k : string) (a : A) (l : list (string * A)) :
  assoc k (assoc_set k a l) = Some a.
Proof.
  induction l as [|[k' a'] l IH]; simpl.
  - now rewrite String.eqb_refl.
  - destruct (String.eqb k' k) eqn:E; simpl; rewrite E; auto.
Qed.

Lemma assoc_set_ne {A : Type} (k k' : string) (a : A) (l : list (string * A)) :
  k <> k' -> assoc k' (assoc_set k a l) = assoc k' l.
Proof.
  intros Hne. induction l as [|[k0 a0] l IH]; simpl.
  - destruct (String.eqb k k') eqn:E; auto.
    apply String.eqb_eq in E. contradiction.
  - destruct (String.eqb k0 k) eqn:E; simpl.
    + apply String.eqb_eq in E. subst k0.
      destruct (String.eqb k k') eqn:E'; auto.
      apply String.eqb_eq in E'. contradiction.
    + now rewrite IH.
Qed.

Lemma put_value_eq (k : string) (v : value) (ps : list (string * prop)) :
  p_value <$> assoc k (put_value k v ps) = Some v.
Proof.
  unfold put_value. destruct (assoc k ps); now rewrite assoc_set_eq.
Qed.

Lemma put_value_ne (k k' : string) (v : value) (ps : list (string * prop)) :
  k <> k' -> assoc k' (put_value k v ps) = assoc k' ps.
Proof.
  intros Hne. unfold put_value. destruct (assoc k ps); now apply assoc_set_ne.
Qed.

Lemma put_value_same (k : string) (p : prop) (ps : list (string * prop)) :
  assoc k ps = Some p -> put_value k (p_value p) ps = ps.
Proof.
  intros Hk. unfold put_value. rewrite Hk.
  induction ps as [|[k0 p0] ps IH]; simpl in *; [discriminate|].
  destruct (String.eqb k0 k) eqn:E.
  - injection Hk as ->. now destruct p.
  - now rewrite IH.
Qed.

(** ** Computations *)

Lemma bind_Ok {S A B : Type} (m : ST S A) (k : A -> ST S B) (s s' : S) (a : A) :
  m s = (Ok a, s') -> bind m k s = k a s'.
Proof. intros E. unfold bind. now rewrite E. Qed.

Lemma bind_Throw {S A B : Type} (m : ST S A) (k : A -> ST S B) (s s' : S) e :
  m s = (Throw e, s') -> bind m k s = (Throw e, s').
Proof. intros E. unfold bind. now rewrite E. Qed.


Lemma mapM_length {S A B : Type} (f : A -> ST S B) (l : list A) (s s' : S) (ys : list B) :
  mapM f l s = (Ok ys, s') -> length ys = length l.
Proof.
  revert s s' ys. induction l as [|a l IH]; intros s s' ys; simpl.
  - unfold ret. intros [= <- _]. reflexivity.
  - unfold bind at 1. destruct (f a s) as [[x| |] s1]; try discriminate.
    unfold bind at 1. destruct (mapM f l s1) as [[zs| |] s2] eqn:E; try discriminate.
    unfold ret. intros [= <- _]. simpl. f_equal. eauto.
Qed.

(** Every element of the result of [mapM] is the result of [f] on the
    element at the same index, run in some intermediate state. *)
Lemma mapM_elementwise {S A B : Type} (f : A -> ST S B) (l : list A) (s s' : S)
    (ys : list B) :
  mapM f l s = (Ok ys, s') ->
  Forall2 (fun a b => exists s1 s2, f a s1 = (Ok b, s2)) l ys.
Proof.
  revert s s' ys. induction l as [|a l IH]; intros s s' ys; simpl.
  - unfold ret. intros [= <- _]. constructor.
  - unfold bind at 1. destruct (f a s) as [[x| |] s1] eqn:Ea; try discriminate.
    unfold bind at 1. destruct (mapM f l s1) as [[zs| |] s2] eqn:E; try discriminate.
    unfold ret. intros [= <- _]. constructor; eauto.
Qed.

Section Properties.
Context `{Host}.
Variable kinds : list (string * tkind).
Variable mockFunctionMap : list (string * value).

Local Abbreviation mockType := (mockType kinds mockFunctionMap).
Local Abbreviation installed_resolver := (installed_resolver kinds mockFunctionMap).
Local Abbreviation visit := (visit kinds mockFunctionMap).

(** [mockType] is its body with the inner calls tied back to itself. *)
Lemma mockType_unfold (type : gtype) (typeName fieldName : option string) :
  mockType type typeName fieldName =
  mockType_body kinds mockFunctionMap
    (fun ofType => mockType ofType None None)
    (mockType_randomType kinds mockFunctionMap)
    (MockList_mock (fun ofType => mockType ofType None None)
       (mockType_undefined kinds mockFunctionMap) (getNullableType type))
    (Some type) typeName fieldName.
Proof. destruct type; reflexivity. Qed.

Lemma mockType_generate_list (type ofType : gtype) typeName fieldName
    root args context info w :
  getNullableType type = TList ofType ->
  no_existing_value root fieldName w ->
  mockType type typeName fieldName root args context info w =
  (a <- mockType ofType None None root args context info ;;
   b <- mockType ofType None None root args context info ;;
   ret (VArr [a; b])) w.
Proof.
  intros Hty Hno. rewrite mockType_unfold. unfold mockType_body.
  cbn [option_map]. rewrite Hty.
  destruct Hno as [Hr | Hg].
  - rewrite Hr. reflexivity.
  - destruct (truthy root); [|reflexivity].
    rewrite (bind_Ok _ _ _ _ _ Hg). reflexivity.
Qed.

(** C6. A field whose null-stripped type is a list and that has no
    existing value on the root resolves to an array of exactly two
    elements; each element comes from its own invocation of [mockType] on
    the element type, the second one running in the world the first one
    left. No registry entry can interfere: a list type has no name. *)
Theorem default_list_has_two_independent_elements
    (type ofType : gtype) (typeName fieldName : option string)
    (root args context info : value) (w : world) :
  getNullableType type = TList ofType ->
  no_existing_value root fieldName w ->
  mockType type typeName fieldName root args context info w =
    (a <- mockType ofType None None root args context info ;;
     b <- mockType ofType None None root args context info ;;
     ret (VArr [a; b])) w
  /\ (forall a b w1 w2,
        mockType ofType None None root args context info w = (Ok a, w1) ->
        mockType ofType None None root args context info w1 = (Ok b, w2) ->
        mockType type typeName fieldName root args context info w = (Ok (VArr [a; b]), w2))
  /\ (forall v w2,
        mockType type typeName fieldName root args context info w = (Ok v, w2) ->
        exists a b w1,
          v = VArr [a; b] /\ length [a; b] = 2
          /\ mockType ofType None None root args context info w = (Ok a, w1)
          /\ mockType ofType None None root args context info w1 = (Ok b, w2)).
Proof.
  intros Hty Hno.
  pose proof (mockType_generate_list type ofType typeName fieldName
                root args context info w Hty Hno) as E.
  split; [exact E|]. split.
  - intros a b w1 w2 Ha Hb. rewrite E.
    rewrite (bind_Ok _ _ _ _ _ Ha). rewrite (bind_Ok _ _ _ _ _ Hb). reflexivity.
  - intros v w2. rewrite E. unfold bind at 1.
    destruct (mockType ofType None None root args context info w)
      as [[a| |] w1] eqn:Ha; try discriminate.
    unfold bind at 1.
    destruct (mockType ofType None None root args context info w1)
      as [[b| |] w1'] eqn:Hb; try discriminate.
    unfold ret. intros [= <- <-]. exists a, b, w1. auto.
Qed.

Lemma defaultMockMap_names : map fst defaultMockMap = default_scalar_names.
Proof. reflexivity. Qed.

Lemma assoc_None_not_In {A : Type} (k : string) (l : list (string * A)) :
  ~ In k (map fst l) -> assoc k l = None.
Proof.
  induction l as [|[k' a] l IH]; simpl; [reflexivity|].
  intros Hn. destruct (String.eqb k' k) eqn:E.
  - apply String.eqb_eq in E. tauto.
  - apply IH. tauto.
Qed.

Lemma mockType_no_mock (type : gtype) (name : string) typeName fieldName
    root args context info w :
  getNullableType type = TNamed name ->
  no_existing_value root fieldName w ->
  assoc name mockFunctionMap = None ->
  kind_of kinds (TNamed name) = KScalar ->
  ~ In name default_scalar_names ->
  mockType type typeName fieldName root args context info w =
    (Throw (JsError ("No mock defined for type " ++ dquote ++ name ++ dquote)), w).
Proof.
  intros Hty Hno Hreg Hkind Hdef. rewrite mockType_unfold. unfold mockType_body.
  cbn [option_map]. rewrite Hty.
  assert (G : forall f : value -> M value,
             (if truthy root
              then rootField <- Get root (field_key fieldName) ;;
                   (if negb (is_undefined rootField) then f rootField
                    else throw (JsError (no_mock_message (Some name))))
              else throw (JsError (no_mock_message (Some name)))) w
             = (Throw (JsError (no_mock_message (Some name))), w)).
  { intros f. destruct Hno as [Hr | Hg].
    - now rewrite Hr.
    - destruct (truthy root); [|reflexivity].
      now rewrite (bind_Ok _ _ _ _ _ Hg). }
  cbn [type_name registry_entry]. rewrite Hreg, Hkind.
  unfold registry_entry_default.
  rewrite (assoc_None_not_In name defaultMockMap)
    by (rewrite defaultMockMap_names; exact Hdef).
  apply G.
Qed.

Lemma is_root_type_assignResolveType (p : bool) (type : gtype) (s : schema) (n : string) :
  is_root_type (assignResolveType p type s) n = is_root_type s n.
Proof.
  unfold assignResolveType, set_resolveType.
  destruct (p && _); [reflexivity|].
  destruct (assoc _ (typeMap s)) as [td|]; [|reflexivity].
  destruct (is_abstract (td_kind td)); reflexivity.
Qed.

Lemma mockField_ordinary (p : bool) (fd : field) (typeName fieldName : string)
    (s : schema) (w : world) :
  is_root_type s typeName = false \/ assoc typeName mockFunctionMap = None ->
  mockField kinds mockFunctionMap p fd typeName fieldName (s, w) =
    (Ok tt,
     (set_field_resolve (assignResolveType p (f_type fd) s) typeName fieldName
        (installed_resolver p fd typeName fieldName), w)).
Proof.
  intros Hc. unfold mockField, installed_resolver.
  unfold bind, modify_schema, get_schema. cbn [fst snd].
  rewrite is_root_type_assignResolveType.
  destruct Hc as [-> | Hc].
  - unfold ret. destruct p; [destruct (f_resolve fd)|]; reflexivity.
  - rewrite Hc. destruct (is_root_type s typeName); unfold ret;
      (destruct p; [destruct (f_resolve fd)|]; reflexivity).
Qed.


(** ** MockList *)


Lemma new_Array_negative (n : Z) (w : world) :
  (n < 0)%Z -> new_Array (inject_Z n) w = (Throw JsRangeError, w).
Proof.
  intros Hn. unfold new_Array. rewrite Qfloor_Z.
  apply Z.leb_gt in Hn. rewrite Hn, andb_false_r. reflexivity.
Qed.






(** C10. The constructor of MockList never looks at [len]: whatever the
    length, construction fails exactly when a second argument is given
    that is not a function, and otherwise yields an instance holding
    [len] as given. A negative length only fails later, when [mock]
    allocates the array. *)
Theorem MockList_constructor_ignores_length (len : mlen) (wrappedFunction : value)
    (w : world) :
  (negb (is_undefined wrappedFunction)
   && negb (is_function (heap w) wrappedFunction) = true ->
   MockList_new len wrappedFunction w =
     (Throw (JsError "Second argument to MockList must be a function or undefined"), w))
  /\ (negb (is_undefined wrappedFunction)
      && negb (is_function (heap w) wrappedFunction) = false ->
      exists o,
        MockList_new len wrappedFunction w =
          (Ok (VRef (length (heap w))),
           {| heap := heap w ++ [o]; draws := draws w |})
        /\ o_kind o = KMockList {| ml_len := len; ml_wrappedFunction := wrappedFunction |})
  /\ (forall (n : Z) (w0 : world),
        (n < 0)%Z ->
        mock_length (LenNumber (inject_Z n)) w0 = (Throw JsRangeError, w0)).
Proof.
  split; [|split].
  - intros Hc. unfold MockList_new, bind, get_world.
    apply andb_true_iff in Hc as [-> ->]. reflexivity.
  - intros Hc. unfold MockList_new, bind, get_world.
    destruct wrappedFunction; cbn [is_undefined negb] in *;
      try (rewrite andb_true_l in Hc; apply negb_false_iff in Hc; rewrite Hc;
           cbn [negb]; unfold alloc; eexists; split; reflexivity).
    unfold alloc. eexists; split; reflexivity.
  - intros n w0 Hn. cbn [mock_length]. now apply new_Array_negative.
Qed.

(** ** Setup *)

Lemma check_registry (m : list (string * value)) (w : world) :
  forEachM check_mockFunction m w =
    match find (fun kv => negb (is_function (heap w) (snd kv))) m with
    | Some kv => (Throw (JsError (not_a_function_message (fst kv))), w)
    | None => (Ok tt, w)
    end.
Proof.
  induction m as [|kv m IH]; [reflexivity|].
  cbn [forEachM find]. unfold bind at 1. unfold check_mockFunction at 1.
  unfold bind, get_world.
  destruct (negb (is_function (heap w) (snd kv))); [reflexivity|].
  unfold ret. exact IH.
Qed.

(** C8. Setup throws when the schema is absent, when the registry
    argument is given and is not an object, and when some registry entry
    is not a function (the first such entry is reported); in each case
    the schema object is returned in the state it was passed in. *)
Theorem setup_validates_before_touching_schema
    (s : schema) (mocks : value) (p : bool) (w : world) :
  addMockFunctionsToSchema None mocks p w =
    (Throw (JsError "Must provide schema to mock"), None, w)
  /\ (is_undefined mocks = false -> isObject mocks = false ->
      addMockFunctionsToSchema (Some s) mocks p w =
        (Throw (JsError "mocks must be of type Object"), Some s, w))
  /\ (forall registry w1 entry,
        is_undefined mocks = false -> isObject mocks = true ->
        build_mockFunctionMap mocks w = (Ok registry, w1) ->
        find (fun kv => negb (is_function (heap w1) (snd kv))) registry = Some entry ->
        addMockFunctionsToSchema (Some s) mocks p w =
          (Throw (JsError (not_a_function_message (fst entry))), Some s, w1)).
Proof.
  split; [reflexivity|]. split.
  - intros Hu Ho. unfold addMockFunctionsToSchema.
    unfold bind at 1. unfold liftW at 1. rewrite Hu. cbn [snd fst]. unfold ret at 1.
    rewrite Ho. reflexivity.
  - intros registry w1 entry Hu Ho Hb Hf. unfold addMockFunctionsToSchema.
    unfold bind at 1. unfold liftW at 1. rewrite Hu. cbn [snd fst]. unfold ret at 1.
    rewrite Ho. cbn [negb].
    unfold bind at 1. unfold liftW at 1. cbn [snd fst]. rewrite Hb.
    unfold bind at 1. unfold liftW at 1. cbn [snd fst].
    rewrite check_registry, Hf. reflexivity.
Qed.


Lemma Put_object (l : loc) (o : object) (k : string) (v : value) (w : world) :
  heap w !! l = Some o ->
  Put (VRef l) k v w = (Ok tt, world_after_put w l o k v).
Proof.
  intros Hl. cbn [Put]. unfold update_props. now rewrite Hl.
Qed.

(** C3 as the code has it. The resolver installed for a root field that
    the root mock defines does not copy the ambient root: when the root is
    an object, the entry is assigned on that very object and [mockType]
    runs on it; only a falsy root is replaced by a fresh empty object. *)
Theorem root_field_resolver_assigns_on_ambient_root
    (rootMock : value) (fd : field) (typeName fieldName : string)
    (args context info : value) :
  (forall (r : loc) (w w1 w2 : world) (mocks entry : value) (o : object),
      call_value rootMock VUndefined [VRef r; args; context; info] w = (Ok mocks, w1) ->
      Get mocks fieldName w1 = (Ok entry, w2) ->
      heap w2 !! r = Some o ->
      rootFieldResolver kinds mockFunctionMap rootMock fd typeName fieldName
        (VRef r) args context info w =
      mockType (f_type fd) (Some typeName) (Some fieldName) (VRef r) args context info
        (world_after_put w2 r o fieldName entry))
  /\ (forall (root : value) (w w1 w2 : world) (mocks entry : value) (o : object),
        truthy root = false ->
        call_value rootMock VUndefined [root; args; context; info]
          (snd (new_object [] w)) = (Ok mocks, w1) ->
        Get mocks fieldName w1 = (Ok entry, w2) ->
        heap w2 !! length (heap w) = Some o ->
        rootFieldResolver kinds mockFunctionMap rootMock fd typeName fieldName
          root args context info w =
        mockType (f_type fd) (Some typeName) (Some fieldName)
          (VRef (length (heap w))) args context info
          (world_after_put w2 (length (heap w)) o fieldName entry)).
Proof.
  split.
  - intros r w w1 w2 mocks entry o Hcall Hget Hr.
    unfold rootFieldResolver. cbn [truthy].
    unfold bind at 1. unfold ret at 1.
    rewrite (bind_Ok _ _ _ _ _ Hcall), (bind_Ok _ _ _ _ _ Hget).
    now rewrite (bind_Ok _ _ _ _ _ (Put_object r o fieldName entry w2 Hr)).
  - intros root w w1 w2 mocks entry o Hroot Hcall Hget Hr.
    unfold rootFieldResolver. rewrite Hroot.
    unfold bind at 1. unfold new_object at 1, alloc at 1.
    unfold new_object, alloc in Hcall. cbn [snd] in Hcall.
    rewrite (bind_Ok _ _ _ _ _ Hcall), (bind_Ok _ _ _ _ _ Hget).
    now rewrite (bind_Ok _ _ _ _ _ (Put_object _ o fieldName entry w2 Hr)).
Qed.

(** ** Object.assign *)

Lemma assign_all_lookup (src : list (string * prop)) (names : list string)
    (ps : list (string * prop)) (k : string) :
  p_value <$> assoc k (fold_left (assign_step src) names ps) =
    match (if existsb (String.eqb k) names then enumerable_value src k else None) with
    | Some v => Some v
    | None => p_value <$> assoc k ps
    end.
Proof.
  revert ps. induction names as [|k0 names IH]; intros ps; [reflexivity|].
  cbn [fold_left existsb]. rewrite IH. clear IH.
  destruct (String.eqb k k0) eqn:E; cbn [orb].
  - apply String.eqb_eq in E. subst k0. unfold assign_step.
    destruct (enumerable_value src k) as [v|] eqn:Ev.
    + rewrite put_value_eq. now destruct (existsb _ names).
    + now destruct (existsb _ names).
  - assert (Hne : k0 <> k) by (intros ->; now rewrite String.eqb_refl in E).
    assert (Hk : assoc k (assign_step src ps k0) = assoc k ps).
    { unfold assign_step. destruct (enumerable_value src k0); [|reflexivity].
      now apply put_value_ne. }
    now rewrite Hk.
Qed.

Lemma existsb_key {A : Type} (k : string) (l : list (string * A)) :
  existsb (String.eqb k) (map fst l) = match assoc k l with Some _ => true | None => false end.
Proof.
  induction l as [|[k' a] l IH]; [reflexivity|]. cbn [map fst existsb assoc].
  rewrite String.eqb_sym. destruct (String.eqb k' k); [reflexivity|exact IH].
Qed.

Lemma assign_all_own_lookup (src ps : list (string * prop)) (k : string) :
  p_value <$> assoc k (fold_left (assign_step src) (map fst src) ps) =
    match enumerable_value src k with
    | Some v => Some v
    | None => p_value <$> assoc k ps
    end.
Proof.
  rewrite assign_all_lookup, existsb_key. unfold enumerable_value.
  now destruct (assoc k src).
Qed.

Lemma assign_all_alias (ps : list (string * prop)) (names : list string) :
  fold_left (assign_step ps) names ps = ps.
Proof.
  induction names as [|k names IH]; [reflexivity|]. cbn [fold_left].
  assert (E : assign_step ps ps k = ps).
  { unfold assign_step, enumerable_value.
    destruct (assoc k ps) as [p|] eqn:Hk; [|reflexivity].
    destruct (p_enumerable p); [|reflexivity]. now apply put_value_same. }
  now rewrite E.
Qed.

Lemma assign_property_step (lg le : loc) (og oe : object) (k : string) (w : world) :
  heap w !! lg = Some og ->
  heap w !! le = Some oe ->
  exists w',
    assign_property (VRef lg) (VRef le) k w = (Ok tt, w')
    /\ heap w' !! lg = Some (with_props og (assign_step (o_props oe) (o_props og) k))
    /\ (forall l, l <> lg -> heap w' !! l = heap w !! l)
    /\ draws w' = draws w.
Proof.
  intros Hg He. unfold assign_property, getOwnPropertyDescriptor.
  unfold bind at 1. unfold bind at 1. cbn [getOwnProperties]. rewrite He.
  unfold ret at 1. unfold assign_step, enumerable_value.
  destruct (assoc k (o_props oe)) as [p|].
  - destruct (p_enumerable p).
    + rewrite (Put_object lg og k (p_value p) w Hg).
      eexists. split; [reflexivity|]. unfold world_after_put. cbn [heap draws].
      split; [|split; [|reflexivity]].
      * apply list_lookup_insert_eq. now apply lookup_lt_Some in Hg.
      * intros l Hl. now apply list_lookup_insert_ne.
    + exists w. unfold ret. repeat split; auto. rewrite Hg. now destruct og.
  - exists w. unfold ret. repeat split; auto. rewrite Hg. now destruct og.
Qed.

Lemma assign_loop (lg le : loc) (names : list string) :
  forall (og oe : object) (w : world),
    heap w !! lg = Some og ->
    heap w !! le = Some oe ->
    lg <> le ->
    exists w',
      forEachM (assign_property (VRef lg) (VRef le)) names w = (Ok tt, w')
      /\ heap w' !! lg =
           Some (with_props og (fold_left (assign_step (o_props oe)) names (o_props og)))
      /\ (forall l, l <> lg -> heap w' !! l = heap w !! l)
      /\ draws w' = draws w.
Proof.
  induction names as [|k names IH]; intros og oe w Hg He Hne.
  - exists w. cbn [forEachM fold_left]. unfold ret. repeat split; auto.
    rewrite Hg. now destruct og.
  - destruct (assign_property_step lg le og oe k w Hg He) as (w1 & E1 & Hg1 & Hfr1 & Hd1).
    assert (He1 : heap w1 !! le = Some oe) by (rewrite Hfr1; auto).
    destruct (IH _ oe w1 Hg1 He1 Hne) as (w2 & E2 & Hg2 & Hfr2 & Hd2).
    exists w2. cbn [forEachM fold_left]. rewrite (bind_Ok _ _ _ _ _ E1).
    split; [exact E2|]. split; [exact Hg2|]. split.
    + intros l Hl. rewrite Hfr2, Hfr1; auto.
    + congruence.
Qed.

Lemma assign_loop_alias (l0 : loc) (names : list string) (o : object) (w : world) :
  heap w !! l0 = Some o ->
  forEachM (assign_property (VRef l0) (VRef l0)) names w = (Ok tt, w).
Proof.
  intros Ho. induction names as [|k names IH]; [reflexivity|].
  cbn [forEachM].
  assert (E : assign_property (VRef l0) (VRef l0) k w = (Ok tt, w)).
  { unfold assign_property, getOwnPropertyDescriptor.
    unfold bind at 1. unfold bind at 1. cbn [getOwnProperties]. rewrite Ho.
    unfold ret at 1.
    destruct (assoc k (o_props o)) as [p|] eqn:Hk; [|reflexivity].
    destruct (p_enumerable p); [|reflexivity].
    rewrite (Put_object l0 o k (p_value p) w Ho). f_equal.
    unfold world_after_put. rewrite (put_value_same k p _ Hk).
    destruct w as [h d]. cbn [heap draws] in *. f_equal.
    apply list_insert_id. now destruct o. }
  now rewrite (bind_Ok _ _ _ _ _ E).
Qed.

(** [Object.assign] on two heap objects: the target receives the own
    enumerable properties of the source and keeps its other properties;
    nothing else changes. *)
Lemma Object_assign_objects (lg le : loc) (og oe : object) (w : world) :
  heap w !! lg = Some og ->
  heap w !! le = Some oe ->
  exists w' og',
    Object_assign (VRef lg) (VRef le) w = (Ok (VRef lg), w')
    /\ heap w' !! lg = Some og'
    /\ (forall k,
          p_value <$> assoc k (o_props og') =
            match enumerable_value (o_props oe) k with
            | Some v => Some v
            | None => p_value <$> assoc k (o_props og)
            end)
    /\ (forall l, l <> lg -> heap w' !! l = heap w !! l)
    /\ draws w' = draws w.
Proof.
  intros Hg He. cbn [Object_assign].
  unfold bind at 1. cbn [assign_source_names]. rewrite He.
  destruct (decide (lg = le)) as [<-|Hne].
  - assert (oe = og) by congruence. subst oe.
    rewrite (bind_Ok _ _ _ _ _ (assign_loop_alias lg _ og w Hg)).
    exists w, og. unfold ret. repeat split; auto.
    intros k. unfold enumerable_value.
    destruct (assoc k (o_props og)) as [p|]; [|reflexivity].
    now destruct (p_enumerable p).
  - destruct (assign_loop lg le (map fst (o_props oe)) og oe w Hg He Hne)
      as (w' & E & Hg' & Hfr & Hd).
    rewrite (bind_Ok _ _ _ _ _ E).
    exists w', (with_props og (fold_left (assign_step (o_props oe))
                                (map fst (o_props oe)) (o_props og))).
    unfold ret. repeat split; auto.
    intros k. cbn [with_props o_props]. apply assign_all_own_lookup.
Qed.

(** ** Merging an existing value with the registry mock *)

Lemma getNamedType_nullable (type : gtype) :
  getNamedType (getNullableType type) = getNamedType type.
Proof. now destruct type. Qed.

Lemma mergeMocks_scalar (generic : M value) (customMock : value) (w : world) :
  isObject customMock = false -> isArray customMock = false ->
  mergeMocks generic customMock w = (Ok customMock, w).
Proof. destruct customMock; cbn; intros; try discriminate; reflexivity. Qed.

Lemma mergeMocks_array (generic : M value) (els : list value) :
  mergeMocks generic (VArr els) =
    (xs <- mapM (mergeMocks generic) els ;; ret (VArr xs)).
Proof. reflexivity. Qed.

Lemma mergeMocks_object (generic : M value) (l : loc) :
  mergeMocks generic (VRef l) = (g <- generic ;; Object_assign g (VRef l)).
Proof. reflexivity. Qed.

Lemma mockType_existing (type : gtype) (typeName fieldName : option string)
    (root args context info rootField mockFunction : value) (w : world) :
  truthy root = true ->
  Get root (field_key fieldName) w = (Ok rootField, w) ->
  is_undefined rootField = false ->
  assoc (getNamedType type) mockFunctionMap = Some mockFunction ->
  mockType type typeName fieldName root args context info w =
    (result <- existing_value
                 (MockList_mock (fun ofType => mockType ofType None None)
                    (mockType_undefined kinds mockFunctionMap) (getNullableType type))
                 rootField root args context info ;;
     mergeMocks (call_value mockFunction VNull [root; args; context; info]) result) w.
Proof.
  intros Hroot Hget Hdef Hreg. rewrite mockType_unfold. unfold mockType_body.
  rewrite Hroot. rewrite (bind_Ok _ _ _ _ _ Hget). rewrite Hdef. cbn [negb].
  cbn [option_map registry_entry]. rewrite getNamedType_nullable, Hreg. reflexivity.
Qed.

(** C1. When the root is truthy, [root[fieldName]] is defined and the
    registry has an entry for the field's named type, the resolver merges
    the existing value with the mock of the registry: a scalar is
    returned as it is and the registry function is not run; an array is
    merged element by element; for an object, the object returned by the
    registry function receives every own enumerable property of the
    existing value and keeps its other properties, and is the result. *)
Theorem existing_value_merged_with_registry_mock
    (type : gtype) (typeName fieldName : option string)
    (root args context info rootField mockFunction : value) (w : world) :
  truthy root = true ->
  Get root (field_key fieldName) w = (Ok rootField, w) ->
  is_undefined rootField = false ->
  assoc (getNamedType type) mockFunctionMap = Some mockFunction ->
  let generic := call_value mockFunction VNull [root; args; context; info] in
  let existing :=
    existing_value
      (MockList_mock (fun ofType => mockType ofType None None)
         (mockType_undefined kinds mockFunctionMap) (getNullableType type))
      rootField root args context info in
  forall (result : value) (w1 : world),
    existing w = (Ok result, w1) ->
    (isObject result = false -> isArray result = false ->
     mockType type typeName fieldName root args context info w = (Ok result, w1))
    /\ (forall els,
          result = VArr els ->
          mockType type typeName fieldName root args context info w =
            (xs <- mapM (mergeMocks generic) els ;; ret (VArr xs)) w1
          /\ forall v w2,
              mockType type typeName fieldName root args context info w = (Ok v, w2) ->
              exists xs,
                v = VArr xs
                /\ Forall2 (fun el x =>
                              exists wa wb, mergeMocks generic el wa = (Ok x, wb))
                     els xs)
    /\ (forall le lg oe og w2,
          result = VRef le ->
          generic w1 = (Ok (VRef lg), w2) ->
          heap w2 !! le = Some oe ->
          heap w2 !! lg = Some og ->
          exists w3 og',
            mockType type typeName fieldName root args context info w =
              (Ok (VRef lg), w3)
            /\ heap w3 !! lg = Some og'
            /\ (forall k,
                  p_value <$> assoc k (o_props og') =
                    match enumerable_value (o_props oe) k with
                    | Some v => Some v
                    | None => p_value <$> assoc k (o_props og)
                    end)
            /\ (forall l, l <> lg -> heap w3 !! l = heap w2 !! l)).
Proof.
  intros Hroot Hget Hdef Hreg generic existing result w1 Hex.
  pose proof (mockType_existing type typeName fieldName root args context info
                rootField mockFunction w Hroot Hget Hdef Hreg) as E.
  fold generic in E. fold existing in E.
  rewrite (bind_Ok _ _ _ _ _ Hex) in E.
  split; [|split].
  - intros Ho Ha. rewrite E. now apply mergeMocks_scalar.
  - intros els ->. rewrite E, mergeMocks_array. split; [reflexivity|].
    intros v w2. unfold bind at 1.
    destruct (mapM (mergeMocks generic) els w1) as [[xs| |] wm] eqn:Em; try discriminate.
    unfold ret. intros [= <- _]. exists xs. split; [reflexivity|].
    eapply mapM_elementwise; exact Em.
  - intros le lg oe og w2 -> Hg Hle Hlg.
    rewrite E, mergeMocks_object. rewrite (bind_Ok _ _ _ _ _ Hg).
    destruct (Object_assign_objects lg le og oe w2 Hlg Hle)
      as (w3 & og' & Ea & Hg' & Hk & Hfr & _).
    exists w3, og'. auto.
Qed.

(** ** copyOwnProps *)

Lemma proto_chain_is_chain (h : list object) (fuel : nat) :
  forall (l : loc) (chain : list object),
    proto_chain h fuel l = Some chain ->
    is_chain h l chain /\ length chain <= fuel.
Proof.
  induction fuel as [|fuel IH]; intros l chain; cbn [proto_chain]; [discriminate|].
  destruct (h !! l) as [o|] eqn:Hl; [|discriminate].
  destruct (o_proto o) as [l'|] eqn:Hp.
  - destruct (proto_chain h fuel l') as [c|] eqn:Hc; [|discriminate].
    cbn [option_map]. intros [= <-]. destruct (IH l' c Hc) as [Hch Hlen].
    split; [exact (chain_link h l l' o c Hl Hp Hch)|]. cbn [length]. lia.
  - intros [= <-]. split; [exact (chain_end h l o Hl Hp)|]. cbn [length]. lia.
Qed.

Lemma find_property_chain (h : list object) (k : string) (l : loc)
    (chain : list object) (fuel : nat) :
  is_chain h l chain -> length chain <= fuel ->
  find_property h fuel l k = Some (chain_lookup chain k).
Proof.
  intros Hch. revert fuel. induction Hch as [l o Hl Hp | l l' o chain Hl Hp Hch IH];
    intros fuel Hlen; (destruct fuel as [|fuel]; [cbn [length] in Hlen; lia|]);
    cbn [find_property chain_lookup]; rewrite Hl, Hp.
  - now destruct (assoc k (o_props o)).
  - destruct (assoc k (o_props o)); [reflexivity|].
    apply IH. cbn [length] in Hlen. lia.
Qed.

Lemma copy_all_lookup (src : list (string * prop)) (names : list string)
    (tp : list (string * prop)) (k : string) :
  assoc k (fold_left (copy_step src) names tp) =
    match assoc k tp with
    | Some p => Some p
    | None => if existsb (String.eqb k) names then assoc k src else None
    end.
Proof.
  revert tp. induction names as [|k0 names IH]; intros tp.
  - cbn. now destruct (assoc k tp).
  - cbn [fold_left existsb]. rewrite IH. clear IH.
    destruct (String.eqb k k0) eqn:E; cbn [orb].
    + apply String.eqb_eq in E. subst k0. unfold copy_step.
      destruct (assoc k tp) as [p|] eqn:Hk; [now rewrite Hk|].
      destruct (assoc k src) as [d|] eqn:Hs.
      * now rewrite assoc_set_eq.
      * rewrite Hk. now destruct (existsb _ names).
    + assert (Hne : k0 <> k) by (intros ->; now rewrite String.eqb_refl in E).
      assert (Hk : assoc k (copy_step src tp k0) = assoc k tp).
      { unfold copy_step. destruct (assoc k0 tp); [reflexivity|].
        destruct (assoc k0 src); [|reflexivity]. now apply assoc_set_ne. }
      now rewrite Hk.
Qed.

Lemma copy_property_loop (t l : loc) (os : object) (names : list (string * prop)) :
  forall (ot : object) (w : world),
    heap w !! t = Some ot ->
    heap w !! l = Some os ->
    t <> l ->
    Forall (fun np => assoc (fst np) (o_props os) <> None) names ->
    exists w',
      forEachM
        (fun np =>
           present <- getOwnPropertyDescriptor (VRef t) (fst np) ;;
           match present with
           | Some _ => ret tt
           | None =>
               desc <- getOwnPropertyDescriptor (VRef l) (fst np) ;;
               match desc with
               | Some d => defineProperty (VRef t) (fst np) d
               | None => throw JsTypeError
               end
           end)
        names w = (Ok tt, w')
      /\ heap w' !! t =
           Some (with_props ot
                   (fold_left (copy_step (o_props os)) (map fst names) (o_props ot)))
      /\ (forall l0, l0 <> t -> heap w' !! l0 = heap w !! l0)
      /\ draws w' = draws w
      /\ length (heap w') = length (heap w).
Proof.
  induction names as [|[k p] names IH]; intros ot w Ht Hl Hne Hall.
  - exists w. cbn [forEachM map fold_left]. unfold ret. repeat split; auto.
    rewrite Ht. now destruct ot.
  - apply Forall_cons in Hall as [Hk Hall]. cbn [fst] in Hk.
    cbn [forEachM map fold_left fst].
    unfold bind at 1. unfold bind at 1. unfold getOwnPropertyDescriptor at 1.
    unfold bind at 1. cbn [getOwnProperties]. rewrite Ht. unfold ret at 1.
    unfold copy_step at 2.
    destruct (assoc k (o_props ot)) as [q|] eqn:Hq.
    + unfold ret at 1. apply IH; auto.
    + unfold bind at 1. unfold getOwnPropertyDescriptor at 1.
      unfold bind at 1. cbn [getOwnProperties]. rewrite Hl. unfold ret at 1.
      destruct (assoc k (o_props os)) as [d|] eqn:Hd; [|contradiction].
      cbn [defineProperty]. unfold update_props. rewrite Ht.
      set (w1 := {| heap := <[t := _]> (heap w); draws := draws w |}).
      assert (Ht1 : heap w1 !! t = Some (with_props ot (assoc_set k d (o_props ot)))).
      { unfold w1. cbn [heap]. apply list_lookup_insert_eq. now apply lookup_lt_Some in Ht. }
      assert (Hfr1 : forall l0, l0 <> t -> heap w1 !! l0 = heap w !! l0).
      { intros l0 Hl0. unfold w1. cbn [heap]. now apply list_lookup_insert_ne. }
      assert (Hl1 : heap w1 !! l = Some os) by (rewrite Hfr1; auto).
      destruct (IH _ w1 Ht1 Hl1 Hne Hall) as (w' & E & Ht' & Hfr' & Hd' & Hlen').
      exists w'. split; [exact E|]. split; [exact Ht'|]. split; [|split].
      * intros l0 Hl0. rewrite Hfr', Hfr1; auto.
      * rewrite Hd'. reflexivity.
      * rewrite Hlen'. unfold w1. cbn [heap]. apply length_insert.
Qed.

Lemma assoc_In {A : Type} (k : string) (a : A) (l : list (string * A)) :
  In (k, a) l -> assoc k l <> None.
Proof.
  induction l as [|[k' a'] l IH]; cbn [In assoc]; [tauto|].
  intros [E | Hin].
  - injection E as -> ->. now rewrite String.eqb_refl.
  - destruct (String.eqb k' k); [discriminate|auto].
Qed.

Lemma copyOwnPropsIfNotPresent_objects (t l : loc) (ot os : object) (w : world) :
  heap w !! t = Some ot ->
  heap w !! l = Some os ->
  t <> l ->
  exists w' ot',
    copyOwnPropsIfNotPresent (VRef t) (VRef l) w = (Ok tt, w')
    /\ heap w' !! t = Some ot'
    /\ (forall k,
          assoc k (o_props ot') =
            match assoc k (o_props ot) with
            | Some p => Some p
            | None => assoc k (o_props os)
            end)
    /\ (forall l0, l0 <> t -> heap w' !! l0 = heap w !! l0)
    /\ draws w' = draws w
    /\ length (heap w') = length (heap w).
Proof.
  intros Ht Hl Hne. unfold copyOwnPropsIfNotPresent.
  unfold bind at 1. cbn [getOwnProperties]. rewrite Hl.
  assert (Hall : Forall (fun np => assoc (fst np) (o_props os) <> None) (o_props os)).
  { apply Forall_forall. intros [k p] Hin. cbn [fst].
    apply list_elem_of_In in Hin. now apply assoc_In in Hin. }
  destruct (copy_property_loop t l os (o_props os) ot w Ht Hl Hne Hall)
    as (w' & E & Ht' & Hfr & Hd & Hlen).
  exists w', (with_props ot (fold_left (copy_step (o_props os))
                               (map fst (o_props os)) (o_props ot))).
  split; [exact E|]. split; [exact Ht'|]. split; [|auto].
  intros k. cbn [with_props o_props]. rewrite copy_all_lookup, existsb_key.
  destruct (assoc k (o_props ot)); [reflexivity|].
  now destruct (assoc k (o_props os)).
Qed.

Lemma copy_chain_objects (h : list object) (t : loc) (l : loc) (chain : list object) :
  is_chain h l chain ->
  forall (fuel : nat) (ot : object) (w : world),
    length chain <= fuel ->
    h !! t = None ->
    heap w !! t = Some ot ->
    (forall l0 o, h !! l0 = Some o -> heap w !! l0 = Some o) ->
    exists w' ot',
      copy_chain fuel (VRef t) (VRef l) w = (Ok tt, w')
      /\ heap w' !! t = Some ot'
      /\ (forall k,
            assoc k (o_props ot') =
              match assoc k (o_props ot) with
              | Some p => Some p
              | None => chain_lookup chain k
              end)
      /\ (forall l0, l0 <> t -> heap w' !! l0 = heap w !! l0)
      /\ draws w' = draws w
      /\ length (heap w') = length (heap w).
Proof.
  induction 1 as [l o Hl Hp | l l' o chain Hl Hp Hch IH];
    intros fuel ot w Hlen Hout Ht Hemb;
    (destruct fuel as [|fuel]; [cbn [length] in Hlen; lia|]);
    assert (Hne : t <> l) by (intros ->; congruence);
    destruct (copyOwnPropsIfNotPresent_objects t l ot o w Ht (Hemb _ _ Hl) Hne)
      as (w1 & ot1 & E1 & Ht1 & Hk1 & Hfr1 & Hd1 & Hlen1);
    assert (Hl1 : heap w1 !! l = Some o) by (rewrite Hfr1; auto);
    cbn [copy_chain truthy]; rewrite (bind_Ok _ _ _ _ _ E1);
    unfold bind at 1; cbn [getPrototypeOf]; rewrite Hl1, Hp.
  - exists w1, ot1.
    split; [destruct fuel; reflexivity|]. split; [exact Ht1|]. split; [|auto].
    intros k. rewrite Hk1. cbn [chain_lookup].
    destruct (assoc k (o_props ot)); [reflexivity|].
    now destruct (assoc k (o_props o)).
  - assert (Hemb1 : forall l0 o0, h !! l0 = Some o0 -> heap w1 !! l0 = Some o0).
    { intros l0 o0 H0. rewrite Hfr1; [auto|]. intros ->. congruence. }
    cbn [length] in Hlen.
    destruct (IH fuel ot1 w1 ltac:(lia) Hout Ht1 Hemb1)
      as (w2 & ot2 & E2 & Ht2 & Hk2 & Hfr2 & Hd2 & Hlen2).
    exists w2, ot2. split; [exact E2|]. split; [exact Ht2|].
    split; [|split; [|split]].
    + intros k. rewrite Hk2, Hk1. cbn [chain_lookup].
      destruct (assoc k (o_props ot)); [reflexivity|].
      now destruct (assoc k (o_props o)).
    + intros l0 Hl0. rewrite Hfr2, Hfr1; auto.
    + congruence.
    + congruence.
Qed.

Lemma settle_settled :
  forall (v x : value), settle v = Fulfilled x -> settle x = Fulfilled x.
Proof.
  fix IH 1. intros v x. destruct v as [| | b | q | s | els | l | n | p];
    try (cbn [settle]; intros [= <-]; reflexivity).
  destruct p as [v' | e |]; cbn [settle]; [apply IH | discriminate | discriminate].
Qed.

(** The continuation of preserve mode on two heap objects: a fresh
    object receives, for every key, the first property found along the
    chain of the real value and, failing that, along the chain of the
    mocked value. *)
Lemma mergeResolved_objects (lm lr : loc) (cm cr : list object) (w : world) :
  proto_chain (heap w) (length (heap w)) lm = Some cm ->
  proto_chain (heap w) (length (heap w)) lr = Some cr ->
  exists w' target,
    mergeResolved (VRef lm) (VRef lr) w = (Ok (VRef (length (heap w))), w')
    /\ heap w' !! length (heap w) = Some target
    /\ (forall k,
          assoc k (o_props target) =
            match chain_lookup cr k with
            | Some p => Some p
            | None => chain_lookup cm k
            end)
    /\ (forall l0, l0 < length (heap w) -> heap w' !! l0 = heap w !! l0)
    /\ draws w' = draws w.
Proof.
  intros Hm Hr.
  apply proto_chain_is_chain in Hm as [Hm Hlm], Hr as [Hr Hlr].
  set (h := heap w) in *. set (t := length h).
  unfold mergeResolved. cbn [isObject andb].
  unfold bind at 1. unfold new_object at 1, alloc at 1. cbn [map]. fold h. fold t.
  set (o0 := {| o_props := []; o_proto := Some ObjectPrototype; o_kind := KObject |}).
  set (w0 := {| heap := h ++ [o0]; draws := draws w |}).
  assert (Hout : h !! t = None) by (apply lookup_ge_None; unfold t; lia).
  assert (Ht0 : heap w0 !! t = Some o0).
  { unfold w0, t. cbn [heap]. rewrite lookup_app_r by lia.
    now rewrite Nat.sub_diag. }
  assert (Hemb0 : forall l0 o, h !! l0 = Some o -> heap w0 !! l0 = Some o).
  { intros l0 o H0. unfold w0. cbn [heap]. now apply lookup_app_l_Some. }
  assert (Hf : length cr <= S (length (heap w0)) /\ length cm <= S (length (heap w0))).
  { unfold w0. cbn [heap]. rewrite length_app. cbn [length]. fold t. unfold t in *. lia. }
  destruct Hf as [Hfr Hfm].
  destruct (copy_chain_objects h t lr cr Hr _ o0 w0 Hfr Hout Ht0 Hemb0)
    as (w1 & o1 & E1 & Ht1 & Hk1 & Hfr1 & Hd1 & Hlen1).
  assert (Hemb1 : forall l0 o, h !! l0 = Some o -> heap w1 !! l0 = Some o).
  { intros l0 o H0. rewrite Hfr1; [auto|]. intros ->. congruence. }
  rewrite <- Hlen1 in Hfm.
  destruct (copy_chain_objects h t lm cm Hm _ o1 w1 Hfm Hout Ht1 Hemb1)
    as (w2 & o2 & E2 & Ht2 & Hk2 & Hfr2 & Hd2 & Hlen2).
  exists w2, o2. split.
  - unfold copyOwnProps. cbn [forEachM].
    unfold bind at 1. unfold bind at 1. unfold bind at 1. unfold get_world at 1.
    rewrite E1. unfold bind at 1. unfold bind at 1. unfold get_world at 1.
    rewrite E2. reflexivity.
  - split; [exact Ht2|]. split; [|split].
    + intros k. rewrite Hk2, Hk1. cbn [o0 o_props assoc].
      now destruct (chain_lookup cr k).
    + intros l0 Hl0. rewrite Hfr2, Hfr1 by (unfold t; lia).
      unfold w0. cbn [heap]. now apply lookup_app_l.
    + rewrite Hd2, Hd1. reflexivity.
Qed.

Lemma mockField_preserve_installs_composition (fd : field)
    (typeName fieldName : string) (oldResolver : resolver)
    (s s' : schema) (w w' : world) :
  f_resolve fd = Some oldResolver ->
  mockField kinds mockFunctionMap true fd typeName fieldName (s, w) = (Ok tt, (s', w')) ->
  exists mockResolver,
    s' = set_field_resolve (assignResolveType true (f_type fd) s) typeName fieldName
           (preservingResolver mockResolver oldResolver).
Proof.
  intros Hold. unfold mockField.
  unfold bind at 1. unfold modify_schema at 1. cbn [fst snd].
  unfold bind at 1. unfold get_schema at 1. cbn [fst snd].
  rewrite is_root_type_assignResolveType. rewrite Hold.
  unfold bind at 1.
  destruct (is_root_type s typeName).
  - destruct (assoc typeName mockFunctionMap) as [rootMock|].
    + unfold bind at 1. unfold liftW. cbn [fst snd].
      destruct (probe_root_mock rootMock fieldName w) as [[entry| |] w1]; try discriminate.
      destruct (truthy entry); unfold ret, modify_schema; cbn [fst snd];
        intros [= <- <-]; eexists; reflexivity.
    + unfold ret, modify_schema; cbn [fst snd]. intros [= <- <-]. eexists; reflexivity.
  - unfold ret, modify_schema; cbn [fst snd]. intros [= <- <-]. eexists; reflexivity.
Qed.

(** C2. In preserve mode a field that has a resolver gets the composed
    resolver. The composed resolver runs the mock and the real resolver
    and waits for both values. When one of the two is not an object, its
    promise is fulfilled with the real value unless that value is
    [undefined], in which case it is fulfilled with the mocked value.
    When both are objects, it is fulfilled with a fresh object that has,
    for every key, the property the real value has on itself or along its
    prototype chain, enumerable or not, and otherwise the property the
    mocked value has on itself or along its chain. *)
Theorem preserve_mode_real_value_over_mock
    (mockResolver oldResolver : resolver) (rootObject args context info : value)
    (w w1 w2 : world) (mocked resolved mockedValue resolvedValue : value) :
  mockResolver rootObject args context info w = (Ok mocked, w1) ->
  oldResolver rootObject args context info w1 = (Ok resolved, w2) ->
  settle mocked = Fulfilled mockedValue ->
  settle resolved = Fulfilled resolvedValue ->
  (forall fd typeName fieldName s s' w0 w0',
      f_resolve fd = Some oldResolver ->
      mockField kinds mockFunctionMap true fd typeName fieldName (s, w0)
        = (Ok tt, (s', w0')) ->
      exists mockResolver',
        s' = set_field_resolve (assignResolveType true (f_type fd) s) typeName fieldName
               (preservingResolver mockResolver' oldResolver))
  /\ (isObject mockedValue && isObject resolvedValue = false ->
      preservingResolver mockResolver oldResolver rootObject args context info w =
        (Ok (VPromise (Fulfilled (if is_undefined resolvedValue
                                  then mockedValue else resolvedValue))), w2))
  /\ (forall lm lr cm cr,
        mockedValue = VRef lm ->
        resolvedValue = VRef lr ->
        proto_chain (heap w2) (length (heap w2)) lm = Some cm ->
        proto_chain (heap w2) (length (heap w2)) lr = Some cr ->
        exists w3 target,
          preservingResolver mockResolver oldResolver rootObject args context info w =
            (Ok (VPromise (Fulfilled (VRef (length (heap w2))))), w3)
          /\ heap w3 !! length (heap w2) = Some target
          /\ (forall k,
                assoc k (o_props target) =
                  match find_property (heap w2) (S (length (heap w2))) lr k with
                  | Some (Some p) => Some p
                  | _ =>
                      match find_property (heap w2) (S (length (heap w2))) lm k with
                      | Some (Some p) => Some p
                      | _ => None
                      end
                  end)
          /\ (forall l0, l0 < length (heap w2) -> heap w3 !! l0 = heap w2 !! l0)).
Proof.
  intros Hmock Hreal Hsm Hsr.
  assert (E : preservingResolver mockResolver oldResolver rootObject args context info w =
              match mergeResolved mockedValue resolvedValue w2 with
              | (Ok v, w') => (Ok (VPromise (settle v)), w')
              | (Throw e, w') => (Ok (VPromise (Rejected e)), w')
              | (Stuck, w') => (Stuck, w')
              end).
  { unfold preservingResolver.
    rewrite (bind_Ok _ _ _ _ _ Hmock), (bind_Ok _ _ _ _ _ Hreal).
    unfold Promise_all2. now rewrite Hsm, Hsr. }
  split; [|split].
  - intros fd typeName fieldName s s' w0 w0' Hold Hrun.
    eapply mockField_preserve_installs_composition; eauto.
  - intros Hno. rewrite E. unfold mergeResolved. rewrite Hno. unfold ret.
    destruct (is_undefined resolvedValue) eqn:Hu; cbn [negb].
    + now rewrite (settle_settled _ _ Hsm).
    + now rewrite (settle_settled _ _ Hsr).
  - intros lm lr cm cr -> -> Hcm Hcr.
    destruct (mergeResolved_objects lm lr cm cr w2 Hcm Hcr)
      as (w3 & target & Em & Ht & Hk & Hfr & _).
    exists w3, target. rewrite E, Em. cbn [settle].
    split; [reflexivity|]. split; [exact Ht|]. split; [|exact Hfr].
    intros k. rewrite Hk.
    apply proto_chain_is_chain in Hcm as [Hcm Hlm], Hcr as [Hcr Hlr].
    rewrite (find_property_chain _ k lr cr _ Hcr) by lia.
    rewrite (find_property_chain _ k lm cm _ Hcm) by lia.
    destruct (chain_lookup cr k); [reflexivity|].
    now destruct (chain_lookup cm k).
Qed.

(** ** Abstract-type resolvers after setup *)











End Properties.

Section SetupProperties.
Context `{Host}.

Lemma setup_runs_visits (s s' : schema) (mocks : value) (p : bool) (w w' : world) :
  addMockFunctionsToSchema (Some s) mocks p w = (Ok tt, Some s', w') ->
  exists registry w0,
    forEachM (visit (kinds_of s) registry p) (fields_to_visit s) (s, w0)
    = (Ok tt, (s', w')).
Proof.
  unfold addMockFunctionsToSchema.
  unfold bind at 1. unfold liftW at 1. cbn [fst snd].
  destruct ((if is_undefined mocks then new_object [] else ret mocks) w)
    as [[m| |] w1]; try discriminate.
  destruct (negb (isObject m)); [discriminate|].
  unfold bind at 1. unfold liftW at 1. cbn [fst snd].
  destruct (build_mockFunctionMap m w1) as [[registry| |] w2]; try discriminate.
  unfold bind at 1. unfold liftW at 1. cbn [fst snd].
  destruct (forEachM check_mockFunction registry w2) as [[[]| |] w3]; try discriminate.
  unfold forEachField. unfold bind at 1. unfold get_schema at 1. cbn [fst snd].
  intros Hrun. exists registry, w3.
  change (forEachM (visit (kinds_of s) registry p) (fields_to_visit s) (s, w3))
    with (forEachM
            (fun tf => s0 <- get_schema ;;
               match lookup_field s0 (fst tf) (snd tf) with
               | Some fd => mockField (kinds_of s) registry p fd (fst tf) (snd tf)
               | None => stuck
               end) (fields_to_visit s) (s, w3)).
  destruct (forEachM _ (fields_to_visit s) (s, w3)) as [o [s2 w4]].
  now injection Hrun as -> -> ->.
Qed.

End SetupProperties.

(** * The statements on the scenarios *)

(** The scenario of C6: a list of [Int] on a root that is [undefined]. *)
Lemma default_list_has_two_independent_elements_witness :
  getNullableType (TList (TNamed "Int")) = TList (TNamed "Int")
  /\ no_existing_value VUndefined (Some "returnListOfInt") scenario_world
  /\ fst (mockType (H := scenario_host) scenario_kinds [] (TList (TNamed "Int"))
            (Some "RootQuery") (Some "returnListOfInt")
            VUndefined VUndefined VUndefined VUndefined scenario_world)
     = Ok (VArr [VNum 0; VNum (-50)]).
Proof.
  split; [reflexivity|]. split; [left; reflexivity|].
  destruct (default_list_has_two_independent_elements (H := scenario_host)
              scenario_kinds [] (TList (TNamed "Int")) (TNamed "Int")
              (Some "RootQuery") (Some "returnListOfInt")
              VUndefined VUndefined VUndefined VUndefined scenario_world
              eq_refl (or_introl eq_refl)) as [_ [Hrun _]].
  rewrite (Hrun _ _ _ _ eq_refl eq_refl). reflexivity.
Defined.



(** The scenario of C10: a negative length is accepted by the
    constructor and refused by [mock]; a second argument that is not a
    function is refused by the constructor. *)
Lemma MockList_constructor_ignores_length_witness :
  fst (MockList_new (LenNumber (-1)) VUndefined scenario_world) = Ok (VRef 13)
  /\ MockList_new (LenNumber (-1)) (VNum 33) scenario_world
     = (Throw (JsError "Second argument to MockList must be a function or undefined"),
        scenario_world)
  /\ mock_length (LenNumber (-1)) scenario_world = (Throw JsRangeError, scenario_world).
Proof.
  split; [|split].
  - destruct (MockList_constructor_ignores_length (LenNumber (-1)) VUndefined
                scenario_world) as [_ [Hok _]].
    destruct (Hok eq_refl) as [o [E _]]. rewrite E. reflexivity.
  - destruct (MockList_constructor_ignores_length (LenNumber (-1)) (VNum 33)
                scenario_world) as [Hthrow _].
    exact (Hthrow eq_refl).
  - destruct (MockList_constructor_ignores_length (LenNumber (-1)) VUndefined
                scenario_world) as [_ [_ Hlate]].
    exact (Hlate (-1)%Z scenario_world ltac:(lia)).
Defined.

(** The scenario of C8: an array as registry, and a registry whose entry
    [Int] is the number 5. *)
Lemma setup_validates_before_touching_schema_witness :
  addMockFunctionsToSchema (H := scenario_host) (Some scenario_schema)
    (VArr [VStr "a"]) false scenario_world
  = (Throw (JsError "mocks must be of type Object"), Some scenario_schema, scenario_world)
  /\ addMockFunctionsToSchema (H := scenario_host) (Some scenario_schema)
       (VRef 12) false scenario_world
     = (Throw (JsError "mockFunctionMap[Int] must be a function"),
        Some scenario_schema, scenario_world).
Proof.
  split.
  - destruct (setup_validates_before_touching_schema (H := scenario_host)
                scenario_schema (VArr [VStr "a"]) false scenario_world) as [_ [Hmocks _]].
    exact (Hmocks eq_refl eq_refl).
  - destruct (setup_validates_before_touching_schema (H := scenario_host)
                scenario_schema (VRef 12) false scenario_world) as [_ [_ Hentry]].
    exact (Hentry [("Bird", VRef 3); ("Int", VNum 5)] scenario_world ("Int", VNum 5)
             eq_refl eq_refl eq_refl eq_refl).
Defined.


(** The scenario of C1: the root at 8 has the fields [bird] (an object),
    [count] (a number) and [flock] (an array); the registry has a
    function for [Bird]. *)
Lemma existing_value_merged_with_registry_mock_witness :
  (exists w3 og',
      mockType (H := scenario_host) scenario_kinds scenario_registry
        (TNamed "Bird") (Some "RootQuery") (Some "bird")
        (VRef 8) VUndefined VUndefined VUndefined scenario_world = (Ok (VRef 13), w3)
      /\ heap w3 !! 13 = Some og'
      /\ p_value <$> assoc "returnInt" (o_props og') = Some (VNum 54321)
      /\ p_value <$> assoc "returnString" (o_props og') = Some (VStr "woot!?"))
  /\ mockType (H := scenario_host) scenario_kinds scenario_registry
       (TNamed "Bird") (Some "RootQuery") (Some "count")
       (VRef 8) VUndefined VUndefined VUndefined scenario_world
     = (Ok (VNum 54321), scenario_world)
  /\ fst (mockType (H := scenario_host) scenario_kinds scenario_registry
            (TList (TNamed "Bird")) (Some "RootQuery") (Some "flock")
            (VRef 8) VUndefined VUndefined VUndefined scenario_world)
     = Ok (VArr [VRef 13; VNum 7]).
Proof.
  split; [|split].
  - destruct (existing_value_merged_with_registry_mock (H := scenario_host)
                scenario_kinds scenario_registry (TNamed "Bird")
                (Some "RootQuery") (Some "bird")
                (VRef 8) VUndefined VUndefined VUndefined (VRef 9) (VRef 3)
                scenario_world eq_refl eq_refl eq_refl eq_refl
                (VRef 9) scenario_world eq_refl) as [_ [_ Hobj]].
    destruct (Hobj 9 13 _ _ _ eq_refl eq_refl eq_refl eq_refl)
      as (w3 & og' & E & Hh & Hk & _).
    exists w3, og'. split; [exact E|]. split; [exact Hh|].
    split; rewrite Hk; reflexivity.
  - destruct (existing_value_merged_with_registry_mock (H := scenario_host)
                scenario_kinds scenario_registry (TNamed "Bird")
                (Some "RootQuery") (Some "count")
                (VRef 8) VUndefined VUndefined VUndefined (VNum 54321) (VRef 3)
                scenario_world eq_refl eq_refl eq_refl eq_refl
                (VNum 54321) scenario_world eq_refl) as [Hscalar _].
    exact (Hscalar eq_refl eq_refl).
  - destruct (existing_value_merged_with_registry_mock (H := scenario_host)
                scenario_kinds scenario_registry (TList (TNamed "Bird"))
                (Some "RootQuery") (Some "flock")
                (VRef 8) VUndefined VUndefined VUndefined
                (VArr [VRef 9; VNum 7]) (VRef 3)
                scenario_world eq_refl eq_refl eq_refl eq_refl
                (VArr [VRef 9; VNum 7]) scenario_world eq_refl) as [_ [Harr _]].
    destruct (Harr _ eq_refl) as [E _]. rewrite E. reflexivity.
Defined.

(** The scenario of C2: the mock yields [{returnInt: 3, returnString:
    'woot!?'}]; the real resolver yields an object whose [returnInt] is
    12 and not enumerable, or [null]. *)
Lemma preserve_mode_real_value_over_mock_witness :
  (exists w3 target,
      preservingResolver scenario_mock_resolver scenario_real_resolver
        VUndefined VUndefined VUndefined VUndefined scenario_world
      = (Ok (VPromise (Fulfilled (VRef 15))), w3)
      /\ heap w3 !! 15 = Some target
      /\ assoc "returnInt" (o_props target)
         = Some {| p_value := VNum 12; p_enumerable := false |}
      /\ assoc "returnString" (o_props target)
         = Some {| p_value := VStr "woot!?"; p_enumerable := true |}
      /\ assoc "toString" (o_props target)
         = Some {| p_value := VRef 2; p_enumerable := false |})
  /\ fst (preservingResolver scenario_mock_resolver scenario_null_resolver
            VUndefined VUndefined VUndefined VUndefined scenario_world)
     = Ok (VPromise (Fulfilled VNull)).
Proof.
  split.
  - destruct (preserve_mode_real_value_over_mock (H := scenario_host)
                scenario_kinds scenario_registry
                scenario_mock_resolver scenario_real_resolver
                VUndefined VUndefined VUndefined VUndefined
                scenario_world _ _ (VRef 13) (VRef 14) (VRef 13) (VRef 14)
                eq_refl eq_refl eq_refl eq_refl) as [_ [_ Hobj]].
    destruct (Hobj 13 14 _ _ eq_refl eq_refl eq_refl eq_refl)
      as (w3 & target & E & Hh & Hk & _).
    exists w3, target. split; [exact E|]. split; [exact Hh|].
    repeat split; rewrite Hk; reflexivity.
  - destruct (preserve_mode_real_value_over_mock (H := scenario_host)
                scenario_kinds scenario_registry
                scenario_mock_resolver scenario_null_resolver
                VUndefined VUndefined VUndefined VUndefined
                scenario_world _ _ (VRef 13) VNull (VRef 13) VNull
                eq_refl eq_refl eq_refl eq_refl) as [_ [Hscalar _]].
    rewrite (Hscalar eq_refl). reflexivity.
Defined.

(** The scenario of C3: the root mock defines [returnStringArgument];
    the query passes the arguments object at 10 and the root object at
    11, which is empty before the call. *)
Lemma root_field_resolver_assigns_on_ambient_root_witness :
  rootFieldResolver (H := scenario_host) scenario_kinds scenario_registry (VRef 4)
    (plain_field (TNamed "String")) "RootQuery" "returnStringArgument"
    (VRef 11) (VRef 10) VUndefined VUndefined scenario_world
  = mockType (H := scenario_host) scenario_kinds scenario_registry
      (TNamed "String") (Some "RootQuery") (Some "returnStringArgument")
      (VRef 11) (VRef 10) VUndefined VUndefined
      (world_after_put
         (snd (call_value (H := scenario_host) (VRef 4) VUndefined
                 [VRef 11; VRef 10; VUndefined; VUndefined] scenario_world))
         11 (plain_object []) "returnStringArgument" (VRef 5)).
Proof.
  destruct (root_field_resolver_assigns_on_ambient_root (H := scenario_host)
              scenario_kinds scenario_registry (VRef 4)
              (plain_field (TNamed "String")) "RootQuery" "returnStringArgument"
              (VRef 10) VUndefined VUndefined) as [Hobj _].
  exact (Hobj 11 scenario_world _ _ (VRef 13) (VRef 5) (plain_object [])
           eq_refl eq_refl eq_refl).
Defined.

(** C3 as stated fails: the root object the caller passed has a new
    property after the call. *)
Lemma root_object_is_modified_by_root_field_resolver :
  heap scenario_world !! 11 = Some (plain_object [])
  /\ fst (rootFieldResolver (H := scenario_host) scenario_kinds scenario_registry
            (VRef 4) (plain_field (TNamed "String")) "RootQuery" "returnStringArgument"
            (VRef 11) (VRef 10) VUndefined VUndefined scenario_world)
     = Ok (VStr "adieu")
  /\ heap (snd (rootFieldResolver (H := scenario_host) scenario_kinds scenario_registry
                  (VRef 4) (plain_field (TNamed "String")) "RootQuery"
                  "returnStringArgument"
                  (VRef 11) (VRef 10) VUndefined VUndefined scenario_world)) !! 11
     = Some (plain_object [("returnStringArgument", VRef 5)])
  /\ heap (snd (rootFieldResolver (H := scenario_host) scenario_kinds scenario_registry
                  (VRef 4) (plain_field (TNamed "String")) "RootQuery"
                  "returnStringArgument"
                  (VRef 11) (VRef 10) VUndefined VUndefined scenario_world)) !! 11
     <> heap scenario_world !! 11.
Proof.
  split; [reflexivity|]. split; [reflexivity|]. split; [reflexivity|].
  vm_compute. discriminate.
Qed.



(** [MockList(2, () => 33)] on a list field yields [[33, 33]]. *)
Example MockList_with_generator :
  fst (mockType (H := scenario_host) scenario_kinds [] (TList (TNamed "Int"))
         (Some "RootQuery") (Some "returnList")
         (VRef 17) VUndefined VUndefined VUndefined scenario_world_lists)
  = Ok (VArr [VNum 33; VNum 33]).
Proof. reflexivity. Qed.

(** [MockList(2, () => new MockList(3))] on a list of lists of strings
    yields a matrix of two rows of three default strings. *)
Example MockList_nested :
  fst (mockType (H := scenario_host) scenario_kinds []
         (TList (TList (TNamed "String")))
         (Some "RootQuery") (Some "returnMatrix")
         (VRef 17) VUndefined VUndefined VUndefined scenario_world_lists)
  = Ok (VArr [VArr [VStr "Hello World"; VStr "Hello World"; VStr "Hello World"];
              VArr [VStr "Hello World"; VStr "Hello World"; VStr "Hello World"]]).
Proof. reflexivity. Qed.

(** * Further properties of the mocking engine *)

Section MoreProperties.
Context `{Host}.
Variable kinds : list (string * tkind).
Variable mockFunctionMap : list (string * value).

Local Abbreviation mockType := (mockType kinds mockFunctionMap).

(** Without existing value the resolver takes the generating branch. *)
Lemma no_existing_value_generates (f : value -> M value) (g : M value)
    (root : value) (fieldName : option string) (w : world) :
  no_existing_value root fieldName w ->
  (if truthy root
   then rootField <- Get root (field_key fieldName) ;;
        (if negb (is_undefined rootField) then f rootField else g)
   else g) w = g w.
Proof.
  intros [Hr | Hg].
  - now rewrite Hr.
  - destruct (truthy root); [|reflexivity]. now rewrite (bind_Ok _ _ _ _ _ Hg).
Qed.

Ltac generating Hty Hno :=
  rewrite mockType_unfold; unfold mockType_body; cbn [option_map];
  rewrite Hty; cbv zeta;
  etransitivity; [apply no_existing_value_generates; exact Hno|];
  cbn [type_name registry_entry registry_entry_default].

Lemma Math_random_draw (r : Q) (rs : list Q) (w : world) :
  draws w = r :: rs ->
  Math_random w = (Ok r, {| heap := heap w; draws := rs |}).
Proof. intros Hd. unfold Math_random. now rewrite Hd. Qed.



Lemma index_of_draw_in_range (r : Q) (n : nat) :
  (0 <= r)%Q -> (r < 1)%Q -> 0 < n ->
  exists i, index_of_draw r n = Some i /\ i < n
            /\ Z.of_nat i = Qfloor (r * inject_Z (Z.of_nat n)).
Proof.
  intros Hr0 Hr1 Hn. unfold index_of_draw.
  set (x := (r * inject_Z (Z.of_nat n))%Q).
  assert (Hn0 : (0 < inject_Z (Z.of_nat n))%Q).
  { change 0%Q with (inject_Z 0). rewrite <- Zlt_Qlt. lia. }
  assert (Hlo : (inject_Z 0 <= x)%Q).
  { unfold x. change (inject_Z 0) with 0%Q. apply Qmult_le_0_compat; [exact Hr0|].
    now apply Qlt_le_weak. }
  assert (Hhi : (x < inject_Z (Z.of_nat n))%Q).
  { unfold x. rewrite <- (Qmult_1_l (inject_Z (Z.of_nat n))) at 2.
    now apply Qmult_lt_compat_r. }
  pose proof (Qfloor_resp_le _ _ Hlo) as A. rewrite Qfloor_Z in A.
  assert (B : (Qfloor x < Z.of_nat n)%Z).
  { rewrite Zlt_Qlt. eapply Qle_lt_trans; [apply Qfloor_le|exact Hhi]. }
  destruct (Qfloor x <? 0)%Z eqn:E; [apply Z.ltb_lt in E; lia|].
  exists (Z.to_nat (Qfloor x)). split; [reflexivity|]. split; lia.
Qed.

Lemma drawn_element_of_array {A : Type} (ary : list A) (w : world)
    (r : Q) (rs : list Q) :
  draws w = r :: rs ->
  (0 <= r)%Q -> (r < 1)%Q ->
  ary <> [] ->
  exists (i : nat) (x : A),
    getRandomElement ary w = (Ok (Some x), {| heap := heap w; draws := rs |})
    /\ ary !! i = Some x
    /\ Z.of_nat i = Qfloor (r * inject_Z (Z.of_nat (length ary))).
Proof.
  intros Hd Hr0 Hr1 Hne.
  assert (Hlen : 0 < length ary) by (destruct ary; [contradiction|cbn; lia]).
  destruct (index_of_draw_in_range r (length ary) Hr0 Hr1 Hlen) as (i & Hi & Hlt & Hfl).
  destruct (lookup_lt_is_Some_2 ary i Hlt) as [x Hx].
  exists i, x. split; [|split; assumption].
  unfold getRandomElement. rewrite (bind_Ok _ _ _ _ _ (Math_random_draw r rs w Hd)).
  unfold ret. now rewrite Hi, Hx.
Qed.


(** X4. An unregistered enum field without existing value resolves to
    one of the values of the enum, chosen by the next draw; nothing but
    the draw is consumed. *)
Theorem enum_field_resolves_to_a_declared_value
    (type : gtype) (name : string) (values : list value)
    (typeName fieldName : option string)
    (root args context info : value) (w : world) (r : Q) (rs : list Q) :
  getNullableType type = TNamed name ->
  no_existing_value root fieldName w ->
  assoc name mockFunctionMap = None ->
  kind_of kinds (TNamed name) = KEnum values ->
  values <> [] ->
  draws w = r :: rs ->
  (0 <= r)%Q -> (r < 1)%Q ->
  exists v,
    mockType type typeName fieldName root args context info w =
      (Ok v, {| heap := heap w; draws := rs |})
    /\ In v values.
Proof.
  intros Hty Hno Hreg Hkind Hne Hd Hr0 Hr1.
  destruct (drawn_element_of_array values w r rs Hd Hr0 Hr1 Hne)
    as (i & v & E & Hi & _).
  exists v. split.
  - generating Hty Hno. rewrite Hreg, Hkind. now rewrite (bind_Ok _ _ _ _ _ E).
  - apply list_elem_of_In. eapply list_elem_of_lookup_2; exact Hi.
Qed.



(** X6. A registry entry for a named type takes the place of every
    built-in way of mocking that type (empty object, drawn member, drawn
    enum value, default scalar): without existing value the resolver
    returns what the registry function returns, called with [this]
    undefined on the four arguments of the resolver. *)
Theorem registry_entry_replaces_builtin_mock
    (type : gtype) (name : string) (mockFunction : value)
    (typeName fieldName : option string)
    (root args context info : value) (w : world) :
  getNullableType type = TNamed name ->
  no_existing_value root fieldName w ->
  assoc name mockFunctionMap = Some mockFunction ->
  mockType type typeName fieldName root args context info w =
    call_value mockFunction VUndefined [root; args; context; info] w.
Proof.
  intros Hty Hno Hreg. generating Hty Hno. now rewrite Hreg.
Qed.

(** X7. A non-null wrapper does not matter: the resolver made for
    [type!] behaves as the resolver made for [type]. *)
Theorem nonNull_wrapper_is_ignored (type : gtype) (typeName fieldName : option string)
    (root args context info : value) (w : world) :
  getNullableType type = type ->
  mockType (TNonNull type) typeName fieldName root args context info w =
    mockType type typeName fieldName root args context info w.
Proof.
  intros Hty. rewrite !mockType_unfold. unfold mockType_body.
  cbn [option_map getNullableType]. now rewrite Hty.
Qed.

(** X8. [mergeMocks] leaves a value without objects as it is, arrays
    included at any depth, and does not run the generic mock function. *)
Theorem mergeMocks_keeps_plain_data (generic : M value) :
  forall (customMock : value) (w : world),
    plain_data customMock = true ->
    mergeMocks generic customMock w = (Ok customMock, w).
Proof.
  fix IH 1. intros customMock w.
  destruct customMock as [| | b | q | s | els | l | n | p];
    cbn [plain_data]; try discriminate; try (intros _; reflexivity).
  intros Hels. rewrite mergeMocks_array.
  assert (E : mapM (mergeMocks generic) els w = (Ok els, w)).
  { clear - IH Hels. revert Hels. induction els as [|el els IHels]; [reflexivity|].
    cbn [forallb mapM]. intros Hels. apply andb_true_iff in Hels as [Hel Hels].
    rewrite (bind_Ok _ _ _ _ _ (IH el w Hel)).
    rewrite (bind_Ok _ _ _ _ _ (IHels Hels)). reflexivity. }
  now rewrite (bind_Ok _ _ _ _ _ E).
Qed.

(** ** MockList: edge cases *)

Lemma MockList_mock_fails_with_length (mockTypeFunc : gtype -> resolver)
    (mockTypeFunc_undefined : resolver) (fieldType : gtype) (self : value)
    (ml : MockListData) (root args context info : value) (w w' : world) e :
  mock_length (ml_len ml) w = (Throw e, w') ->
  MockList_mock mockTypeFunc mockTypeFunc_undefined fieldType self ml
    root args context info w = (Throw e, w').
Proof.
  intros E. destruct fieldType; cbn [MockList_mock]; now rewrite (bind_Throw _ _ _ _ _ E).
Qed.

(** X9. A MockList whose length is an array with fewer than two numbers
    makes [mock] throw a RangeError, after one draw has been taken. *)
Theorem MockList_incomplete_pair_throws (mockTypeFunc : gtype -> resolver)
    (mockTypeFunc_undefined : resolver) (fieldType : gtype) (self : value)
    (ml : MockListData) (root args context info : value) (w : world)
    (bounds : list Q) (r : Q) (rs : list Q) :
  ml_len ml = LenArray bounds ->
  length bounds < 2 ->
  draws w = r :: rs ->
  MockList_mock mockTypeFunc mockTypeFunc_undefined fieldType self ml
    root args context info w
  = (Throw JsRangeError, {| heap := heap w; draws := rs |}).
Proof.
  intros Hlen Hshort Hd. apply MockList_mock_fails_with_length. rewrite Hlen.
  destruct bounds as [|low [|high rest]]; cbn [length] in Hshort; try lia;
    cbn [mock_length]; now rewrite (bind_Ok _ _ _ _ _ (Math_random_draw r rs w Hd)).
Qed.



Lemma repeatM_constant {S A : Type} (body : ST S A) (s : S) (a : A) (n : nat) :
  body s = (Ok a, s) -> repeatM body n s = (Ok (repeat a n), s).
Proof.
  intros E. induction n as [|n IH]; [reflexivity|].
  cbn [repeatM repeat]. rewrite (bind_Ok _ _ _ _ _ E), (bind_Ok _ _ _ _ _ IH). reflexivity.
Qed.

(** X11. With an element generator that returns the same plain value
    without changing the world, [mock] yields that value once per
    element, whatever the field type; with length 0 it yields the empty
    array. *)
Theorem MockList_generator_fills_every_element (mockTypeFunc : gtype -> resolver)
    (mockTypeFunc_undefined : resolver) (fieldType : gtype) (self : value)
    (ml : MockListData) (root args context info : value) (w w1 : world)
    (n : nat) (v : value) :
  mock_length (ml_len ml) w = (Ok n, w1) ->
  is_function (heap w1) (ml_wrappedFunction ml) = true ->
  call_value (ml_wrappedFunction ml) self [root; args; context; info] w1 = (Ok v, w1) ->
  as_MockList (heap w1) v = None ->
  MockList_mock mockTypeFunc mockTypeFunc_undefined fieldType self ml
    root args context info w = (Ok (VArr (repeat v n)), w1).
Proof.
  intros Hlen Hfun Hcall Hplain.
  destruct fieldType; cbn [MockList_mock]; rewrite (bind_Ok _ _ _ _ _ Hlen);
    (erewrite bind_Ok; [reflexivity|]); apply repeatM_constant;
    unfold bind at 1; unfold get_world at 1; rewrite Hfun;
    rewrite (bind_Ok _ _ _ _ _ Hcall); unfold bind, get_world; now rewrite Hplain.
Qed.

(** ** Preserve mode: failures *)

Lemma preservingResolver_mock_throws (mockResolver oldResolver : resolver)
    (rootObject args context info : value) (w w1 : world) e :
  mockResolver rootObject args context info w = (Throw e, w1) ->
  preservingResolver mockResolver oldResolver rootObject args context info w
  = (Throw e, w1).
Proof. intros E. unfold preservingResolver. now rewrite (bind_Throw _ _ _ _ _ E). Qed.

(** X12. The resolver installed in preserve mode fails when either side
    fails. An exception thrown by the mock resolver leaves the composed
    resolver at once, before the real resolver is called; an exception
    thrown by the real resolver leaves it too. When both return and
    exactly one of the two promises is rejected, the composed promise is
    rejected for the same reason; when none is rejected and one never
    settles, the composed promise never settles. *)
Theorem preserve_mode_failures_propagate (mockResolver oldResolver : resolver)
    (rootObject args context info : value) (w : world) :
  (forall e w1,
      mockResolver rootObject args context info w = (Throw e, w1) ->
      preservingResolver mockResolver oldResolver rootObject args context info w
      = (Throw e, w1))
  /\ (forall mocked w1 e w2,
        mockResolver rootObject args context info w = (Ok mocked, w1) ->
        oldResolver rootObject args context info w1 = (Throw e, w2) ->
        preservingResolver mockResolver oldResolver rootObject args context info w
        = (Throw e, w2))
  /\ (forall mocked w1 resolved w2,
        mockResolver rootObject args context info w = (Ok mocked, w1) ->
        oldResolver rootObject args context info w1 = (Ok resolved, w2) ->
        (forall e, settle resolved = Rejected e ->
                   (forall e', settle mocked <> Rejected e') ->
                   preservingResolver mockResolver oldResolver
                     rootObject args context info w
                   = (Ok (VPromise (Rejected e)), w2))
        /\ (forall e, settle mocked = Rejected e ->
                      (forall e', settle resolved <> Rejected e') ->
                      preservingResolver mockResolver oldResolver
                        rootObject args context info w
                      = (Ok (VPromise (Rejected e)), w2))
        /\ ((forall e, settle mocked <> Rejected e) ->
            (forall e, settle resolved <> Rejected e) ->
            settle mocked = Pending \/ settle resolved = Pending ->
            preservingResolver mockResolver oldResolver
              rootObject args context info w
            = (Ok (VPromise Pending), w2))).
Proof.
  split; [|split].
  - intros e w1 E. now apply preservingResolver_mock_throws.
  - intros mocked w1 e w2 Em Eo. unfold preservingResolver.
    now rewrite (bind_Ok _ _ _ _ _ Em), (bind_Throw _ _ _ _ _ Eo).
  - intros mocked w1 resolved w2 Em Eo.
    assert (E : preservingResolver mockResolver oldResolver rootObject args context info w
                = match Promise_all2 mocked resolved with
                  | BothFulfilled mockedValue resolvedValue =>
                      match mergeResolved mockedValue resolvedValue w2 with
                      | (Ok v, w') => (Ok (VPromise (settle v)), w')
                      | (Throw e, w') => (Ok (VPromise (Rejected e)), w')
                      | (Stuck, w') => (Stuck, w')
                      end
                  | OneRejected e => (Ok (VPromise (Rejected e)), w2)
                  | StillPending => (Ok (VPromise Pending), w2)
                  end).
    { unfold preservingResolver.
      rewrite (bind_Ok _ _ _ _ _ Em), (bind_Ok _ _ _ _ _ Eo).
      now destruct (Promise_all2 mocked resolved). }
    rewrite E. unfold Promise_all2. split; [|split].
    + intros e Hr Hm. rewrite Hr.
      destruct (settle mocked) as [x|e'|]; [reflexivity| |reflexivity].
      now destruct (Hm e').
    + intros e Hm Hr. rewrite Hm. reflexivity.
    + intros Hm Hr Hp.
      destruct (settle mocked) as [x|e'|]; [|now destruct (Hm e')|];
        (destruct (settle resolved) as [y|e''|]; [|now destruct (Hr e'')|]);
        try reflexivity.
      destruct Hp; discriminate.
Qed.

(** X13. In preserve mode a real resolver does not rescue a field whose
    type cannot be mocked: for a field of an unregistered scalar type
    other than the five default ones, without existing value on the
    root, the composed resolver throws the "No mock defined" error and
    the real resolver is never called. *)
Theorem preserve_mode_unmocked_scalar_still_throws
    (type : gtype) (name : string) (typeName fieldName : option string)
    (oldResolver : resolver) (root args context info : value) (w : world) :
  getNullableType type = TNamed name ->
  no_existing_value root fieldName w ->
  assoc name mockFunctionMap = None ->
  kind_of kinds (TNamed name) = KScalar ->
  ~ In name default_scalar_names ->
  preservingResolver (mockType type typeName fieldName) oldResolver
    root args context info w
  = (Throw (JsError ("No mock defined for type " ++ dquote ++ name ++ dquote)), w).
Proof.
  intros Hty Hno Hreg Hkind Hdef. apply preservingResolver_mock_throws.
  now apply mockType_no_mock.
Qed.
End MoreProperties.

(** ** What setup changes in the schema and what it leaves alone *)

Lemma map_assoc_set {A B : Type} (g : A -> B) (k : string) (a a0 : A)
    (l : list (string * A)) :
  assoc k l = Some a0 -> g a = g a0 ->
  map (fun kv => (fst kv, g (snd kv))) (assoc_set k a l)
  = map (fun kv => (fst kv, g (snd kv))) l.
Proof.
  intros Hk Hg. induction l as [|[k' a'] l IH]; [discriminate|].
  cbn [assoc assoc_set] in *. destruct (String.eqb k' k) eqn:E.
  - injection Hk as ->. cbn [map fst snd]. now rewrite Hg.
  - cbn [map fst snd]. now rewrite IH.
Qed.

Lemma kinds_of_set_field_resolve (s : schema) (typeName fieldName : string)
    (r : resolver) :
  kinds_of (set_field_resolve s typeName fieldName r) = kinds_of s.
Proof.
  unfold set_field_resolve.
  destruct (assoc typeName (typeMap s)) as [td|] eqn:Ht; [|reflexivity].
  destruct (assoc fieldName (td_fields td)) as [fd|]; [|reflexivity].
  unfold kinds_of. cbn [typeMap]. now apply (map_assoc_set td_kind) with (a0 := td).
Qed.

Lemma kinds_of_assignResolveType (p : bool) (type : gtype) (s : schema) :
  kinds_of (assignResolveType p type s) = kinds_of s.
Proof.
  unfold assignResolveType. destruct (p && _); [reflexivity|].
  destruct (assoc _ (typeMap s)) as [td|] eqn:Ht; [|reflexivity].
  destruct (is_abstract (td_kind td)); [|reflexivity].
  unfold set_resolveType. rewrite Ht. unfold kinds_of. cbn [typeMap].
  now apply (map_assoc_set td_kind) with (a0 := td).
Qed.

Lemma lookup_field_assignResolveType (p : bool) (type : gtype) (s : schema)
    (typeName fieldName : string) :
  lookup_field (assignResolveType p type s) typeName fieldName
  = lookup_field s typeName fieldName.
Proof.
  unfold assignResolveType. destruct (p && _); [reflexivity|].
  destruct (assoc _ (typeMap s)) as [td|] eqn:Ht; [|reflexivity].
  destruct (is_abstract (td_kind td)); [|reflexivity].
  unfold set_resolveType. rewrite Ht. unfold lookup_field. cbn [typeMap].
  destruct (String.eqb (getNamedType (getNullableType type)) typeName) eqn:E.
  - apply String.eqb_eq in E. rewrite <- E. now rewrite assoc_set_eq, Ht.
  - now rewrite assoc_set_ne by (intros Hq; rewrite Hq, String.eqb_refl in E; discriminate).
Qed.

Lemma roots_assignResolveType (p : bool) (type : gtype) (s : schema) :
  queryType (assignResolveType p type s) = queryType s
  /\ mutationType (assignResolveType p type s) = mutationType s.
Proof.
  unfold assignResolveType, set_resolveType. destruct (p && _); [auto|].
  destruct (assoc _ (typeMap s)) as [td|]; [|auto].
  destruct (is_abstract (td_kind td)); auto.
Qed.

Lemma roots_set_field_resolve (s : schema) (typeName fieldName : string) (r : resolver) :
  queryType (set_field_resolve s typeName fieldName r) = queryType s
  /\ mutationType (set_field_resolve s typeName fieldName r) = mutationType s.
Proof.
  unfold set_field_resolve.
  destruct (assoc typeName (typeMap s)) as [td|]; [|auto].
  destruct (assoc fieldName (td_fields td)); auto.
Qed.

Lemma lookup_field_set_field_resolve_same (s : schema) (typeName fieldName : string)
    (r : resolver) :
  lookup_field (set_field_resolve s typeName fieldName r) typeName fieldName
  = option_map (with_resolver r) (lookup_field s typeName fieldName).
Proof.
  unfold lookup_field, set_field_resolve.
  destruct (assoc typeName (typeMap s)) as [td|] eqn:Ht; [|now rewrite Ht].
  destruct (assoc fieldName (td_fields td)) as [fd|] eqn:Hf.
  - cbn [typeMap]. rewrite assoc_set_eq. cbn [td_fields]. now rewrite assoc_set_eq.
  - now rewrite Ht, Hf.
Qed.

Lemma lookup_field_set_field_resolve_other (s : schema) (typeName fieldName : string)
    (r : resolver) (typeName' fieldName' : string) :
  (typeName', fieldName') <> (typeName, fieldName) ->
  lookup_field (set_field_resolve s typeName fieldName r) typeName' fieldName'
  = lookup_field s typeName' fieldName'.
Proof.
  intros Hne. unfold lookup_field, set_field_resolve.
  destruct (assoc typeName (typeMap s)) as [td|] eqn:Ht; [|reflexivity].
  destruct (assoc fieldName (td_fields td)) as [fd|] eqn:Hf; [|reflexivity].
  cbn [typeMap].
  destruct (String.eqb typeName typeName') eqn:E.
  - apply String.eqb_eq in E. subst typeName'. rewrite assoc_set_eq, Ht. cbn [td_fields].
    apply assoc_set_ne. intros ->. now apply Hne.
  - now rewrite assoc_set_ne by (intros ->; now rewrite String.eqb_refl in E).
Qed.

Section SetupFrame.
Context `{Host}.
Variable kinds : list (string * tkind).
Variable mockFunctionMap : list (string * value).

(** The effect of [mockField] on the schema, whatever its outcome. *)
Lemma mockField_effect (p : bool) (fd : field) (typeName fieldName : string)
    (s s' : schema) (w w' : world) (o : outcome unit) :
  mockField kinds mockFunctionMap p fd typeName fieldName (s, w) = (o, (s', w')) ->
  kinds_of s' = kinds_of s
  /\ queryType s' = queryType s
  /\ mutationType s' = mutationType s
  /\ (forall typeName' fieldName',
        (typeName', fieldName') <> (typeName, fieldName) ->
        lookup_field s' typeName' fieldName' = lookup_field s typeName' fieldName')
  /\ ((exists r, o = Ok tt
                 /\ lookup_field s' typeName fieldName
                    = option_map (with_resolver r) (lookup_field s typeName fieldName))
      \/ (o <> Ok tt
          /\ lookup_field s' typeName fieldName = lookup_field s typeName fieldName)).
Proof.
  unfold mockField.
  unfold bind at 1. unfold modify_schema at 1. cbn [fst snd].
  unfold bind at 1. unfold get_schema at 1. cbn [fst snd].
  set (s1 := assignResolveType p (f_type fd) s).
  assert (K1 : kinds_of s1 = kinds_of s) by apply kinds_of_assignResolveType.
  destruct (roots_assignResolveType p (f_type fd) s) as [Q1 M1]. fold s1 in Q1, M1.
  assert (L1 : forall t f, lookup_field s1 t f = lookup_field s t f)
    by (intros; apply lookup_field_assignResolveType).
  assert (Done : forall r o0 s0 w0,
             (match p, f_resolve fd with
              | true, Some oldResolver =>
                  modify_schema (fun s => set_field_resolve s typeName fieldName
                                            (preservingResolver r oldResolver))
              | _, _ => modify_schema (fun s => set_field_resolve s typeName fieldName r)
              end) (s1, w0) = (o0, (s0, w')) ->
             kinds_of s0 = kinds_of s
             /\ queryType s0 = queryType s
             /\ mutationType s0 = mutationType s
             /\ (forall typeName' fieldName',
                   (typeName', fieldName') <> (typeName, fieldName) ->
                   lookup_field s0 typeName' fieldName' = lookup_field s typeName' fieldName')
             /\ ((exists r', o0 = Ok tt
                    /\ lookup_field s0 typeName fieldName
                       = option_map (with_resolver r') (lookup_field s typeName fieldName))
                 \/ (o0 <> Ok tt
                     /\ lookup_field s0 typeName fieldName
                        = lookup_field s typeName fieldName))).
  { intros r o0 s0 w0.
    assert (G : forall r', (Ok tt, (set_field_resolve s1 typeName fieldName r', w0))
                           = (o0, (s0, w')) ->
                kinds_of s0 = kinds_of s
                /\ queryType s0 = queryType s
                /\ mutationType s0 = mutationType s
                /\ (forall typeName' fieldName',
                      (typeName', fieldName') <> (typeName, fieldName) ->
                      lookup_field s0 typeName' fieldName'
                      = lookup_field s typeName' fieldName')
                /\ ((exists r'', o0 = Ok tt
                       /\ lookup_field s0 typeName fieldName
                          = option_map (with_resolver r'')
                              (lookup_field s typeName fieldName))
                    \/ (o0 <> Ok tt
                        /\ lookup_field s0 typeName fieldName
                           = lookup_field s typeName fieldName))).
    { intros r' [= <- <- _].
      destruct (roots_set_field_resolve s1 typeName fieldName r') as [Q2 M2].
      split; [now rewrite kinds_of_set_field_resolve|].
      split; [congruence|]. split; [congruence|]. split.
      - intros t f Hne. now rewrite lookup_field_set_field_resolve_other, L1.
      - left. exists r'. split; [reflexivity|].
        now rewrite lookup_field_set_field_resolve_same, L1. }
    destruct p; [destruct (f_resolve fd)|]; unfold modify_schema; cbn [fst snd]; apply G. }
  assert (Failed : forall e, e <> Ok tt ->
             (e, (s1, w')) = (o, (s', w')) ->
             kinds_of s' = kinds_of s
             /\ queryType s' = queryType s
             /\ mutationType s' = mutationType s
             /\ (forall typeName' fieldName',
                   (typeName', fieldName') <> (typeName, fieldName) ->
                   lookup_field s' typeName' fieldName' = lookup_field s typeName' fieldName')
             /\ ((exists r, o = Ok tt
                    /\ lookup_field s' typeName fieldName
                       = option_map (with_resolver r) (lookup_field s typeName fieldName))
                 \/ (o <> Ok tt
                     /\ lookup_field s' typeName fieldName
                        = lookup_field s typeName fieldName))).
  { intros e He [= <- <-]. repeat split; auto. }
  unfold bind at 1.
  destruct (is_root_type s1 typeName).
  - destruct (assoc typeName mockFunctionMap) as [rootMock|].
    + unfold bind at 1. unfold liftW. cbn [fst snd].
      destruct (probe_root_mock rootMock fieldName w) as [[entry| |] w1].
      * destruct (truthy entry); unfold ret at 1; apply Done.
      * intros E. injection E as E1 E2 E3. subst. apply (Failed (Throw e)); [discriminate|reflexivity].
      * intros E. injection E as E1 E2 E3. subst. apply (Failed Stuck); [discriminate|reflexivity].
    + unfold ret at 1. apply Done.
  - unfold ret at 1. apply Done.
Qed.
End SetupFrame.

(** *** Passes over the fields *)

Lemma with_resolver_twice (r r' : resolver) (fd : field) :
  with_resolver r' (with_resolver r fd) = with_resolver r' fd.
Proof. reflexivity. Qed.

Lemma field_key_dec (tf tf' : string * string) : {tf = tf'} + {tf <> tf'}.
Proof. decide equality; apply String.string_dec. Defined.

Section FieldPass.
Variable step : string * string -> Setup unit.
Hypothesis step_effect : step_changes_own_resolver step.

Lemma pass_frame (l : list (string * string)) :
  forall s w o s' w',
    forEachM step l (s, w) = (o, (s', w')) ->
    kinds_of s' = kinds_of s
    /\ queryType s' = queryType s
    /\ mutationType s' = mutationType s
    /\ (forall typeName fieldName,
          ~ In (typeName, fieldName) l ->
          lookup_field s' typeName fieldName = lookup_field s typeName fieldName)
    /\ (forall typeName fieldName,
          option_map f_type (lookup_field s' typeName fieldName)
          = option_map f_type (lookup_field s typeName fieldName)).
Proof.
  induction l as [|tf l IH]; intros s w o s' w'.
  - intros [= <- <- <-]. repeat split; auto.
  - cbn [forEachM]. unfold bind at 1.
    destruct (step tf (s, w)) as [o1 [s1 w1]] eqn:E1.
    destruct (step_effect _ _ _ _ _ _ E1) as (K1 & Q1 & M1 & F1 & O1).
    assert (T1 : forall typeName fieldName,
               option_map f_type (lookup_field s1 typeName fieldName)
               = option_map f_type (lookup_field s typeName fieldName)).
    { intros t f. destruct (field_key_dec (t, f) tf) as [<-|Hne].
      - cbn [fst snd] in O1. destruct O1 as [(r & _ & ->)|[_ ->]]; [|reflexivity].
        now destruct (lookup_field s t f).
      - now rewrite F1. }
    destruct o1 as [[]| |].
    + intros E2. destruct (IH _ _ _ _ _ E2) as (K2 & Q2 & M2 & F2 & T2).
      split; [congruence|]. split; [congruence|]. split; [congruence|]. split.
      * intros t f Hn. rewrite F2 by (intros Hi; apply Hn; now right).
        apply F1. intros <-. apply Hn. now left.
      * intros t f. now rewrite T2, T1.
    + intros [= <- <- <-]. repeat split; auto.
      intros t f Hn. apply F1. intros <-. apply Hn. now left.
    + intros [= <- <- <-]. repeat split; auto.
      intros t f Hn. apply F1. intros <-. apply Hn. now left.
Qed.

Lemma pass_resolves (l : list (string * string)) :
  forall s w s' w',
    forEachM step l (s, w) = (Ok tt, (s', w')) ->
    forall typeName fieldName fd,
      In (typeName, fieldName) l ->
      lookup_field s typeName fieldName = Some fd ->
      exists r, lookup_field s' typeName fieldName = Some (with_resolver r fd).
Proof.
  induction l as [|tf l IH]; intros s w s' w'; [intros _ t f fd []|].
  cbn [forEachM]. unfold bind at 1.
  destruct (step tf (s, w)) as [o1 [s1 w1]] eqn:E1.
  destruct (step_effect _ _ _ _ _ _ E1) as (K1 & Q1 & M1 & F1 & O1).
  destruct o1 as [[]| |]; try discriminate.
  intros E2 t f fd Hin Hfd.
  destruct O1 as [(r & _ & O1)|[Hno _]]; [|now destruct Hno].
  destruct (in_dec field_key_dec (t, f) l) as [Hl|Hl].
  - destruct (field_key_dec (t, f) tf) as [<-|Hne].
    + cbn [fst snd] in O1. rewrite Hfd in O1. cbn [option_map] in O1.
      destruct (IH _ _ _ _ E2 t f _ Hl O1) as [r' Hr']. exists r'.
      now rewrite Hr', with_resolver_twice.
    + apply (IH _ _ _ _ E2 t f fd Hl). now rewrite F1.
  - destruct Hin as [->|Hin]; [|now destruct Hl].
    cbn [fst snd] in O1. rewrite Hfd in O1. cbn [option_map] in O1.
    exists r. destruct (pass_frame l _ _ _ _ _ E2) as (_ & _ & _ & F2 & _).
    now rewrite F2.
Qed.
End FieldPass.

(** A pass whose steps always complete, leave the world alone and
    install a resolver computed from the field. *)
Section ExactPass.
Variable step : string * string -> Setup unit.
Variable make : field -> string -> string -> resolver.
Variable Inv : schema -> Prop.
Hypothesis step_exact :
  forall tf fd s w,
    Inv s ->
    lookup_field s (fst tf) (snd tf) = Some fd ->
    exists s1,
      step tf (s, w) = (Ok tt, (s1, w))
      /\ Inv s1
      /\ lookup_field s1 (fst tf) (snd tf)
         = Some (with_resolver (make fd (fst tf) (snd tf)) fd)
      /\ (forall typeName fieldName,
            (typeName, fieldName) <> tf ->
            lookup_field s1 typeName fieldName = lookup_field s typeName fieldName).

Lemma pass_exact (l : list (string * string)) :
  forall s w,
    Inv s ->
    List.NoDup l ->
    (forall tf, In tf l -> lookup_field s (fst tf) (snd tf) <> None) ->
    exists s',
      forEachM step l (s, w) = (Ok tt, (s', w))
      /\ Inv s'
      /\ (forall typeName fieldName fd,
            In (typeName, fieldName) l ->
            lookup_field s typeName fieldName = Some fd ->
            lookup_field s' typeName fieldName
            = Some (with_resolver (make fd typeName fieldName) fd))
      /\ (forall typeName fieldName,
            ~ In (typeName, fieldName) l ->
            lookup_field s' typeName fieldName = lookup_field s typeName fieldName).
Proof.
  induction l as [|tf l IH]; intros s w HI Hnd Hall.
  - exists s. repeat split; auto. intros t f fd [].
  - inversion Hnd as [|? ? Hnot Hnd']; subst.
    destruct (lookup_field s (fst tf) (snd tf)) as [fd0|] eqn:L0;
      [|exfalso; apply (Hall tf); [now left|exact L0]].
    destruct (step_exact tf fd0 s w HI L0) as (s1 & E1 & HI1 & Own & Oth).
    assert (Hall1 : forall tf', In tf' l -> lookup_field s1 (fst tf') (snd tf') <> None).
    { intros tf' Hin. rewrite Oth.
      - apply Hall. now right.
      - destruct tf' as [t f]. cbn [fst snd]. intros <-. now apply Hnot. }
    destruct (IH s1 w HI1 Hnd' Hall1) as (s' & E2 & HI2 & Res & Fr).
    exists s'. split; [|split; [exact HI2|split]].
    + cbn [forEachM]. unfold bind at 1. rewrite E1. exact E2.
    + intros t f fd [->|Hin] Hfd.
      * cbn [fst snd] in *. rewrite Fr by exact Hnot. rewrite Own. congruence.
      * apply Res; [exact Hin|]. rewrite Oth; [exact Hfd|].
        intros <-. now apply Hnot.
    + intros t f Hn. rewrite Fr by (intros Hi; apply Hn; now right).
      apply Oth. intros <-. apply Hn. now left.
Qed.
End ExactPass.

(** Fields the pass of [forEachField] visits exist, and are visited once,
    when names are unique. *)
Lemma assoc_In_unique {A : Type} (k : string) (a : A) (l : list (string * A)) :
  List.NoDup (map fst l) -> In (k, a) l -> assoc k l = Some a.
Proof.
  induction l as [|[k' a'] l IH]; [intros _ []|].
  cbn [map fst]. intros Hnd. inversion Hnd as [|? ? Hnot Hnd']; subst.
  intros [[= -> ->]|Hin]; cbn [assoc].
  - now rewrite String.eqb_refl.
  - destruct (String.eqb k' k) eqn:E.
    + apply String.eqb_eq in E. subst k'. exfalso. apply Hnot.
      change k with (fst (k, a)). now apply in_map.
    + now apply IH.
Qed.

Lemma assoc_Some_In {A : Type} (k : string) (a : A) (l : list (string * A)) :
  assoc k l = Some a -> In (k, a) l.
Proof.
  induction l as [|[k' a'] l IH]; [discriminate|].
  cbn [assoc]. destruct (String.eqb k' k) eqn:E.
  - apply String.eqb_eq in E. intros [= ->]. left. now subst.
  - intros Hk. right. now apply IH.
Qed.

Lemma fields_to_visit_In (s : schema) (typeName fieldName : string) :
  In (typeName, fieldName) (fields_to_visit s) <->
  exists td, In (typeName, td) (typeMap s)
             /\ String.prefix "__" typeName = false
             /\ td_kind td = KObjectType
             /\ In fieldName (map fst (td_fields td)).
Proof.
  unfold fields_to_visit. rewrite in_flat_map. split.
  - intros [[n td] [Hin Hf]]. cbn [fst snd] in Hf.
    destruct (String.prefix "__" n) eqn:Ep; [destruct Hf|].
    destruct (td_kind td) eqn:Ek; try destruct Hf. cbn [negb andb] in Hf.
    apply in_map_iff in Hf. destruct Hf as [[f fd] [[= <- <-] Hf]].
    exists td. repeat split; auto. change f with (fst (f, fd)). now apply in_map.
  - intros (td & Hin & Ep & Ek & Hf). exists (typeName, td). split; [exact Hin|].
    cbn [fst snd]. rewrite Ep, Ek. cbn [negb andb].
    apply in_map_iff in Hf. destruct Hf as [[f fd] [<- Hf]].
    apply in_map_iff. now exists (f, fd).
Qed.

Lemma visited_fields_exist (s : schema) :
  well_keyed s ->
  forall tf, In tf (fields_to_visit s) -> lookup_field s (fst tf) (snd tf) <> None.
Proof.
  intros [Hk Hf] [t f] Hin. cbn [fst snd].
  apply fields_to_visit_In in Hin. destruct Hin as (td & Hin & _ & _ & Hfd).
  unfold lookup_field. rewrite (assoc_In_unique _ _ _ Hk Hin).
  apply in_map_iff in Hfd. destruct Hfd as [[f' fd] [Hf' Hfd]]. cbn [fst] in Hf'. subst f'.
  rewrite List.Forall_forall in Hf. specialize (Hf _ Hin). cbn [snd] in Hf.
  now rewrite (assoc_In_unique _ _ _ Hf Hfd).
Qed.

Lemma NoDup_map_pair (n : string) {A : Type} (l : list (string * A)) :
  List.NoDup (map fst l) -> List.NoDup (map (fun ff => (n, fst ff)) l).
Proof.
  induction l as [|[k a] l IH]; cbn [map fst]; intros Hnd; [constructor|].
  inversion Hnd as [|? ? Hnot Hnd']; subst. constructor; [|now apply IH].
  intros Hin. apply in_map_iff in Hin. destruct Hin as [[k' a'] [[= ->] Hin]].
  apply Hnot. change k with (fst (k, a')). now apply in_map.
Qed.

Lemma visited_fields_once (s : schema) :
  well_keyed s -> List.NoDup (fields_to_visit s).
Proof.
  intros [Hk Hf]. unfold fields_to_visit.
  induction (typeMap s) as [|[n td] tm IH]; [constructor|].
  cbn [map fst] in Hk. inversion Hk as [|? ? Hnot Hk']; subst.
  inversion Hf as [|? ? Hf1 Hf']; subst. cbn [snd] in Hf1.
  cbn [flat_map fst snd].
  assert (Hrest : forall f,
             ~ In (n, f)
                 (flat_map
                    (fun nt =>
                       if negb (String.prefix "__" (fst nt))
                          && match td_kind (snd nt) with KObjectType => true | _ => false end
                       then map (fun ff => (fst nt, fst ff)) (td_fields (snd nt))
                       else []) tm)).
  { intros f Hin. apply in_flat_map in Hin. destruct Hin as [[n' td'] [Hin Hx]].
    cbn [fst snd] in Hx.
    destruct (negb (String.prefix "__" n') && _); [|destruct Hx].
    apply in_map_iff in Hx. destruct Hx as [ff [[= -> _] _]].
    apply Hnot. change n with (fst (n, td')). now apply in_map. }
  destruct (negb (String.prefix "__" n) && _); [|now apply IH].
  apply List.NoDup_app; [now apply NoDup_map_pair|now apply IH|].
  intros [t f] Hin Hin2. apply in_map_iff in Hin. destruct Hin as [ff [[= <- _] _]].
  now apply (Hrest f).
Qed.

Section SetupEffect.
Context `{Host}.

Lemma visit_changes_own_resolver (kinds : list (string * tkind))
    (mockFunctionMap : list (string * value)) (p : bool) :
  step_changes_own_resolver (visit kinds mockFunctionMap p).
Proof.
  intros [t f] s w o s' w'. unfold visit. cbn [fst snd].
  unfold bind at 1. unfold get_schema at 1. cbn [fst snd].
  destruct (lookup_field s t f) as [fd|] eqn:L.
  - intros E. destruct (mockField_effect _ _ _ _ _ _ _ _ _ _ _ E)
      as (K1 & Q1 & M1 & F1 & O1).
    rewrite L in O1. exact (conj K1 (conj Q1 (conj M1 (conj F1 O1)))).
  - intros [= <- <- <-]. repeat split; auto.
Qed.

(** Setup either stops before the pass over the fields, leaving the
    schema as it was, or ends with the outcome of the pass. *)
Lemma setup_pass_or_untouched (s s' : schema) (mocks : value) (p : bool) (w w' : world)
    (o : outcome unit) :
  addMockFunctionsToSchema (Some s) mocks p w = (o, Some s', w') ->
  s' = s
  \/ exists registry w0,
       forEachM (visit (kinds_of s) registry p) (fields_to_visit s) (s, w0)
       = (o, (s', w')).
Proof.
  unfold addMockFunctionsToSchema.
  unfold bind at 1. unfold liftW at 1. cbn [fst snd].
  destruct ((if is_undefined mocks then new_object [] else ret mocks) w)
    as [[m| |] w1]; try (intros [= _ <- _]; now left).
  destruct (negb (isObject m)); [intros [= _ <- _]; now left|].
  unfold bind at 1. unfold liftW at 1. cbn [fst snd].
  destruct (build_mockFunctionMap m w1) as [[registry| |] w2];
    try (intros [= _ <- _]; now left).
  unfold bind at 1. unfold liftW at 1. cbn [fst snd].
  destruct (forEachM check_mockFunction registry w2) as [[[]| |] w3];
    try (intros [= _ <- _]; now left).
  unfold forEachField. unfold bind at 1. unfold get_schema at 1. cbn [fst snd].
  intros Hrun. right. exists registry, w3.
  change (forEachM (visit (kinds_of s) registry p) (fields_to_visit s) (s, w3))
    with (forEachM
            (fun tf => s0 <- get_schema ;;
               match lookup_field s0 (fst tf) (snd tf) with
               | Some fd => mockField (kinds_of s) registry p fd (fst tf) (snd tf)
               | None => stuck
               end) (fields_to_visit s) (s, w3)).
  destruct (forEachM _ (fields_to_visit s) (s, w3)) as [o' [s2 w4]].
  now injection Hrun as -> -> ->.
Qed.

(** X14. After a setup that completes, every visited field carries a
    resolver, whatever it had before, and is otherwise the field it was:
    no field is left without a resolver and none changes its type. *)
Theorem setup_gives_every_visited_field_a_resolver
    (s s' : schema) (mocks : value) (p : bool) (w w' : world) :
  addMockFunctionsToSchema (Some s) mocks p w = (Ok tt, Some s', w') ->
  forall typeName fieldName fd,
    In (typeName, fieldName) (fields_to_visit s) ->
    lookup_field s typeName fieldName = Some fd ->
    exists r, lookup_field s' typeName fieldName
              = Some {| f_type := f_type fd; f_resolve := Some r |}.
Proof.
  intros Hrun t f fd Hin Hfd.
  destruct (setup_runs_visits _ _ _ _ _ _ Hrun) as (R & w0 & Hpass).
  exact (pass_resolves _ (visit_changes_own_resolver _ _ _) _ _ _ _ _ Hpass
           t f fd Hin Hfd).
Qed.

(** X15. Whatever its outcome, setup changes nothing of the schema but
    resolvers of visited fields and [resolveType] slots: the kinds of the
    types, the root types, the declared type of every field, and every
    field that is not visited (a field of a type that is not an object
    type, or whose name starts with two underscores) stay as they were. *)
Theorem setup_changes_only_resolvers
    (s s' : schema) (mocks : value) (p : bool) (w w' : world) (o : outcome unit) :
  addMockFunctionsToSchema (Some s) mocks p w = (o, Some s', w') ->
  kinds_of s' = kinds_of s
  /\ queryType s' = queryType s
  /\ mutationType s' = mutationType s
  /\ (forall typeName fieldName,
        field_type s' typeName fieldName = field_type s typeName fieldName)
  /\ (forall typeName fieldName,
        ~ In (typeName, fieldName) (fields_to_visit s) ->
        lookup_field s' typeName fieldName = lookup_field s typeName fieldName)
  /\ (forall typeName fieldName,
        String.prefix "__" typeName = true
        \/ (forall td, In (typeName, td) (typeMap s) -> td_kind td <> KObjectType) ->
        lookup_field s' typeName fieldName = lookup_field s typeName fieldName).
Proof.
  intros Hrun.
  assert (G : kinds_of s' = kinds_of s
              /\ queryType s' = queryType s
              /\ mutationType s' = mutationType s
              /\ (forall typeName fieldName,
                    ~ In (typeName, fieldName) (fields_to_visit s) ->
                    lookup_field s' typeName fieldName = lookup_field s typeName fieldName)
              /\ (forall typeName fieldName,
                    option_map f_type (lookup_field s' typeName fieldName)
                    = option_map f_type (lookup_field s typeName fieldName))).
  { destruct (setup_pass_or_untouched _ _ _ _ _ _ _ Hrun) as [->|(R & w0 & Hpass)].
    - repeat split; auto.
    - exact (pass_frame _ (visit_changes_own_resolver _ _ _) _ _ _ _ _ _ Hpass). }
  destruct G as (K & Q & Mu & F & T).
  split; [exact K|]. split; [exact Q|]. split; [exact Mu|].
  split; [exact T|]. split; [exact F|].
  intros t f Hc. apply F. intros Hin. apply fields_to_visit_In in Hin.
  destruct Hin as (td & Hin & Ep & Ek & _).
  destruct Hc as [Hc|Hc]; [congruence|]. now apply (Hc td).
Qed.

Lemma ordinary_pass (s : schema) (registry : list (string * value)) (p : bool)
    (w : world) :
  well_keyed s ->
  (forall typeName, is_root_type s typeName = true -> assoc typeName registry = None) ->
  exists s',
    forEachM (visit (kinds_of s) registry p) (fields_to_visit s) (s, w) = (Ok tt, (s', w))
    /\ (forall typeName fieldName fd,
          In (typeName, fieldName) (fields_to_visit s) ->
          lookup_field s typeName fieldName = Some fd ->
          lookup_field s' typeName fieldName
          = Some (with_resolver
                    (installed_resolver (kinds_of s) registry p fd typeName fieldName) fd))
    /\ (forall typeName fieldName,
          ~ In (typeName, fieldName) (fields_to_visit s) ->
          lookup_field s' typeName fieldName = lookup_field s typeName fieldName).
Proof.
  intros Hwk Hroot.
  destruct (pass_exact (visit (kinds_of s) registry p)
              (installed_resolver (kinds_of s) registry p)
              (fun s1 => queryType s1 = queryType s /\ mutationType s1 = mutationType s))
    with (l := fields_to_visit s) (s := s) (w := w)
    as (s' & E & _ & Res & Fr).
  - intros [t f] fd s1 w1 [Q1 M1] L. cbn [fst snd] in *.
    eexists. split; [|split; [|split]].
    + unfold visit. cbn [fst snd]. unfold bind at 1. unfold get_schema at 1.
      cbn [fst snd]. rewrite L. apply mockField_ordinary.
      destruct (is_root_type s1 t) eqn:Er; [right|now left].
      apply Hroot. unfold is_root_type in *. now rewrite <- Q1, <- M1.
    + destruct (roots_set_field_resolve (assignResolveType p (f_type fd) s1) t f
                  (installed_resolver (kinds_of s) registry p fd t f)) as [-> ->].
      destruct (roots_assignResolveType p (f_type fd) s1) as [-> ->]. now split.
    + rewrite lookup_field_set_field_resolve_same, lookup_field_assignResolveType, L.
      reflexivity.
    + intros t' f' Hne.
      now rewrite lookup_field_set_field_resolve_other, lookup_field_assignResolveType.
  - now split.
  - now apply visited_fields_once.
  - now apply visited_fields_exist.
  - exists s'. now repeat split.
Qed.

(** X16. Setup without a registry cannot fail on a schema with unique
    names: it allocates the default registry object and nothing else, and
    leaves on every visited field the resolver of the mocking engine over
    the empty registry, composed with the field's own resolver in
    preserve mode. *)
Theorem setup_without_registry_completes (s : schema) (p : bool) (w : world) :
  well_keyed s ->
  exists s',
    addMockFunctionsToSchema (Some s) VUndefined p w
    = (Ok tt, Some s',
       {| heap := heap w ++ [{| o_props := []; o_proto := Some ObjectPrototype;
                                o_kind := KObject |}];
          draws := draws w |})
    /\ (forall typeName fieldName fd,
          In (typeName, fieldName) (fields_to_visit s) ->
          lookup_field s typeName fieldName = Some fd ->
          lookup_field s' typeName fieldName
          = Some {| f_type := f_type fd;
                    f_resolve :=
                      Some (installed_resolver (kinds_of s) [] p fd typeName fieldName) |})
    /\ (forall typeName fieldName,
          ~ In (typeName, fieldName) (fields_to_visit s) ->
          lookup_field s' typeName fieldName = lookup_field s typeName fieldName).
Proof.
  intros Hwk.
  set (w1 := {| heap := heap w ++ [{| o_props := []; o_proto := Some ObjectPrototype;
                                      o_kind := KObject |}];
                draws := draws w |}).
  destruct (ordinary_pass s [] p w1 Hwk (fun _ _ => eq_refl)) as (s' & E & Res & Fr).
  exists s'. split; [|split; [exact Res|exact Fr]].
  unfold addMockFunctionsToSchema.
  unfold bind at 1. unfold liftW at 1. cbn [fst snd is_undefined].
  unfold new_object, alloc. cbn [map]. fold w1. cbn [isObject negb].
  unfold bind at 1. unfold liftW at 1. cbn [fst snd].
  assert (B : build_mockFunctionMap (VRef (length (heap w))) w1 = (Ok [], w1)).
  { unfold build_mockFunctionMap. unfold bind at 1. unfold Object_keys.
    unfold w1 at 1. cbn [heap].
    rewrite lookup_app_r by reflexivity. rewrite Nat.sub_diag. cbn [lookup list_lookup].
    reflexivity. }
  rewrite B.
  unfold bind at 1. unfold liftW at 1. cbn [fst snd forEachM]. unfold ret at 1.
  unfold forEachField. unfold bind at 1. unfold get_schema at 1. cbn [fst snd].
  change (forEachM _ (fields_to_visit s) (s, w1))
    with (forEachM (visit (kinds_of s) [] p) (fields_to_visit s) (s, w1)).
  now rewrite E.
Qed.

(** X17. With a registry object all of whose entries are functions and
    none of which is for the query or mutation type, setup completes on
    a schema with unique names and leaves on every visited field the
    resolver of the mocking engine over that registry, composed with the
    field's own resolver in preserve mode; no other field is touched. *)
Theorem setup_with_type_mocks_completes
    (s : schema) (mocks : value) (registry : list (string * value)) (p : bool)
    (w w1 : world) :
  well_keyed s ->
  isObject mocks = true ->
  build_mockFunctionMap mocks w = (Ok registry, w1) ->
  forallb (fun kv => is_function (heap w1) (snd kv)) registry = true ->
  (forall typeName, is_root_type s typeName = true -> assoc typeName registry = None) ->
  exists s',
    addMockFunctionsToSchema (Some s) mocks p w = (Ok tt, Some s', w1)
    /\ (forall typeName fieldName fd,
          In (typeName, fieldName) (fields_to_visit s) ->
          lookup_field s typeName fieldName = Some fd ->
          lookup_field s' typeName fieldName
          = Some {| f_type := f_type fd;
                    f_resolve :=
                      Some (installed_resolver (kinds_of s) registry p fd
                              typeName fieldName) |})
    /\ (forall typeName fieldName,
          ~ In (typeName, fieldName) (fields_to_visit s) ->
          lookup_field s' typeName fieldName = lookup_field s typeName fieldName).
Proof.
  intros Hwk Hobj Hbuild Hfun Hroot.
  destruct (ordinary_pass s registry p w1 Hwk Hroot) as (s' & E & Res & Fr).
  exists s'. split; [|split; [exact Res|exact Fr]].
  unfold addMockFunctionsToSchema.
  unfold bind at 1. unfold liftW at 1. cbn [fst snd].
  assert (U : is_undefined mocks = false) by (destruct mocks; try discriminate; reflexivity).
  rewrite U. unfold ret at 1. rewrite Hobj. cbn [negb].
  unfold bind at 1. unfold liftW at 1. cbn [fst snd]. rewrite Hbuild.
  unfold bind at 1. unfold liftW at 1. cbn [fst snd].
  rewrite check_registry.
  assert (Fd : find (fun kv => negb (is_function (heap w1) (snd kv))) registry = None).
  { clear -Hfun. induction registry as [|kv m IH]; [reflexivity|].
    cbn [forallb find] in *. apply andb_prop in Hfun. destruct Hfun as [-> Hm].
    cbn [negb]. now apply IH. }
  rewrite Fd.
  unfold forEachField. unfold bind at 1. unfold get_schema at 1. cbn [fst snd].
  change (forEachM _ (fields_to_visit s) (s, w1))
    with (forEachM (visit (kinds_of s) registry p) (fields_to_visit s) (s, w1)).
  now rewrite E.
Qed.
End SetupEffect.

(** * Properties of the schema generator *)

(** ** The decorators *)

Lemma decorateToCatchUndefined_result
    (fn : option resolver) (hint : string) (root args context info : value)
    (w w' : world) (v : value) :
  decorateToCatchUndefined fn hint root args context info w = (Ok v, w') ->
  is_undefined v = false.
Proof.
  unfold decorateToCatchUndefined, bind.
  destruct (call_resolve fn root args context info w) as [[v0| |] w1]; try discriminate.
  destruct (is_undefined v0) eqn:E; [discriminate|].
  now intros [= <- _].
Qed.

(** X18. A resolver decorated by [decorateToCatchUndefined] never returns
    [undefined]: a result is the undecorated resolver's own result, in
    the world it left, and is not [undefined]; a failure is either the
    undecorated resolver's own or the error naming the field, raised
    after the resolver returned [undefined]. *)
Theorem decorateToCatchUndefined_never_returns_undefined
    (fn : option resolver) (hint : string) (root args context info : value)
    (w w' : world) (o : outcome value) :
  decorateToCatchUndefined fn hint root args context info w = (o, w') ->
  match o with
  | Ok v => v <> VUndefined /\ call_resolve fn root args context info w = (Ok v, w')
  | Throw e =>
      call_resolve fn root args context info w = (Throw e, w')
      \/ (call_resolve fn root args context info w = (Ok VUndefined, w')
          /\ e = JsError ("Resolve function for " ++ dquote ++ hint ++ dquote
                          ++ " returned undefined"))
  | Stuck => call_resolve fn root args context info w = (Stuck, w')
  end.
Proof.
  unfold decorateToCatchUndefined, bind.
  destruct (call_resolve fn root args context info w) as [[v| |] w1].
  - destruct v; cbn [is_undefined]; unfold throw, ret; intros [= <- <-];
      try (split; [discriminate|reflexivity]).
    right. split; reflexivity.
  - intros [= <- <-]. now left.
  - intros [= <- <-]. reflexivity.
Qed.

(** X19. Decorating twice with [decorateToCatchUndefined] is decorating
    once: the outer hint is never reported. *)
Theorem decorateToCatchUndefined_twice
    (fn : option resolver) (inner outer : string) (root args context info : value)
    (w : world) :
  decorateToCatchUndefined (Some (decorateToCatchUndefined fn inner)) outer
    root args context info w
  = decorateToCatchUndefined fn inner root args context info w.
Proof.
  unfold decorateToCatchUndefined at 1. cbn [call_resolve]. unfold bind at 1.
  destruct (decorateToCatchUndefined fn inner root args context info w)
    as [[v| |] w1] eqn:E; try reflexivity.
  now rewrite (decorateToCatchUndefined_result _ _ _ _ _ _ _ _ _ E).
Qed.

Lemma logger_handler_fails (logger : option Logger) (hint : string) (e : exn value)
    (w w' : world) (v : value) :
  (e' <- (if negb (String.eqb hint EmptyString) then prefix_message hint e else ret e) ;;
   call_log logger e' ;;; throw e') w <> (Ok v, w').
Proof.
  unfold bind, throw.
  match goal with
  | |- (let (_, _) := ?m in _) <> _ => destruct m as [[e'| |] w1]
  end; try discriminate.
  destruct (call_log logger e' w1) as [[x| |] w2]; discriminate.
Qed.

(** X20. [decorateWithLogger] is transparent on success and never turns
    a failure into a success: the decorated resolver returns a value
    exactly when the undecorated one does, the same value in the same
    world, whatever the logger is and does. *)
Theorem decorateWithLogger_returns_iff_resolver_returns
    (fn : option resolver) (logger : option Logger) (hint : string)
    (root args context info : value) (w w' : world) (v : value) :
  decorateWithLogger fn logger hint root args context info w = (Ok v, w')
  <-> call_resolve fn root args context info w = (Ok v, w').
Proof.
  unfold decorateWithLogger, try_catch.
  destruct (call_resolve fn root args context info w) as [[v0| |] w1].
  - tauto.
  - split; [|discriminate]. intros E. now apply logger_handler_fails in E.
  - tauto.
Qed.

(** X21. When the resolver throws an [Error], the decorated resolver
    hands the logger that error with the message prefixed by
    [Error in resolver <hint>] and a line break, and throws it again
    once the logger returns; a failure of the logger replaces it. With
    an empty hint the message is left as it is. *)
Theorem decorateWithLogger_logs_then_rethrows
    (fn : option resolver) (lg : exn value -> M value) (hint message : string)
    (root args context info : value) (w w1 : world) :
  call_resolve fn root args context info w = (Throw (JsError message), w1) ->
  let logged :=
    JsError (if String.eqb hint EmptyString then message
             else "Error in resolver " ++ hint ++ newline ++ message) in
  decorateWithLogger fn (Some {| log := Some lg |}) hint root args context info w
  = match lg logged w1 with
    | (Ok _, w2) => (Throw logged, w2)
    | (Throw e2, w2) => (Throw e2, w2)
    | (Stuck, w2) => (Stuck, w2)
    end.
Proof.
  intros E logged. unfold decorateWithLogger, try_catch. rewrite E.
  unfold bind at 1. subst logged.
  destruct (String.eqb hint EmptyString); cbn [negb prefix_message]; unfold ret at 1;
    unfold bind, call_log, throw, resolver_error_message;
    match goal with |- context [lg ?e w1] => destruct (lg e w1) as [[x| |] w2] end;
    reflexivity.
Qed.

(** X22. A thrown primitive is lost when the hint is not empty: setting
    the message on it throws a TypeError before the logger is reached,
    and the decorated resolver throws that TypeError, whatever the logger
    is. With an empty hint the logger receives the thrown value, which is
    thrown again once the logger returns. *)
Theorem decorateWithLogger_thrown_primitive
    (fn : option resolver) (logger : option Logger) (hint : string) (v : value)
    (root args context info : value) (w w1 : world) :
  call_resolve fn root args context info w = (Throw (JsThrown v), w1) ->
  isObject v = false ->
  isArray v = false ->
  decorateWithLogger fn logger hint root args context info w
  = if String.eqb hint EmptyString
    then match call_log logger (JsThrown v) w1 with
         | (Ok _, w2) => (Throw (JsThrown v), w2)
         | (Throw e2, w2) => (Throw e2, w2)
         | (Stuck, w2) => (Stuck, w2)
         end
    else (Throw JsTypeError, w1).
Proof.
  intros E Hobj Harr. unfold decorateWithLogger, try_catch. rewrite E.
  unfold bind at 1.
  destruct (String.eqb hint EmptyString); cbn [negb].
  - unfold ret at 1. unfold bind, throw.
    destruct (call_log logger (JsThrown v) w1) as [[x| |] w2]; reflexivity.
  - destruct v; try discriminate; reflexivity.
Qed.

(** X23. A thrown object with an own string [message] is modified in
    place: its [message] is overwritten with the prefixed text before the
    logger runs, the logger is handed the very object, and the object is
    thrown again once the logger returns. *)
Theorem decorateWithLogger_thrown_object
    (fn : option resolver) (lg : exn value -> M value) (hint message : string)
    (l : loc) (o : object) (root args context info : value) (w w1 : world) :
  call_resolve fn root args context info w = (Throw (JsThrown (VRef l)), w1) ->
  heap w1 !! l = Some o ->
  option_map p_value (assoc "message" (o_props o)) = Some (VStr message) ->
  hint <> EmptyString ->
  decorateWithLogger fn (Some {| log := Some lg |}) hint root args context info w
  = match lg (JsThrown (VRef l))
            (world_after_put w1 l o "message"
               (VStr ("Error in resolver " ++ hint ++ newline ++ message))) with
    | (Ok _, w2) => (Throw (JsThrown (VRef l)), w2)
    | (Throw e2, w2) => (Throw e2, w2)
    | (Stuck, w2) => (Stuck, w2)
    end.
Proof.
  intros E Hl Hm Hh. unfold decorateWithLogger, try_catch. rewrite E.
  apply String.eqb_neq in Hh. rewrite Hh. cbn [negb prefix_message].
  unfold bind at 1. unfold bind at 1.
  assert (G : Get (VRef l) "message" w1 = (Ok (VStr message), w1)).
  { cbn [Get find_property]. rewrite Hl.
    destruct (assoc "message" (o_props o)) as [p|]; [|discriminate].
    cbn [option_map] in Hm. now injection Hm as ->. }
  rewrite G. unfold bind at 1. cbn [ToPropertyKey]. unfold ret at 1.
  unfold bind at 1. rewrite (Put_object l o _ _ w1 Hl). unfold ret at 1.
  unfold bind, call_log, throw. fold (resolver_error_message hint message).
  destruct (lg (JsThrown (VRef l)) _) as [[x| |] w2]; reflexivity.
Qed.

(** X24. In the order [generateSchema] applies them, the logger sees the
    error of the undefined check: when the resolver returns [undefined],
    the field decorated first by [decorateToCatchUndefined] and then by
    [decorateWithLogger] hands the logger the error
    [Resolve function for "<hint>" returned undefined] under the
    resolver prefix, and throws it once the logger returns. *)
Theorem logger_sees_the_undefined_check
    (fn : option resolver) (lg : exn value -> M value) (typeName fieldName : string)
    (root args context info : value) (w w1 w2 : world) (x : value) :
  call_resolve fn root args context info w = (Ok VUndefined, w1) ->
  let hint := typeName ++ "." ++ fieldName in
  let logged :=
    JsError ("Error in resolver " ++ hint ++ newline
             ++ "Resolve function for " ++ dquote ++ hint ++ dquote
             ++ " returned undefined") in
  lg logged w1 = (Ok x, w2) ->
  decorateWithLogger (Some (decorateToCatchUndefined fn hint))
    (Some {| log := Some lg |}) hint root args context info w
  = (Throw logged, w2).
Proof.
  intros E hint logged Hlog. unfold decorateWithLogger, try_catch.
  cbn [call_resolve]. unfold decorateToCatchUndefined at 1. unfold bind at 1.
  rewrite E. cbn [is_undefined]. unfold throw at 1.
  assert (Hh : String.eqb hint EmptyString = false).
  { subst hint. destruct typeName; reflexivity. }
  rewrite Hh. cbn [negb prefix_message]. unfold bind at 1. unfold ret at 1.
  unfold bind, call_log, throw.
  change (JsError (resolver_error_message hint (returned_undefined_message hint)))
    with logged.
  now rewrite Hlog.
Qed.

(** ** The passes *)

Lemma flat_map_assoc_set {A B : Type} (g : string * A -> list B) (k : string)
    (a a0 : A) (l : list (string * A)) :
  assoc k l = Some a0 -> g (k, a) = g (k, a0) ->
  flat_map g (assoc_set k a l) = flat_map g l.
Proof.
  intros Hk Hg. induction l as [|[k' a'] l IH]; [discriminate|].
  cbn [assoc assoc_set] in *. destruct (String.eqb k' k) eqn:E.
  - apply String.eqb_eq in E. subst k'. injection Hk as ->.
    cbn [flat_map]. now rewrite Hg.
  - cbn [flat_map]. now rewrite IH.
Qed.

Lemma map_fst_assoc_set {A : Type} (k : string) (a a0 : A) (l : list (string * A)) :
  assoc k l = Some a0 -> map fst (assoc_set k a l) = map fst l.
Proof.
  intros Hk. induction l as [|[k' a'] l IH]; [discriminate|].
  cbn [assoc assoc_set] in *. destruct (String.eqb k' k) eqn:E.
  - reflexivity.
  - cbn [map fst]. now rewrite IH.
Qed.

Lemma map_pair_fst {A : Type} (n : string) (l l' : list (string * A)) :
  map fst l = map fst l' ->
  map (fun ff => (n, fst ff)) l = map (fun ff => (n, fst ff)) l'.
Proof.
  intros E. rewrite <- (map_map fst (fun f => (n, f)) l).
  rewrite <- (map_map fst (fun f => (n, f)) l'). now rewrite E.
Qed.

Lemma fields_to_visit_set_field_resolve (s : schema) (typeName fieldName : string)
    (r : resolver) :
  fields_to_visit (set_field_resolve s typeName fieldName r) = fields_to_visit s.
Proof.
  unfold set_field_resolve.
  destruct (assoc typeName (typeMap s)) as [td|] eqn:Ht; [|reflexivity].
  destruct (assoc fieldName (td_fields td)) as [fd|] eqn:Hf; [|reflexivity].
  unfold fields_to_visit. cbn [typeMap].
  apply flat_map_assoc_set with (a0 := td); [exact Ht|].
  cbn [fst snd td_kind td_fields].
  destruct (negb (String.prefix "__" typeName) && _); [|reflexivity].
  apply map_pair_fst. now apply map_fst_assoc_set with (a0 := fd).
Qed.

(** A pass of [forEachField] that installs on each field a resolver
    made from the field as the pass finds it. *)
Lemma decorating_pass (make : field -> string -> string -> resolver)
    (s : schema) (w : world) :
  List.NoDup (fields_to_visit s) ->
  (forall tf, In tf (fields_to_visit s) -> lookup_field s (fst tf) (snd tf) <> None) ->
  exists s',
    forEachField
      (fun fd typeName fieldName =>
         modify_schema (fun s => set_field_resolve s typeName fieldName
                                   (make fd typeName fieldName)))
      (s, w)
    = (Ok tt, (s', w))
    /\ fields_to_visit s' = fields_to_visit s
    /\ kinds_of s' = kinds_of s
    /\ (forall typeName fieldName fd,
          In (typeName, fieldName) (fields_to_visit s) ->
          lookup_field s typeName fieldName = Some fd ->
          lookup_field s' typeName fieldName
          = Some (with_resolver (make fd typeName fieldName) fd))
    /\ (forall typeName fieldName,
          ~ In (typeName, fieldName) (fields_to_visit s) ->
          lookup_field s' typeName fieldName = lookup_field s typeName fieldName).
Proof.
  intros Hnd Hall.
  destruct (pass_exact
              (fun tf =>
                 s0 <- get_schema ;;
                 match lookup_field s0 (fst tf) (snd tf) with
                 | Some fd =>
                     modify_schema (fun s => set_field_resolve s (fst tf) (snd tf)
                                               (make fd (fst tf) (snd tf)))
                 | None => stuck
                 end)
              make
              (fun s1 => fields_to_visit s1 = fields_to_visit s
                         /\ kinds_of s1 = kinds_of s))
    with (l := fields_to_visit s) (s := s) (w := w)
    as (s' & E & [V K] & Res & Fr); auto.
  - intros [t f] fd s1 w1 [V1 K1] L. cbn [fst snd] in *.
    eexists. split; [|split; [|split]].
    + cbv beta. unfold bind at 1. unfold get_schema at 1. cbn [fst snd]. rewrite L.
      reflexivity.
    + now rewrite fields_to_visit_set_field_resolve, kinds_of_set_field_resolve.
    + cbn [fst snd]. now rewrite lookup_field_set_field_resolve_same, L.
    + cbn [fst snd]. intros t' f' Hne. now rewrite lookup_field_set_field_resolve_other.
  - exists s'. split; [|now repeat split].
    unfold forEachField. unfold bind at 1. unfold get_schema at 1. cbn [fst snd].
    exact E.
Qed.

(** X25. [addCatchUndefinedToSchema] cannot fail on a schema with unique
    names and touches nothing but resolvers: every visited field, with or
    without a resolver, ends with the undefined check around what it had,
    under the hint [Type.field]; no other field changes. *)
Theorem addCatchUndefinedToSchema_decorates_visited_fields (s : schema) (w : world) :
  well_keyed s ->
  exists s',
    addCatchUndefinedToSchema (s, w) = (Ok tt, (s', w))
    /\ kinds_of s' = kinds_of s
    /\ (forall typeName fieldName fd,
          In (typeName, fieldName) (fields_to_visit s) ->
          lookup_field s typeName fieldName = Some fd ->
          lookup_field s' typeName fieldName
          = Some {| f_type := f_type fd;
                    f_resolve :=
                      Some (decorateToCatchUndefined (f_resolve fd)
                              (typeName ++ "." ++ fieldName)) |})
    /\ (forall typeName fieldName,
          ~ In (typeName, fieldName) (fields_to_visit s) ->
          lookup_field s' typeName fieldName = lookup_field s typeName fieldName).
Proof.
  intros Hwk.
  destruct (decorating_pass
              (fun fd t f => decorateToCatchUndefined (f_resolve fd) (errorHint t f))
              s w (visited_fields_once s Hwk) (visited_fields_exist s Hwk))
    as (s' & E & _ & K & Res & Fr).
  exists s'. now repeat split.
Qed.

(** X26. [addErrorLoggingToSchema] validates the logger before touching
    the schema: without a logger, or with one whose [log] is not a
    function, it throws the corresponding error and the schema is as it
    was; otherwise, on a schema with unique names, it completes and every
    visited field ends with the logging decorator around what it had. *)
Theorem addErrorLoggingToSchema_validates_then_decorates
    (logger : option Logger) (s : schema) (w : world) :
  well_keyed s ->
  match logger with
  | None =>
      addErrorLoggingToSchema logger (s, w)
      = (Throw (JsError "Must provide a logger"), (s, w))
  | Some {| log := None |} =>
      addErrorLoggingToSchema logger (s, w)
      = (Throw (JsError "Logger.log must be a function"), (s, w))
  | Some {| log := Some _ |} =>
      exists s',
        addErrorLoggingToSchema logger (s, w) = (Ok tt, (s', w))
        /\ kinds_of s' = kinds_of s
        /\ (forall typeName fieldName fd,
              In (typeName, fieldName) (fields_to_visit s) ->
              lookup_field s typeName fieldName = Some fd ->
              lookup_field s' typeName fieldName
              = Some {| f_type := f_type fd;
                        f_resolve :=
                          Some (decorateWithLogger (f_resolve fd) logger
                                  (typeName ++ "." ++ fieldName)) |})
        /\ (forall typeName fieldName,
              ~ In (typeName, fieldName) (fields_to_visit s) ->
              lookup_field s' typeName fieldName = lookup_field s typeName fieldName)
  end.
Proof.
  intros Hwk. destruct logger as [[[lg|]]|]; try reflexivity.
  destruct (decorating_pass
              (fun fd t f => decorateWithLogger (f_resolve fd)
                               (Some {| log := Some lg |}) (errorHint t f))
              s w (visited_fields_once s Hwk) (visited_fields_exist s Hwk))
    as (s' & E & _ & K & Res & Fr).
  exists s'. now repeat split.
Qed.

(** X27. The tail of [generateSchema] with both options on: after
    [addCatchUndefinedToSchema] and then [addErrorLoggingToSchema], every
    visited field holds the logging decorator around the undefined check
    around its original resolver, so that the logger is outermost and
    sees the errors of the check. *)
Theorem logging_wraps_the_undefined_check
    (lg : exn value -> M value) (s : schema) (w : world) :
  well_keyed s ->
  let logger := Some {| log := Some lg |} in
  exists s',
    (addCatchUndefinedToSchema ;;; addErrorLoggingToSchema logger) (s, w)
    = (Ok tt, (s', w))
    /\ (forall typeName fieldName fd,
          In (typeName, fieldName) (fields_to_visit s) ->
          lookup_field s typeName fieldName = Some fd ->
          lookup_field s' typeName fieldName
          = Some {| f_type := f_type fd;
                    f_resolve :=
                      Some (decorateWithLogger
                              (Some (decorateToCatchUndefined (f_resolve fd)
                                       (typeName ++ "." ++ fieldName)))
                              logger (typeName ++ "." ++ fieldName)) |})
    /\ (forall typeName fieldName,
          ~ In (typeName, fieldName) (fields_to_visit s) ->
          lookup_field s' typeName fieldName = lookup_field s typeName fieldName).
Proof.
  intros Hwk logger.
  destruct (decorating_pass
              (fun fd t f => decorateToCatchUndefined (f_resolve fd) (errorHint t f))
              s w (visited_fields_once s Hwk) (visited_fields_exist s Hwk))
    as (s1 & E1 & V1 & _ & Res1 & Fr1).
  assert (Hnd1 : List.NoDup (fields_to_visit s1))
    by (rewrite V1; now apply visited_fields_once).
  assert (Hall1 : forall tf, In tf (fields_to_visit s1) ->
                             lookup_field s1 (fst tf) (snd tf) <> None).
  { intros [t f] Hin. cbn [fst snd]. rewrite V1 in Hin.
    destruct (lookup_field s t f) as [fd|] eqn:L.
    - now rewrite (Res1 t f fd Hin L).
    - exfalso. now apply (visited_fields_exist s Hwk (t, f) Hin). }
  destruct (decorating_pass
              (fun fd t f => decorateWithLogger (f_resolve fd) logger (errorHint t f))
              s1 w Hnd1 Hall1)
    as (s2 & E2 & _ & _ & Res2 & Fr2).
  exists s2. split; [|split].
  - unfold bind at 1. fold addCatchUndefinedToSchema in E1. rewrite E1. exact E2.
  - intros t f fd Hin L.
    rewrite (Res2 t f (with_resolver
                         (decorateToCatchUndefined (f_resolve fd) (errorHint t f)) fd));
      [reflexivity|now rewrite V1|now apply Res1].
  - intros t f Hn. rewrite Fr2 by now rewrite V1. now apply Fr1.
Qed.

(** ** addResolveFunctionsToSchema *)

Lemma assoc_kinds_of (s : schema) (typeName : string) :
  assoc typeName (kinds_of s) = option_map td_kind (assoc typeName (typeMap s)).
Proof.
  unfold kinds_of. induction (typeMap s) as [|[n td] tm IH]; [reflexivity|].
  cbn [map assoc fst snd]. now destruct (String.eqb n typeName).
Qed.

Lemma kinds_of_assign_field_resolve (s : schema) (typeName fieldName : string)
    (r : option resolver) :
  kinds_of (assign_field_resolve s typeName fieldName r) = kinds_of s.
Proof.
  unfold assign_field_resolve.
  destruct (assoc typeName (typeMap s)) as [td|] eqn:Ht; [|reflexivity].
  destruct (assoc fieldName (td_fields td)) as [fd|]; [|reflexivity].
  unfold kinds_of. cbn [typeMap]. now apply (map_assoc_set td_kind) with (a0 := td).
Qed.

Lemma lookup_field_assign_field_resolve_same (s : schema) (typeName fieldName : string)
    (r : option resolver) :
  lookup_field (assign_field_resolve s typeName fieldName r) typeName fieldName
  = option_map (fun fd => {| f_type := f_type fd; f_resolve := r |})
      (lookup_field s typeName fieldName).
Proof.
  unfold lookup_field, assign_field_resolve.
  destruct (assoc typeName (typeMap s)) as [td|] eqn:Ht; [|now rewrite Ht].
  destruct (assoc fieldName (td_fields td)) as [fd|] eqn:Hf.
  - cbn [typeMap]. rewrite assoc_set_eq. cbn [td_fields]. now rewrite assoc_set_eq.
  - now rewrite Ht, Hf.
Qed.

Lemma lookup_field_assign_field_resolve_other (s : schema) (typeName fieldName : string)
    (r : option resolver) (typeName' fieldName' : string) :
  typeName' <> typeName \/ fieldName' <> fieldName ->
  lookup_field (assign_field_resolve s typeName fieldName r) typeName' fieldName'
  = lookup_field s typeName' fieldName'.
Proof.
  intros Hne. unfold lookup_field, assign_field_resolve.
  destruct (assoc typeName (typeMap s)) as [td|] eqn:Ht; [|reflexivity].
  destruct (assoc fieldName (td_fields td)) as [fd|] eqn:Hf; [|reflexivity].
  cbn [typeMap].
  destruct (String.eqb typeName typeName') eqn:E.
  - apply String.eqb_eq in E. subst typeName'. rewrite assoc_set_eq, Ht. cbn [td_fields].
    apply assoc_set_ne. intros ->. destruct Hne as [Hne|Hne]; now apply Hne.
  - now rewrite assoc_set_ne by (intros ->; now rewrite String.eqb_refl in E).
Qed.

Lemma roots_assign_field_resolve (s : schema) (typeName fieldName : string)
    (r : option resolver) :
  queryType (assign_field_resolve s typeName fieldName r) = queryType s
  /\ mutationType (assign_field_resolve s typeName fieldName r) = mutationType s.
Proof.
  unfold assign_field_resolve.
  destruct (assoc typeName (typeMap s)) as [td|]; [|auto].
  destruct (assoc fieldName (td_fields td)); auto.
Qed.

Lemma forEachM_app {S A : Type} (g : A -> ST S unit) (l1 l2 : list A) (s : S) :
  forEachM g (l1 ++ l2) s
  = match forEachM g l1 s with
    | (Ok _, s1) => forEachM g l2 s1
    | r => r
    end.
Proof.
  revert s. induction l1 as [|a l1 IH]; intros s; [reflexivity|].
  cbn [app forEachM]. unfold bind.
  destruct (g a s) as [[[]| |] s1]; try reflexivity. apply IH.
Qed.

Section AddResolveFunctions.
Variable SchemaErrorPrototype : loc.

Lemma addResolveFunction_assigns (typeName fieldName : string) (r : option resolver)
    (s : schema) (w : world) (k : tkind) (fd : field) :
  assoc typeName (kinds_of s) = Some k ->
  has_getFields k = true ->
  lookup_field s typeName fieldName = Some fd ->
  addResolveFunction SchemaErrorPrototype typeName (fieldName, r) (s, w)
  = (Ok tt, (assign_field_resolve s typeName fieldName r, w)).
Proof.
  rewrite assoc_kinds_of. unfold lookup_field, addResolveFunction.
  unfold bind, get_schema. cbn [fst snd].
  destruct (assoc typeName (typeMap s)) as [td|]; [|discriminate].
  cbn [option_map]. intros [= <-] -> ->. reflexivity.
Qed.

Lemma addResolveFunctions_of_type (typeName : string) (k : tkind)
    (fs : list (string * option resolver)) :
  has_getFields k = true ->
  List.NoDup (map fst fs) ->
  forall s w,
    assoc typeName (kinds_of s) = Some k ->
    (forall f, In f (map fst fs) -> lookup_field s typeName f <> None) ->
    exists s',
      forEachM (addResolveFunction SchemaErrorPrototype typeName) fs (s, w)
      = (Ok tt, (s', w))
      /\ kinds_of s' = kinds_of s
      /\ (forall f r fd,
            In (f, r) fs ->
            lookup_field s typeName f = Some fd ->
            lookup_field s' typeName f = Some {| f_type := f_type fd; f_resolve := r |})
      /\ (forall typeName' f',
            typeName' <> typeName \/ ~ In f' (map fst fs) ->
            lookup_field s' typeName' f' = lookup_field s typeName' f').
Proof.
  intros Hk. induction fs as [|[f r] fs IH]; intros Hnd s w Hkind Hall.
  - exists s. repeat split; auto. intros f r fd [].
  - cbn [map fst] in Hnd. inversion Hnd as [|? ? Hnot Hnd']; subst.
    destruct (lookup_field s typeName f) as [fd0|] eqn:L0;
      [|exfalso; apply (Hall f); [now left|exact L0]].
    pose proof (addResolveFunction_assigns typeName f r s w k fd0 Hkind Hk L0) as E1.
    set (s1 := assign_field_resolve s typeName f r) in *.
    assert (K1 : kinds_of s1 = kinds_of s) by apply kinds_of_assign_field_resolve.
    assert (Own : lookup_field s1 typeName f
                  = Some {| f_type := f_type fd0; f_resolve := r |}).
    { unfold s1. now rewrite lookup_field_assign_field_resolve_same, L0. }
    assert (Oth : forall t' f', t' <> typeName \/ f' <> f ->
                                lookup_field s1 t' f' = lookup_field s t' f').
    { intros t' f' Hne. now apply lookup_field_assign_field_resolve_other. }
    destruct (IH Hnd' s1 w) as (s' & E2 & K2 & Res & Fr).
    + now rewrite K1.
    + intros f' Hin. rewrite Oth.
      * apply Hall. now right.
      * right. intros ->. now apply Hnot.
    + exists s'. split; [|split; [congruence|split]].
      * cbn [forEachM]. unfold bind at 1. rewrite E1. exact E2.
      * intros f' r' fd [[= -> ->]|Hin] Hfd.
        -- rewrite Fr by (right; exact Hnot). rewrite Own. congruence.
        -- apply Res; [exact Hin|]. rewrite Oth; [exact Hfd|].
           right. intros ->. apply Hnot. change f with (fst (f, r')). now apply in_map.
      * intros t' f' Hne. rewrite Fr.
        -- apply Oth. destruct Hne as [Hne|Hne]; [now left|].
           right. intros ->. apply Hne. now left.
        -- destruct Hne as [Hne|Hne]; [now left|].
           right. intros Hin. apply Hne. now right.
Qed.

Lemma addResolveFunctions_all (resolveFunctions : list (string * list (string * option resolver))) :
  List.NoDup (map fst resolveFunctions) ->
  (forall typeName fs, In (typeName, fs) resolveFunctions -> List.NoDup (map fst fs)) ->
  forall s w,
    (forall typeName fs,
        In (typeName, fs) resolveFunctions ->
        exists k, assoc typeName (kinds_of s) = Some k
                  /\ (fs = [] \/ has_getFields k = true)) ->
    (forall typeName fs f,
        In (typeName, fs) resolveFunctions -> In f (map fst fs) ->
        lookup_field s typeName f <> None) ->
    exists s',
      addResolveFunctionsToSchema SchemaErrorPrototype resolveFunctions (s, w)
      = (Ok tt, (s', w))
      /\ kinds_of s' = kinds_of s
      /\ (forall typeName fs f r fd,
            In (typeName, fs) resolveFunctions ->
            In (f, r) fs ->
            lookup_field s typeName f = Some fd ->
            lookup_field s' typeName f = Some {| f_type := f_type fd; f_resolve := r |})
      /\ (forall typeName f,
            (forall fs, In (typeName, fs) resolveFunctions -> ~ In f (map fst fs)) ->
            lookup_field s' typeName f = lookup_field s typeName f).
Proof.
  unfold addResolveFunctionsToSchema.
  induction resolveFunctions as [|[t fs] rf IH]; intros Hnd Hfs s w Hkinds Hall.
  - exists s. repeat split; auto. intros ? ? ? ? ? [].
  - cbn [map fst] in Hnd. inversion Hnd as [|? ? Hnot Hnd']; subst.
    destruct (Hkinds t fs (or_introl eq_refl)) as (k & Hk & Hget).
    assert (Inner : exists s1,
               forEachM (addResolveFunction SchemaErrorPrototype t) fs (s, w)
               = (Ok tt, (s1, w))
               /\ kinds_of s1 = kinds_of s
               /\ (forall f r fd,
                     In (f, r) fs ->
                     lookup_field s t f = Some fd ->
                     lookup_field s1 t f = Some {| f_type := f_type fd; f_resolve := r |})
               /\ (forall t' f',
                     t' <> t \/ ~ In f' (map fst fs) ->
                     lookup_field s1 t' f' = lookup_field s t' f')).
    { destruct Hget as [->|Hget].
      - exists s. repeat split; auto. intros ? ? ? [].
      - apply (addResolveFunctions_of_type t k fs Hget); auto.
        + apply (Hfs t fs). now left.
        + intros f Hin. apply (Hall t fs f); [now left|exact Hin]. }
    destruct Inner as (s1 & E1 & K1 & Res1 & Fr1).
    assert (Hne : forall t' fs', In (t', fs') rf -> t' <> t).
    { intros t' fs' Hin ->. apply Hnot. change t with (fst (t, fs')). now apply in_map. }
    destruct (IH Hnd' (fun t' fs' Hin => Hfs t' fs' (or_intror Hin)) s1 w)
      as (s' & E2 & K2 & Res2 & Fr2).
    + intros t' fs' Hin. rewrite K1. apply Hkinds. now right.
    + intros t' fs' f Hin Hf. rewrite Fr1 by (left; now apply (Hne t' fs')).
      apply (Hall t' fs' f); [now right|exact Hf].
    + exists s'. split; [|split; [congruence|split]].
      * cbn [forEachM]. unfold bind at 1. unfold bind at 1. unfold get_schema at 1.
        cbn [fst snd]. rewrite assoc_kinds_of in Hk.
        destruct (assoc t (typeMap s)) as [td|]; [|discriminate].
        rewrite E1. exact E2.
      * intros t' fs' f r fd [[= -> ->]|Hin] Hf Hfd.
        -- rewrite Fr2; [now apply Res1|].
           intros fs0 Hin0. exfalso. now apply (Hne t' fs0).
        -- apply (Res2 t' fs' f r fd Hin Hf).
           rewrite Fr1; [exact Hfd|]. left. now apply (Hne t' fs').
      * intros t' f Hn. rewrite Fr2.
        -- apply Fr1. destruct (String.string_dec t' t) as [->|Hd]; [|now left].
           right. apply (Hn fs). now left.
        -- intros fs0 Hin0. apply Hn. now right.
Qed.

(** X28. [addResolveFunctionsToSchema] round trip. When the table names
    each type and each field once, every named type is in the schema
    and, unless its table is empty, has fields, and every named field
    exists, the pass completes without touching the world; afterwards
    every named field holds exactly the entry of the table, with its
    declared type unchanged, and every field the table does not name is
    as it was. *)
Theorem addResolveFunctionsToSchema_installs_the_table
    (resolveFunctions : list (string * list (string * option resolver)))
    (s : schema) (w : world) :
  List.NoDup (map fst resolveFunctions) ->
  (forall typeName fs, In (typeName, fs) resolveFunctions -> List.NoDup (map fst fs)) ->
  (forall typeName fs,
      In (typeName, fs) resolveFunctions ->
      exists td, assoc typeName (typeMap s) = Some td
                 /\ (fs = [] \/ has_getFields (td_kind td) = true)
                 /\ forall f, In f (map fst fs) -> assoc f (td_fields td) <> None) ->
  exists s',
    addResolveFunctionsToSchema SchemaErrorPrototype resolveFunctions (s, w)
    = (Ok tt, (s', w))
    /\ kinds_of s' = kinds_of s
    /\ (forall typeName fs f r,
          In (typeName, fs) resolveFunctions ->
          In (f, r) fs ->
          exists fd, lookup_field s typeName f = Some fd
                     /\ lookup_field s' typeName f
                        = Some {| f_type := f_type fd; f_resolve := r |})
    /\ (forall typeName f,
          (forall fs, In (typeName, fs) resolveFunctions -> ~ In f (map fst fs)) ->
          lookup_field s' typeName f = lookup_field s typeName f).
Proof.
  intros Hnd Hfs Hin.
  assert (Hall : forall typeName fs f,
             In (typeName, fs) resolveFunctions -> In f (map fst fs) ->
             lookup_field s typeName f <> None).
  { intros t fs f Ht Hf. destruct (Hin t fs Ht) as (td & Htd & _ & Hfd).
    unfold lookup_field. rewrite Htd. now apply Hfd. }
  destruct (addResolveFunctions_all resolveFunctions Hnd Hfs s w)
    as (s' & E & K & Res & Fr).
  - intros t fs Ht. destruct (Hin t fs Ht) as (td & Htd & Hget & _).
    exists (td_kind td). now rewrite assoc_kinds_of, Htd.
  - exact Hall.
  - exists s'. split; [exact E|]. split; [exact K|]. split; [|exact Fr].
    intros t fs f r Ht Hf.
    destruct (lookup_field s t f) as [fd|] eqn:L.
    + exists fd. split; [reflexivity|]. now apply (Res t fs f r fd).
    + exfalso. apply (Hall t fs f Ht); [|exact L].
      change f with (fst (f, r)). now apply in_map.
Qed.

Lemma throw_SchemaError_run {A : Type} (message : string) (s : schema) (w : world) :
  throw_SchemaError (A := A) SchemaErrorPrototype message (s, w)
  = (Throw (JsThrown (VRef (length (heap w)))),
     (s, {| heap := heap w ++ [{| o_props := [("message",
                                               {| p_value := VStr message;
                                                  p_enumerable := true |})];
                                  o_proto := Some SchemaErrorPrototype;
                                  o_kind := KObject |}];
            draws := draws w |})).
Proof. reflexivity. Qed.

(** X29. A type the schema does not have stops the pass with a
    [SchemaError], a fresh object under [SchemaError.prototype] whose
    message names the type; the entries before it have taken effect and
    stay: when the entries up to the unknown type go through and lead to
    the schema [s1], the pass throws in [s1], not in the schema it
    started from, and the entries after it are not looked at. *)
Theorem addResolveFunctionsToSchema_unknown_type
    (before after : list (string * list (string * option resolver)))
    (typeName : string) (fs : list (string * option resolver))
    (s s1 : schema) (w w1 : world) :
  addResolveFunctionsToSchema SchemaErrorPrototype before (s, w) = (Ok tt, (s1, w1)) ->
  assoc typeName (typeMap s1) = None ->
  addResolveFunctionsToSchema SchemaErrorPrototype
    (before ++ (typeName, fs) :: after) (s, w)
  = (Throw (JsThrown (VRef (length (heap w1)))),
     (s1,
      {| heap := heap w1
                 ++ [{| o_props :=
                          [("message",
                            {| p_value :=
                                 VStr (dquote ++ typeName ++ dquote
                                       ++ " defined in resolvers, but not in schema");
                               p_enumerable := true |})];
                        o_proto := Some SchemaErrorPrototype;
                        o_kind := KObject |}];
         draws := draws w1 |})).
Proof.
  unfold addResolveFunctionsToSchema. intros E Hno.
  rewrite forEachM_app, E. cbn [forEachM]. unfold bind at 1. unfold bind at 1.
  unfold get_schema at 1. cbn [fst snd]. rewrite Hno.
  now rewrite throw_SchemaError_run.
Qed.

End AddResolveFunctions.

(** * The further properties on the scenarios *)




(** The scenario of X4: a field of the enum [Color] with the draw 1/2. *)
Lemma enum_field_resolves_to_a_declared_value_witness :
  exists v,
    mockType (H := scenario_host) scenario_kinds_enum scenario_registry
      (TNamed "Color") (Some "Bird") (Some "color")
      VUndefined VUndefined VUndefined VUndefined scenario_world
    = (Ok v, {| heap := scenario_heap; draws := [1 # 4; 3 # 4] |})
    /\ In v [VStr "RED"; VStr "GREEN"; VStr "BLUE"].
Proof.
  assert (H0 : (0 <= 1 # 2)%Q) by discriminate.
  assert (H1 : (1 # 2 < 1)%Q) by reflexivity.
  assert (Hl : [VStr "RED"; VStr "GREEN"; VStr "BLUE"] <> []) by discriminate.
  exact (enum_field_resolves_to_a_declared_value (H := scenario_host)
           scenario_kinds_enum scenario_registry
           (TNamed "Color") "Color" [VStr "RED"; VStr "GREEN"; VStr "BLUE"]
           (Some "Bird") (Some "color")
           VUndefined VUndefined VUndefined VUndefined scenario_world
           (1 # 2) [1 # 4; 3 # 4]
           eq_refl (or_introl eq_refl) eq_refl eq_refl Hl eq_refl H0 H1).
Defined.


(** The scenario of X6: a field of type [Bird] with the registry mock of
    [Bird]. *)
Lemma registry_entry_replaces_builtin_mock_witness :
  mockType (H := scenario_host) scenario_kinds scenario_registry
    (TNamed "Bird") (Some "RootQuery") (Some "bird")
    VUndefined VUndefined VUndefined VUndefined scenario_world
  = call_value (H := scenario_host) (VRef 3) VUndefined
      [VUndefined; VUndefined; VUndefined; VUndefined] scenario_world.
Proof.
  exact (registry_entry_replaces_builtin_mock (H := scenario_host)
           scenario_kinds scenario_registry (TNamed "Bird") "Bird" (VRef 3)
           (Some "RootQuery") (Some "bird")
           VUndefined VUndefined VUndefined VUndefined scenario_world
           eq_refl (or_introl eq_refl) eq_refl).
Defined.

(** The scenario of X7: [[Int]!] behaves as [[Int]]. *)
Lemma nonNull_wrapper_is_ignored_witness :
  mockType (H := scenario_host) scenario_kinds scenario_registry
    (TNonNull (TList (TNamed "Int"))) (Some "Bird") (Some "scores")
    VUndefined VUndefined VUndefined VUndefined scenario_world
  = mockType (H := scenario_host) scenario_kinds scenario_registry
      (TList (TNamed "Int")) (Some "Bird") (Some "scores")
      VUndefined VUndefined VUndefined VUndefined scenario_world.
Proof.
  exact (nonNull_wrapper_is_ignored (H := scenario_host)
           scenario_kinds scenario_registry (TList (TNamed "Int"))
           (Some "Bird") (Some "scores")
           VUndefined VUndefined VUndefined VUndefined scenario_world eq_refl).
Defined.

(** The scenario of X8: a nested array of primitives, with a generic
    mock that would fail if it ran. *)
Lemma mergeMocks_keeps_plain_data_witness :
  mergeMocks stuck (VArr [VNum 1; VArr [VStr "a"; VNull]; VBool true]) scenario_world
  = (Ok (VArr [VNum 1; VArr [VStr "a"; VNull]; VBool true]), scenario_world).
Proof.
  exact (mergeMocks_keeps_plain_data stuck
           (VArr [VNum 1; VArr [VStr "a"; VNull]; VBool true]) scenario_world eq_refl).
Defined.

(** The scenario of X9: [new MockList([5])]. *)
Lemma MockList_incomplete_pair_throws_witness :
  MockList_mock (H := scenario_host)
    (fun ofType => mockType (H := scenario_host) scenario_kinds scenario_registry
                     ofType None None)
    (mockType_undefined (H := scenario_host) scenario_kinds scenario_registry)
    (TList (TNamed "Int")) VUndefined (scenario_MockList (LenArray [5%Q]))
    VUndefined VUndefined VUndefined VUndefined scenario_world
  = (Throw JsRangeError, {| heap := scenario_heap; draws := [1 # 4; 3 # 4] |}).
Proof.
  assert (Hs : length [5%Q] < 2) by (cbn; lia).
  exact (MockList_incomplete_pair_throws (H := scenario_host)
           (fun ofType => mockType (H := scenario_host) scenario_kinds scenario_registry
                            ofType None None)
           (mockType_undefined (H := scenario_host) scenario_kinds scenario_registry)
           (TList (TNamed "Int")) VUndefined (scenario_MockList (LenArray [5%Q]))
           VUndefined VUndefined VUndefined VUndefined scenario_world
           [5%Q] (1 # 2) [1 # 4; 3 # 4] eq_refl Hs eq_refl).
Defined.


(** The scenario of X11: [new MockList(3, () => 33)]. *)
Lemma MockList_generator_fills_every_element_witness :
  MockList_mock (H := scenario_host)
    (fun ofType => mockType (H := scenario_host) scenario_kinds scenario_registry
                     ofType None None)
    (mockType_undefined (H := scenario_host) scenario_kinds scenario_registry)
    (TList (TNamed "Int")) VUndefined
    {| ml_len := LenNumber 3; ml_wrappedFunction := VRef 13 |}
    VUndefined VUndefined VUndefined VUndefined scenario_world_lists
  = (Ok (VArr [VNum 33; VNum 33; VNum 33]), scenario_world_lists).
Proof.
  exact (MockList_generator_fills_every_element (H := scenario_host)
           (fun ofType => mockType (H := scenario_host) scenario_kinds scenario_registry
                            ofType None None)
           (mockType_undefined (H := scenario_host) scenario_kinds scenario_registry)
           (TList (TNamed "Int")) VUndefined
           {| ml_len := LenNumber 3; ml_wrappedFunction := VRef 13 |}
           VUndefined VUndefined VUndefined VUndefined
           scenario_world_lists scenario_world_lists 3 (VNum 33)
           eq_refl eq_refl eq_refl eq_refl).
Defined.

(** The scenario of X12: a mock resolver that throws, and a real
    resolver whose promise is rejected. *)
Lemma preserve_mode_failures_propagate_witness :
  preservingResolver scenario_throwing_resolver scenario_null_resolver
    VUndefined VUndefined VUndefined VUndefined scenario_world
  = (Throw (JsError "boom"), scenario_world)
  /\ preservingResolver scenario_null_resolver scenario_throwing_resolver
       VUndefined VUndefined VUndefined VUndefined scenario_world
     = (Throw (JsError "boom"), scenario_world)
  /\ preservingResolver scenario_null_resolver scenario_rejecting_resolver
       VUndefined VUndefined VUndefined VUndefined scenario_world
     = (Ok (VPromise (Rejected (JsError "rejected"))), scenario_world)
  /\ preservingResolver scenario_pending_resolver scenario_null_resolver
       VUndefined VUndefined VUndefined VUndefined scenario_world
     = (Ok (VPromise Pending), scenario_world).
Proof.
  split; [|split; [|split]].
  - destruct (preserve_mode_failures_propagate scenario_throwing_resolver
                scenario_null_resolver
                VUndefined VUndefined VUndefined VUndefined scenario_world)
      as [Hthrow _].
    exact (Hthrow (JsError "boom") scenario_world eq_refl).
  - destruct (preserve_mode_failures_propagate scenario_null_resolver
                scenario_throwing_resolver
                VUndefined VUndefined VUndefined VUndefined scenario_world)
      as (_ & Hthrow & _).
    exact (Hthrow VNull scenario_world (JsError "boom") scenario_world eq_refl eq_refl).
  - destruct (preserve_mode_failures_propagate scenario_null_resolver
                scenario_rejecting_resolver
                VUndefined VUndefined VUndefined VUndefined scenario_world)
      as (_ & _ & Hsettle).
    destruct (Hsettle VNull scenario_world (VPromise (Rejected (JsError "rejected")))
                scenario_world eq_refl eq_refl) as (Hrej & _ & _).
    apply (Hrej (JsError "rejected") eq_refl). intros e'. discriminate.
  - destruct (preserve_mode_failures_propagate scenario_pending_resolver
                scenario_null_resolver
                VUndefined VUndefined VUndefined VUndefined scenario_world)
      as (_ & _ & Hsettle).
    destruct (Hsettle (VPromise Pending) scenario_world VNull
                scenario_world eq_refl eq_refl) as (_ & _ & Hpend).
    apply Hpend; [intros e; discriminate|intros e; discriminate|left; reflexivity].
Defined.

(** The scenario of X13: a field of the scalar [MissingMockType] that
    has a real resolver. *)
Lemma preserve_mode_unmocked_scalar_still_throws_witness :
  preservingResolver
    (mockType (H := scenario_host) scenario_kinds scenario_registry
       (TNamed "MissingMockType") (Some "Bird") (Some "missing"))
    scenario_real_resolver
    VUndefined VUndefined VUndefined VUndefined scenario_world
  = (Throw (JsError ("No mock defined for type " ++ dquote ++ "MissingMockType" ++ dquote)),
     scenario_world).
Proof.
  assert (Hdef : ~ In "MissingMockType" default_scalar_names).
  { cbn. intros [E|[E|[E|[E|[E|[]]]]]]; discriminate E. }
  exact (preserve_mode_unmocked_scalar_still_throws (H := scenario_host)
           scenario_kinds scenario_registry
           (TNamed "MissingMockType") "MissingMockType" (Some "Bird") (Some "missing")
           scenario_real_resolver
           VUndefined VUndefined VUndefined VUndefined scenario_world
           eq_refl (or_introl eq_refl) eq_refl eq_refl Hdef).
Defined.

Ltac distinct_names :=
  repeat (apply List.NoDup_cons; [cbn; intuition discriminate|]); apply List.NoDup_nil.

Ltac unique_names :=
  split; [cbn; distinct_names
         |cbn; repeat (apply List.Forall_cons; [cbn; distinct_names|]);
          apply List.Forall_nil].

(** The scenario of X14: setup without registry on the schema of the
    scenarios leaves a resolver on [Bird.returnInt]. *)
Lemma setup_gives_every_visited_field_a_resolver_witness :
  exists r,
    lookup_field scenario_mocked_schema "Bird" "returnInt"
    = Some {| f_type := TNamed "Int"; f_resolve := Some r |}.
Proof.
  assert (Hin : In ("Bird", "returnInt") (fields_to_visit scenario_schema))
    by (cbn; auto 10).
  exact (setup_gives_every_visited_field_a_resolver (H := scenario_host)
           scenario_schema scenario_mocked_schema VUndefined false scenario_world
           (snd (addMockFunctionsToSchema (H := scenario_host)
                   (Some scenario_schema) VUndefined false scenario_world))
           eq_refl "Bird" "returnInt" (plain_field (TNamed "Int")) Hin eq_refl).
Defined.

(** The scenario of X15: setup without registry on the schema of the
    scenarios. *)
Lemma setup_changes_only_resolvers_witness :
  kinds_of scenario_mocked_schema = scenario_kinds
  /\ queryType scenario_mocked_schema = Some "RootQuery"
  /\ field_type scenario_mocked_schema "Bird" "returnInt" = Some (TNamed "Int")
  /\ lookup_field scenario_mocked_schema "Flying" "wingspan"
     = lookup_field scenario_schema "Flying" "wingspan"
  /\ lookup_field scenario_mocked_schema "__Type" "name"
     = lookup_field scenario_schema "__Type" "name".
Proof.
  destruct (setup_changes_only_resolvers (H := scenario_host)
              scenario_schema scenario_mocked_schema VUndefined false scenario_world
              (snd (addMockFunctionsToSchema (H := scenario_host)
                      (Some scenario_schema) VUndefined false scenario_world))
              (Ok tt) eq_refl) as (K & Q & _ & T & F & U).
  split; [exact K|]. split; [exact Q|]. split; [exact (T "Bird" "returnInt")|].
  split.
  - apply F. cbn. intuition discriminate.
  - apply U. left. reflexivity.
Defined.

(** The scenario of X16: setup without registry, in preserve mode, on
    the scenario schema with a resolver on [Bird.returnInt]. *)
Lemma setup_without_registry_completes_witness :
  exists s',
    addMockFunctionsToSchema (H := scenario_host)
      (Some scenario_resolved_schema) VUndefined true scenario_world
    = (Ok tt, Some s',
       {| heap := scenario_heap ++ [plain_object []]; draws := [1 # 2; 1 # 4; 3 # 4] |})
    /\ lookup_field s' "Bird" "returnInt"
       = Some {| f_type := TNamed "Int";
                 f_resolve :=
                   Some (preservingResolver
                           (mockType (H := scenario_host)
                              (kinds_of scenario_resolved_schema) []
                              (TNamed "Int") (Some "Bird") (Some "returnInt"))
                           scenario_null_resolver) |}.
Proof.
  assert (Hwk : well_keyed scenario_resolved_schema) by unique_names.
  destruct (setup_without_registry_completes (H := scenario_host)
              scenario_resolved_schema true scenario_world Hwk)
    as (s' & E & Res & _).
  exists s'. split; [exact E|].
  assert (Hin : In ("Bird", "returnInt") (fields_to_visit scenario_resolved_schema))
    by (cbn; auto 10).
  exact (Res "Bird" "returnInt"
           {| f_type := TNamed "Int"; f_resolve := Some scenario_null_resolver |}
           Hin eq_refl).
Defined.

(** The scenario of X17: setup with a registry that mocks [Bird]. *)
Lemma setup_with_type_mocks_completes_witness :
  exists s',
    addMockFunctionsToSchema (H := scenario_host)
      (Some scenario_schema) (VRef 13) false scenario_world_type_mocks
    = (Ok tt, Some s', scenario_world_type_mocks)
    /\ lookup_field s' "RootQuery" "bird"
       = Some {| f_type := TNamed "Bird";
                 f_resolve :=
                   Some (mockType (H := scenario_host) scenario_kinds [("Bird", VRef 3)]
                           (TNamed "Bird") (Some "RootQuery") (Some "bird")) |}.
Proof.
  assert (Hwk : well_keyed scenario_schema) by unique_names.
  assert (Hroot : forall typeName,
             is_root_type scenario_schema typeName = true ->
             assoc typeName [("Bird", VRef 3)] = None).
  { intros typeName Hr. unfold is_root_type in Hr. cbn [queryType mutationType scenario_schema] in Hr.
    rewrite orb_false_r in Hr. apply String.eqb_eq in Hr. subst typeName. reflexivity. }
  destruct (setup_with_type_mocks_completes (H := scenario_host)
              scenario_schema (VRef 13) [("Bird", VRef 3)] false
              scenario_world_type_mocks scenario_world_type_mocks
              Hwk eq_refl eq_refl eq_refl Hroot)
    as (s' & E & Res & _).
  exists s'. split; [exact E|].
  assert (Hin : In ("RootQuery", "bird") (fields_to_visit scenario_schema))
    by (cbn; auto 10).
  exact (Res "RootQuery" "bird" (plain_field (TNamed "Bird")) Hin eq_refl).
Defined.

(** The scenario of X18: the undefined check around a resolver that
    returns [undefined]. *)
Lemma decorateToCatchUndefined_never_returns_undefined_witness :
  decorateToCatchUndefined (Some scenario_undefined_resolver) "Bird.returnInt"
    VUndefined VUndefined VUndefined VUndefined scenario_world
  = (Throw (JsError ("Resolve function for " ++ dquote ++ "Bird.returnInt" ++ dquote
                     ++ " returned undefined")), scenario_world)
  /\ call_resolve (Some scenario_undefined_resolver)
       VUndefined VUndefined VUndefined VUndefined scenario_world
     = (Ok VUndefined, scenario_world).
Proof.
  split; [reflexivity|].
  destruct (decorateToCatchUndefined_never_returns_undefined
              (Some scenario_undefined_resolver) "Bird.returnInt"
              VUndefined VUndefined VUndefined VUndefined scenario_world scenario_world
              (Throw (JsError ("Resolve function for " ++ dquote ++ "Bird.returnInt"
                               ++ dquote ++ " returned undefined")))
              eq_refl) as [Hc|[Hc _]].
  - discriminate Hc.
  - exact Hc.
Defined.

(** The scenario of X20: the logging decorator around a resolver that
    returns [null]. *)
Lemma decorateWithLogger_returns_iff_resolver_returns_witness :
  decorateWithLogger (Some scenario_null_resolver) scenario_logger "Bird.returnInt"
    VUndefined VUndefined VUndefined VUndefined scenario_world
  = (Ok VNull, scenario_world).
Proof.
  destruct (decorateWithLogger_returns_iff_resolver_returns
              (Some scenario_null_resolver) scenario_logger "Bird.returnInt"
              VUndefined VUndefined VUndefined VUndefined scenario_world scenario_world
              VNull) as [_ Hback].
  exact (Hback eq_refl).
Defined.

(** The scenario of X21: the logging decorator around a resolver that
    throws [Error("boom")]. *)
Lemma decorateWithLogger_logs_then_rethrows_witness :
  decorateWithLogger (Some scenario_throwing_resolver) scenario_logger "Bird.returnInt"
    VUndefined VUndefined VUndefined VUndefined scenario_world
  = (Throw (JsError ("Error in resolver Bird.returnInt" ++ newline ++ "boom")),
     scenario_world).
Proof.
  exact (decorateWithLogger_logs_then_rethrows
           (Some scenario_throwing_resolver) scenario_log "Bird.returnInt" "boom"
           VUndefined VUndefined VUndefined VUndefined scenario_world scenario_world
           eq_refl).
Defined.

(** The scenario of X22: the logging decorator around a resolver that
    throws a string. *)
Lemma decorateWithLogger_thrown_primitive_witness :
  decorateWithLogger (Some scenario_string_thrower) scenario_logger "Bird.returnInt"
    VUndefined VUndefined VUndefined VUndefined scenario_world
  = (Throw JsTypeError, scenario_world).
Proof.
  exact (decorateWithLogger_thrown_primitive
           (Some scenario_string_thrower) scenario_logger "Bird.returnInt" (VStr "oops")
           VUndefined VUndefined VUndefined VUndefined scenario_world scenario_world
           eq_refl eq_refl eq_refl).
Defined.

(** The scenario of X23: the logging decorator around a resolver that
    throws the object at 13, whose message is [bad bird]. *)
Lemma decorateWithLogger_thrown_object_witness :
  decorateWithLogger (Some scenario_object_thrower) scenario_logger "Bird.returnInt"
    VUndefined VUndefined VUndefined VUndefined scenario_world_errors
  = (Throw (JsThrown (VRef 13)),
     world_after_put scenario_world_errors 13 (plain_object [("message", VStr "bad bird")])
       "message"
       (VStr ("Error in resolver Bird.returnInt" ++ newline ++ "bad bird"))).
Proof.
  assert (Hh : "Bird.returnInt" <> EmptyString) by discriminate.
  exact (decorateWithLogger_thrown_object
           (Some scenario_object_thrower) scenario_log "Bird.returnInt" "bad bird"
           13 (plain_object [("message", VStr "bad bird")])
           VUndefined VUndefined VUndefined VUndefined
           scenario_world_errors scenario_world_errors
           eq_refl eq_refl eq_refl Hh).
Defined.

(** The scenario of X24: both decorators around a resolver that returns
    [undefined]. *)
Lemma logger_sees_the_undefined_check_witness :
  decorateWithLogger
    (Some (decorateToCatchUndefined (Some scenario_undefined_resolver) "Bird.returnInt"))
    scenario_logger "Bird.returnInt"
    VUndefined VUndefined VUndefined VUndefined scenario_world
  = (Throw (JsError ("Error in resolver Bird.returnInt" ++ newline
                     ++ "Resolve function for " ++ dquote ++ "Bird.returnInt" ++ dquote
                     ++ " returned undefined")),
     scenario_world).
Proof.
  exact (logger_sees_the_undefined_check
           (Some scenario_undefined_resolver) scenario_log "Bird" "returnInt"
           VUndefined VUndefined VUndefined VUndefined
           scenario_world scenario_world scenario_world VUndefined
           eq_refl eq_refl).
Defined.

(** The scenario of X25: the undefined check on the scenario schema with
    a resolver on [Bird.returnInt]. *)
Lemma addCatchUndefinedToSchema_decorates_visited_fields_witness :
  exists s',
    addCatchUndefinedToSchema (scenario_resolved_schema, scenario_world)
    = (Ok tt, (s', scenario_world))
    /\ lookup_field s' "Bird" "returnInt"
       = Some {| f_type := TNamed "Int";
                 f_resolve :=
                   Some (decorateToCatchUndefined (Some scenario_null_resolver)
                           "Bird.returnInt") |}
    /\ lookup_field s' "Bird" "returnString"
       = Some {| f_type := TNamed "String";
                 f_resolve :=
                   Some (decorateToCatchUndefined None "Bird.returnString") |}.
Proof.
  assert (Hwk : well_keyed scenario_resolved_schema) by unique_names.
  destruct (addCatchUndefinedToSchema_decorates_visited_fields
              scenario_resolved_schema scenario_world Hwk)
    as (s' & E & _ & Res & _).
  exists s'. split; [exact E|]. split.
  - assert (Hin : In ("Bird", "returnInt") (fields_to_visit scenario_resolved_schema))
      by (cbn; auto 10).
    exact (Res "Bird" "returnInt"
             {| f_type := TNamed "Int"; f_resolve := Some scenario_null_resolver |}
             Hin eq_refl).
  - assert (Hin : In ("Bird", "returnString") (fields_to_visit scenario_resolved_schema))
      by (cbn; auto 10).
    exact (Res "Bird" "returnString" (plain_field (TNamed "String")) Hin eq_refl).
Defined.

(** The scenario of X26: no logger, and the logger of the scenarios, on
    the scenario schema with a resolver on [Bird.returnInt]. *)
Lemma addErrorLoggingToSchema_validates_then_decorates_witness :
  addErrorLoggingToSchema None (scenario_resolved_schema, scenario_world)
  = (Throw (JsError "Must provide a logger"), (scenario_resolved_schema, scenario_world))
  /\ exists s',
       addErrorLoggingToSchema scenario_logger (scenario_resolved_schema, scenario_world)
       = (Ok tt, (s', scenario_world))
       /\ lookup_field s' "Bird" "returnInt"
          = Some {| f_type := TNamed "Int";
                    f_resolve :=
                      Some (decorateWithLogger (Some scenario_null_resolver)
                              scenario_logger "Bird.returnInt") |}.
Proof.
  assert (Hwk : well_keyed scenario_resolved_schema) by unique_names.
  split.
  - exact (addErrorLoggingToSchema_validates_then_decorates None
             scenario_resolved_schema scenario_world Hwk).
  - destruct (addErrorLoggingToSchema_validates_then_decorates scenario_logger
                scenario_resolved_schema scenario_world Hwk)
      as (s' & E & _ & Res & _).
    exists s'. split; [exact E|].
    assert (Hin : In ("Bird", "returnInt") (fields_to_visit scenario_resolved_schema))
      by (cbn; auto 10).
    exact (Res "Bird" "returnInt"
             {| f_type := TNamed "Int"; f_resolve := Some scenario_null_resolver |}
             Hin eq_refl).
Defined.

(** The scenario of X27: both passes on the scenario schema with a
    resolver on [Bird.returnInt]. *)
Lemma logging_wraps_the_undefined_check_witness :
  exists s',
    (addCatchUndefinedToSchema ;;; addErrorLoggingToSchema scenario_logger)
      (scenario_resolved_schema, scenario_world)
    = (Ok tt, (s', scenario_world))
    /\ lookup_field s' "Bird" "returnInt"
       = Some {| f_type := TNamed "Int";
                 f_resolve :=
                   Some (decorateWithLogger
                           (Some (decorateToCatchUndefined (Some scenario_null_resolver)
                                    "Bird.returnInt"))
                           scenario_logger "Bird.returnInt") |}.
Proof.
  assert (Hwk : well_keyed scenario_resolved_schema) by unique_names.
  destruct (logging_wraps_the_undefined_check scenario_log
              scenario_resolved_schema scenario_world Hwk)
    as (s' & E & Res & _).
  exists s'. split; [exact E|].
  assert (Hin : In ("Bird", "returnInt") (fields_to_visit scenario_resolved_schema))
    by (cbn; auto 10).
  exact (Res "Bird" "returnInt"
           {| f_type := TNamed "Int"; f_resolve := Some scenario_null_resolver |}
           Hin eq_refl).
Defined.

(** The scenario of X28: the table of the scenarios on the scenario
    schema. *)
Lemma addResolveFunctionsToSchema_installs_the_table_witness :
  exists s',
    addResolveFunctionsToSchema scenario_SchemaErrorPrototype scenario_resolveFunctions
      (scenario_resolved_schema, scenario_world)
    = (Ok tt, (s', scenario_world))
    /\ lookup_field s' "Bird" "returnInt"
       = Some {| f_type := TNamed "Int"; f_resolve := Some scenario_undefined_resolver |}
    /\ lookup_field s' "Bird" "returnString"
       = Some {| f_type := TNamed "String"; f_resolve := None |}
    /\ lookup_field s' "Bee" "returnInt"
       = lookup_field scenario_resolved_schema "Bee" "returnInt".
Proof.
  assert (Hnd : List.NoDup (map fst scenario_resolveFunctions)) by (cbn; distinct_names).
  assert (Hfs : forall typeName fs,
             In (typeName, fs) scenario_resolveFunctions -> List.NoDup (map fst fs)).
  { intros typeName fs [E|[E|[E|[]]]]; injection E as <- <-; cbn; distinct_names. }
  assert (Hin : forall typeName fs,
             In (typeName, fs) scenario_resolveFunctions ->
             exists td, assoc typeName (typeMap scenario_resolved_schema) = Some td
                        /\ (fs = [] \/ has_getFields (td_kind td) = true)
                        /\ forall f, In f (map fst fs) -> assoc f (td_fields td) <> None).
  { intros typeName fs [E|[E|[E|[]]]]; injection E as <- <-;
      (eexists; split; [reflexivity|split; [|cbn; intros f Hf]]).
    - right. reflexivity.
    - destruct Hf as [<-|[]]. discriminate.
    - right. reflexivity.
    - destruct Hf as [<-|[<-|[]]]; discriminate.
    - left. reflexivity.
    - destruct Hf. }
  destruct (addResolveFunctionsToSchema_installs_the_table scenario_SchemaErrorPrototype
              scenario_resolveFunctions scenario_resolved_schema scenario_world
              Hnd Hfs Hin)
    as (s' & E & _ & Res & Fr).
  exists s'. split; [exact E|]. split; [|split].
  - destruct (Res "Bird" _ "returnInt" (Some scenario_undefined_resolver)
                (or_intror (or_introl eq_refl)) (or_introl eq_refl))
      as (fd & Hfd & Hres).
    injection Hfd as <-. exact Hres.
  - destruct (Res "Bird" _ "returnString" None
                (or_intror (or_introl eq_refl)) (or_intror (or_introl eq_refl)))
      as (fd & Hfd & Hres).
    injection Hfd as <-. exact Hres.
  - apply Fr. intros fs [Hq|[Hq|[Hq|[]]]]; discriminate Hq.
Defined.

(** The scenario of X29: a table whose second type, [Nest], is not in
    the schema. *)
Lemma addResolveFunctionsToSchema_unknown_type_witness :
  addResolveFunctionsToSchema scenario_SchemaErrorPrototype
    ([("RootQuery", [("bird", Some scenario_null_resolver)])]
     ++ ("Nest", [("eggs", None)]) :: [("Bird", [("returnInt", None)])])
    (scenario_schema, scenario_world)
  = (Throw (JsThrown (VRef 13)),
     (assign_field_resolve scenario_schema "RootQuery" "bird" (Some scenario_null_resolver),
      {| heap := scenario_heap
                 ++ [{| o_props :=
                          [("message",
                            {| p_value :=
                                 VStr (dquote ++ "Nest" ++ dquote
                                       ++ " defined in resolvers, but not in schema");
                               p_enumerable := true |})];
                        o_proto := Some scenario_SchemaErrorPrototype;
                        o_kind := KObject |}];
         draws := [1 # 2; 1 # 4; 3 # 4] |})).
Proof.
  exact (addResolveFunctionsToSchema_unknown_type scenario_SchemaErrorPrototype
           [("RootQuery", [("bird", Some scenario_null_resolver)])]
           [("Bird", [("returnInt", None)])]
           "Nest" [("eggs", None)]
           scenario_schema
           (assign_field_resolve scenario_schema "RootQuery" "bird"
              (Some scenario_null_resolver))
           scenario_world scenario_world eq_refl eq_refl).
Defined.

